(** * AIGC risk detector and docx patcher: a shallow embedding

    The development follows the TypeScript sources:
    - [src/docx/xmlText.ts]      entity escaping of [w:t] text,
    - [src/docx/documentXml.ts]  slicing of [word/document.xml] into parts,
    - [src/docx/patcher.ts]      write-back of replacement text,
    - [src/analysis/textUtils.ts], [src/analysis/detector.ts]
                                 paragraph and document scoring.

    A JavaScript string is the list of its UTF-16 code units; the regular
    expressions of the sources carry no [u] or [i] flag, so they work on
    code units too.  A JavaScript [number] that only ever holds a small
    integer is a [Z]; one that goes through a division is a binary64
    [float], with the operations of IEEE 754 that JavaScript uses. *)

From Stdlib Require Import ZArith NArith QArith Qround List String Ascii Bool Lia Permutation.
From Stdlib Require Import Floats Uint63 DecimalString.
From Stdlib Require DecimalNat.
From stdpp Require Import base option list gmap.

Set Warnings "-inexact-float".
Open Scope Z_scope.

(* ================================================================= *)
(** ** JavaScript strings *)

Abbreviation jsstring := (list N).

(** The code units of an ASCII literal. *)
Definition js (s : string) : jsstring :=
  List.map N_of_ascii (list_ascii_of_string s).

(** [s.startsWith(pat)]; also the test "the literal [pat] matches here". *)
Fixpoint starts_with (pat s : jsstring) : bool :=
  match pat, s with
  | [], _ => true
  | _ :: _, [] => false
  | a :: pat', b :: s' => N.eqb a b && starts_with pat' s'
  end.

(** [RegExp.prototype.exec] from [lastIndex]: the start positions are tried
    from left to right, [m] being the pattern anchored at the position it is
    given.  The result is the text skipped, what [m] returns and the text
    after the match.  No pattern of the sources matches the empty string. *)
Fixpoint exec_from {A} (m : jsstring -> option (A * jsstring)) (s : jsstring)
  : option (jsstring * A * jsstring) :=
  match s with
  | [] => None
  | c :: s' =>
      match m s with
      | Some (a, rest) => Some ([], a, rest)
      | None =>
          match exec_from m s' with
          | Some (before, a, rest) => Some (c :: before, a, rest)
          | None => None
          end
      end
  end.

(** The lazy [[\s\S]*?] followed by the literal [close]: the text up to the
    first occurrence of [close], and the text after that occurrence. *)
Fixpoint until_literal (close s : jsstring) : option (jsstring * jsstring) :=
  if starts_with close s then Some ([], skipn (length close) s)
  else match s with
       | [] => None
       | c :: s' =>
           match until_literal close s' with
           | Some (body, rest) => Some (c :: body, rest)
           | None => None
           end
       end.

(** [str.replace(/pat/g, rep)] for a literal [pat] and a replacement without
    [$]: every match, left to right, matches never overlapping.  [skip]
    counts the code units of the current match still to be dropped. *)
Fixpoint replaceAll_go (pat rep : jsstring) (skip : nat) (s : jsstring) : jsstring :=
  match s with
  | [] => []
  | c :: s' =>
      match skip with
      | S k => replaceAll_go pat rep k s'
      | O =>
          if starts_with pat s
          then rep ++ replaceAll_go pat rep (length pat - 1) s'
          else c :: replaceAll_go pat rep 0 s'
      end
  end.

Definition replaceAll (pat rep s : jsstring) : jsstring :=
  replaceAll_go pat rep 0 s.

(* ================================================================= *)
(** ** src/docx/xmlText.ts *)

Definition amp : jsstring := Eval cbv in js "&".
Definition lt : jsstring := Eval cbv in js "<".
Definition gt : jsstring := Eval cbv in js ">".
Definition quot : jsstring := [34%N].
Definition apos : jsstring := Eval cbv in js "'".
Definition amp_entity : jsstring := Eval cbv in js "&amp;".
Definition lt_entity : jsstring := Eval cbv in js "&lt;".
Definition gt_entity : jsstring := Eval cbv in js "&gt;".
Definition quot_entity : jsstring := Eval cbv in js "&quot;".
Definition apos_entity : jsstring := Eval cbv in js "&apos;".

Definition decodeXmlText (input : jsstring) : jsstring :=
  replaceAll amp_entity amp
    (replaceAll apos_entity apos
      (replaceAll quot_entity quot
        (replaceAll gt_entity gt
          (replaceAll lt_entity lt input)))).

Definition encodeXmlText (input : jsstring) : jsstring :=
  replaceAll apos apos_entity
    (replaceAll quot quot_entity
      (replaceAll gt gt_entity
        (replaceAll lt lt_entity
          (replaceAll amp amp_entity input)))).

(* ================================================================= *)
(** ** Regular-expression building blocks *)

(** The word characters of [\b]: [[A-Za-z0-9_]]. *)
Definition is_word (c : N) : bool :=
  ((48 <=? c) && (c <=? 57) || (65 <=? c) && (c <=? 90)
   || (97 <=? c) && (c <=? 122) || (c =? 95))%N.

(** The white space of [\s] (which already holds U+00A0). *)
Definition is_space (c : N) : bool :=
  ((9 <=? c) && (c <=? 13) || (c =? 32) || (c =? 160) || (c =? 5760)
   || (8192 <=? c) && (c <=? 8202) || (c =? 8232) || (c =? 8233)
   || (c =? 8239) || (c =? 8287) || (c =? 12288) || (c =? 65279))%N.

(** [name\b] for a [name] that ends in a word character: the literal, then
    the end of the input or a character that is not a word character. *)
Definition tag_at (name s : jsstring) : bool :=
  starts_with name s &&
  match skipn (length name) s with
  | [] => true
  | c :: _ => negb (is_word c)
  end.

Fixpoint drop_spaces (s : jsstring) : jsstring :=
  match s with
  | c :: s' => if is_space c then drop_spaces s' else s
  | [] => []
  end.

(** The loop [while ((m = re.exec(s)))] of a global regular expression, and
    [s.matchAll(re)]: the matches from left to right.  Every match is at
    least one code unit long, so [length s] rounds are enough. *)
Fixpoint matchAll_go {A} (m : jsstring -> option (A * jsstring))
    (fuel : nat) (s : jsstring) : list A :=
  match fuel with
  | O => []
  | S fuel' =>
      match exec_from m s with
      | None => []
      | Some (_, a, rest) => a :: matchAll_go m fuel' rest
      end
  end.

Definition matchAll {A} (m : jsstring -> option (A * jsstring)) (s : jsstring) : list A :=
  matchAll_go m (length s) s.

(* ================================================================= *)
(** ** src/docx/documentXml.ts *)

Inductive DocxParagraphKind := paragraph | tableCellParagraph.

Record DocxParagraph := {
  id : jsstring;
  index : nat;
  kind : DocxParagraphKind;
  text : jsstring;
  xml : jsstring
}.

Inductive DocumentXmlParts :=
| PChunk (chunk_xml : jsstring)
| PParagraph (p : DocxParagraph).

Definition tag_p : jsstring := Eval cbv in js "<w:p".
Definition close_p : jsstring := Eval cbv in js "</w:p>".
Definition tag_tc : jsstring := Eval cbv in js "<w:tc".
Definition close_tc : jsstring := Eval cbv in js "</w:tc>".
Definition tag_t : jsstring := Eval cbv in js "<w:t".
Definition close_t : jsstring := Eval cbv in js "</w:t>".
Definition tag_tab : jsstring := Eval cbv in js "<w:tab".
Definition tag_br : jsstring := Eval cbv in js "<w:br".
Definition tag_cr : jsstring := Eval cbv in js "<w:cr".
Definition slash_gt : jsstring := Eval cbv in js "/>".

(** [/<w:p\b[\s\S]*?<\/w:p>/] anchored: the matched text and what follows. *)
Definition match_paragraphRe (s : jsstring) : option (jsstring * jsstring) :=
  if tag_at tag_p s then
    match until_literal close_p (skipn 4 s) with
    | Some (body, rest) => Some (tag_p ++ body ++ close_p, rest)
    | None => None
    end
  else None.

(** [/<w:tc\b/] and [/<\/w:tc>/] anchored. *)
Definition match_openRe (s : jsstring) : option (unit * jsstring) :=
  if tag_at tag_tc s then Some (tt, skipn 5 s) else None.

Definition match_closeRe (s : jsstring) : option (unit * jsstring) :=
  if starts_with close_tc s then Some (tt, skipn 7 s) else None.

(** The two loops of [updateTableCellDepth]: one round per match. *)
Definition updateTableCellDepth (xmlChunk : jsstring) (tcDepth : Z) : Z :=
  let opened :=
    fold_left (fun d _ => d + 1) (matchAll match_openRe xmlChunk) tcDepth in
  fold_left (fun d _ => Z.max 0 (d - 1)) (matchAll match_closeRe xmlChunk) opened.

(** The alternatives of [tokenRe], in the order of the source. *)
Inductive token := TText (content : jsstring) | TTab | TBreak.

(** The text leaf [<w:t\b], attributes up to the first [>], lazy content,
    [<\/w:t>], anchored: the attributes, the content and what follows. *)
Definition match_leaf (s : jsstring) : option (jsstring * jsstring * jsstring) :=
  if tag_at tag_t s then
    match until_literal gt (skipn 4 s) with
    | Some (attr, after_gt) =>
        match until_literal close_t after_gt with
        | Some (content, rest) => Some (attr, content, rest)
        | None => None
        end
    | None => None
    end
  else None.

(** [name\s*\/>] anchored. *)
Definition match_empty_tag (name s : jsstring) : option jsstring :=
  if starts_with name s then
    let r := drop_spaces (skipn (length name) s) in
    if starts_with slash_gt r then Some (skipn 2 r) else None
  else None.

(** [<w:br\b[^>]*\/>] anchored: the first [>] ends the tag and the character
    before it is the slash. *)
Definition match_br (s : jsstring) : option jsstring :=
  if tag_at tag_br s then
    match until_literal gt (skipn 5 s) with
    | Some (attr, rest) =>
        match last attr with
        | Some c => if N.eqb c 47 then Some rest else None
        | None => None
        end
    | None => None
    end
  else None.

Definition match_tokenRe (s : jsstring) : option (token * jsstring) :=
  match match_leaf s with
  | Some (_, content, rest) => Some (TText content, rest)
  | None =>
      match match_empty_tag tag_tab s with
      | Some rest => Some (TTab, rest)
      | None =>
          match match_br s with
          | Some rest => Some (TBreak, rest)
          | None =>
              match match_empty_tag tag_cr s with
              | Some rest => Some (TBreak, rest)
              | None => None
              end
          end
      end
  end.

Definition token_text (t : token) : jsstring :=
  match t with
  | TText content => decodeXmlText content
  | TTab => [9%N]
  | TBreak => [10%N]
  end.

(** The final [replace] of [extractParagraphText]: the trailing run of
    white space (U+00A0 included) is removed. *)
Definition trimEnd (s : jsstring) : jsstring := rev (drop_spaces (rev s)).

Definition extractParagraphText (paragraphXml : jsstring) : jsstring :=
  trimEnd (concat (List.map token_text (matchAll match_tokenRe paragraphXml))).

(** The decimal digits of [n], as the template literal prints a number. *)
Definition decimal (n : nat) : jsstring :=
  js (DecimalString.NilEmpty.string_of_uint (Nat.to_uint n)).

Definition paragraph_id (paraIndex : nat) : jsstring :=
  js "p-" ++ decimal paraIndex.

Definition kind_of_depth (tcDepth : Z) : DocxParagraphKind :=
  if 0 <? tcDepth then tableCellParagraph else paragraph.

(** The main loop of [splitDocumentXmlIntoParts].  [rest] is the text from
    [lastIndex] on; every round consumes a match, so [S (length rest)]
    rounds reach the end. *)
Fixpoint split_loop (fuel : nat) (rest : jsstring) (paraIndex : nat) (tcDepth : Z)
  : list DocumentXmlParts :=
  match fuel with
  | O => []
  | S fuel' =>
      match exec_from match_paragraphRe rest with
      | None =>
          match rest with
          | [] => []
          | _ => [PChunk rest]
          end
      | Some (before, paraXml, after) =>
          let tcDepth1 :=
            match before with
            | [] => tcDepth
            | _ => updateTableCellDepth before tcDepth
            end in
          let p := {| id := paragraph_id paraIndex;
                      index := paraIndex;
                      kind := kind_of_depth tcDepth1;
                      text := extractParagraphText paraXml;
                      xml := paraXml |} in
          match before with
          | [] => []
          | _ => [PChunk before]
          end ++
          PParagraph p ::
          split_loop fuel' after (S paraIndex) (updateTableCellDepth paraXml tcDepth1)
      end
  end.

Definition paragraphs_of (parts : list DocumentXmlParts) : list DocxParagraph :=
  flat_map (fun part => match part with
                        | PChunk _ => []
                        | PParagraph p => [p]
                        end) parts.

Definition splitDocumentXmlIntoParts (documentXml : jsstring)
  : list DocumentXmlParts * list DocxParagraph :=
  let parts := split_loop (S (length documentXml)) documentXml 0 0 in
  (parts, paragraphs_of parts).

(* ================================================================= *)
(** ** src/docx/patcher.ts *)

Definition is_digit (c : N) : bool := ((48 <=? c) && (c <=? 57))%N.
Definition digit_value (c : N) : nat := N.to_nat (c - 48).

(** Capture [n] of [GetSubstitution], if [1 <= n <= m]. *)
Definition capture (captures : list jsstring) (n : nat) : option jsstring :=
  match n with
  | O => None
  | S k => nth_error captures k
  end.

(** [GetSubstitution] of ECMAScript, which [String.prototype.replace] runs
    over a replacement given as a string: [$$], [$&], the text before the
    match, the text after it, and [$n], [$nn] for the captures; any other
    dollar sign stands for itself.  No pattern here has named groups. *)
Fixpoint getSubstitution (matched before after : jsstring)
    (captures : list jsstring) (template : jsstring) : jsstring :=
  match template with
  | [] => []
  | c :: t1 =>
      if negb (N.eqb c 36) then
        c :: getSubstitution matched before after captures t1
      else
        match t1 with
        | [] => [c]
        | d :: t2 =>
            if N.eqb d 36 then
              36%N :: getSubstitution matched before after captures t2
            else if N.eqb d 38 then
              matched ++ getSubstitution matched before after captures t2
            else if N.eqb d 96 then
              before ++ getSubstitution matched before after captures t2
            else if N.eqb d 39 then
              after ++ getSubstitution matched before after captures t2
            else if is_digit d then
              let one_digit :=
                match capture captures (digit_value d) with
                | Some cap => cap ++ getSubstitution matched before after captures t2
                | None => c :: d :: getSubstitution matched before after captures t2
                end in
              match t2 with
              | d2 :: t3 =>
                  if is_digit d2 then
                    match capture captures (10 * digit_value d + digit_value d2) with
                    | Some cap => cap ++ getSubstitution matched before after captures t3
                    | None => one_digit
                    end
                  else one_digit
              | [] => one_digit
              end
            else
              c :: getSubstitution matched before after captures t1
        end
  end.

(** [str.replace(searchValue, replaceValue)] for two strings: the first
    occurrence only, the replacement read as a template. *)
Definition replace_string (str searchValue replaceValue : jsstring) : jsstring :=
  match until_literal searchValue str with
  | None => str
  | Some (before, after) =>
      before ++ getSubstitution searchValue before after [] replaceValue ++ after
  end.

(** [str.replace(re, replaceValue)] for a regular expression without the
    [g] flag whose one group is the whole match. *)
Definition replace_group (m : jsstring -> option (jsstring * jsstring))
    (str replaceValue : jsstring) : jsstring :=
  match exec_from m str with
  | None => str
  | Some (before, matched, after) =>
      before ++ getSubstitution matched before after [matched] replaceValue ++ after
  end.

Definition tag_pPr : jsstring := Eval cbv in js "<w:pPr".
Definition close_pPr : jsstring := Eval cbv in js "</w:pPr>".
Definition xml_space_eq : jsstring := Eval cbv in js "xml:space=".
Definition preserve_attr : jsstring :=
  Eval cbv in js " xml:space=" ++ quot ++ js "preserve" ++ quot.

(** [tRe] with its two groups: the whole match and the attributes. *)
Definition match_tRe (s : jsstring) : option ((jsstring * jsstring) * jsstring) :=
  match match_leaf s with
  | Some (attr, content, rest) =>
      Some ((tag_t ++ attr ++ gt ++ content ++ close_t, attr), rest)
  | None => None
  end.

(** [<w:pPr\b], lazy content, [<\/w:pPr>], anchored. *)
Definition match_pPr (s : jsstring) : option (jsstring * jsstring) :=
  if tag_at tag_pPr s then
    match until_literal close_pPr (skipn 6 s) with
    | Some (body, rest) => Some (tag_pPr ++ body ++ close_pPr, rest)
    | None => None
    end
  else None.

(** [<w:p\b], then up to the first [>], anchored. *)
Definition match_pOpen (s : jsstring) : option (jsstring * jsstring) :=
  if tag_at tag_p s then
    match until_literal gt (skipn 4 s) with
    | Some (attr, rest) => Some (tag_p ++ attr ++ gt, rest)
    | None => None
    end
  else None.

Definition contains (needle s : jsstring) : bool :=
  match until_literal needle s with
  | Some _ => true
  | None => false
  end.

Definition replaceParagraphTextInXml (paragraphXml nextTextRaw : jsstring) : jsstring :=
  let nextText := encodeXmlText nextTextRaw in
  match matchAll match_tRe paragraphXml with
  | [] =>
      let hasPPr :=
        match exec_from match_pPr paragraphXml with
        | Some _ => true
        | None => false
        end in
      let insertAfter := if hasPPr then match_pPr else match_pOpen in
      let run :=
        js "<w:r><w:t" ++ preserve_attr ++ gt ++ nextText ++ js "</w:t></w:r>" in
      replace_group insertAfter paragraphXml (js "$1" ++ run)
  | (first0, firstAttr) :: others =>
      let firstTag :=
        if contains xml_space_eq firstAttr
        then tag_t ++ firstAttr ++ gt
        else tag_t ++ firstAttr ++ preserve_attr ++ gt in
      let out := replace_string paragraphXml first0 (firstTag ++ nextText ++ close_t) in
      fold_left
        (fun out m => replace_string out (fst m) (tag_t ++ snd m ++ gt ++ close_t))
        others out
  end.

Definition part_xml (part : DocumentXmlParts) : jsstring :=
  match part with
  | PChunk x => x
  | PParagraph p => xml p
  end.

(** The callback of [parts.map] in [patchDocxParagraphs]. *)
Definition patchPart (replacements : gmap jsstring jsstring)
    (part : DocumentXmlParts) : DocumentXmlParts :=
  match part with
  | PChunk _ => part
  | PParagraph p =>
      match replacements !! id p with
      | None => part
      | Some nextText =>
          PParagraph {| id := id p; index := index p; kind := kind p;
                        text := text p;
                        xml := replaceParagraphTextInXml (xml p) nextText |}
      end
  end.

(** From [documentXml] to [nextDocumentXml]. *)
Definition patchDocumentXml (documentXml : jsstring)
    (replacements : gmap jsstring jsstring) : jsstring :=
  let parts := fst (splitDocumentXmlIntoParts documentXml) in
  let newParts := List.map (patchPart replacements) parts in
  concat (List.map part_xml newParts).

Definition document_entry : jsstring := Eval cbv in js "word/document.xml".

(** [patchDocxParagraphs] over the unpacked archive, a map from entry names
    to their text; [None] is the error thrown for a missing entry. *)
Definition patchDocxParagraphs (zip : gmap jsstring jsstring)
    (replacements : gmap jsstring jsstring) : option (gmap jsstring jsstring) :=
  match zip !! document_entry with
  | None => None
  | Some documentXml =>
      Some (<[document_entry := patchDocumentXml documentXml replacements]> zip)
  end.

(* ================================================================= *)
(** ** JavaScript numbers *)

(** A non-negative integer below [2^63] as a double, rounded to nearest as
    JavaScript does; lengths and counts are below [2^53] and convert
    without rounding. *)
Definition float_of_Z (z : Z) : float := of_uint63 (Uint63.of_Z z).

Definition sign_bit (x : float) : bool :=
  match Prim2SF x with
  | S754_zero s | S754_infinity s | S754_finite s _ _ => s
  | S754_nan => false
  end.

(** [Math.max] and [Math.min] of two numbers: [NaN] if either is, and
    [-0] below [+0]. *)
Definition Math_max (a b : float) : float :=
  if PrimFloat.is_nan a || PrimFloat.is_nan b then nan
  else if (a <? b)%float then b
  else if (b <? a)%float then a
  else if sign_bit a then b else a.

Definition Math_min (a b : float) : float :=
  if PrimFloat.is_nan a || PrimFloat.is_nan b then nan
  else if (a <? b)%float then a
  else if (b <? a)%float then b
  else if sign_bit a then a else b.

(** [Math.round]: the integer nearest to [x], a tie going up; [NaN], the
    infinities, the zeros and the integers are returned as they are, and a
    negative [x] that rounds to zero gives [-0].  A finite double is
    [m * 2^e]; with [e < 0] it is below [2^52] in magnitude. *)
Definition Math_round (x : float) : float :=
  match Prim2SF x with
  | S754_finite s m e =>
      if 0 <=? e then x
      else
        let num := if s then Z.neg m else Z.pos m in
        let den := 2 ^ (- e) in
        let z := (2 * num + den) / (2 * den) in
        if z =? 0 then (if s then neg_zero else zero)
        else if z <? 0 then (- float_of_Z (- z))%float
        else float_of_Z z
  | _ => x
  end.

(* ================================================================= *)
(** ** src/analysis/textUtils.ts *)

Definition crlf : jsstring := [13; 10]%N.
Definition lf : jsstring := [10]%N.

(** [replace(/[ \t]+/g, " ")]: [in_run] says that the run of blanks the
    scan is in has already given its one space. *)
Fixpoint collapse_blanks (in_run : bool) (s : jsstring) : jsstring :=
  match s with
  | [] => []
  | c :: s' =>
      if (N.eqb c 32 || N.eqb c 9) then
        if in_run then collapse_blanks true s'
        else 32%N :: collapse_blanks true s'
      else c :: collapse_blanks false s'
  end.

(** [String.prototype.trim]. *)
Definition trim (s : jsstring) : jsstring := trimEnd (drop_spaces s).

Definition normalizeText (input : jsstring) : jsstring :=
  trim (collapse_blanks false (replaceAll crlf lf input)).

Definition nonempty (s : jsstring) : bool :=
  match s with
  | [] => false
  | _ => true
  end.

(** [text.split(/\s+/g).filter(Boolean)]: the maximal runs of characters
    that are not white space; [cur] is the run being read, reversed. *)
Fixpoint words_go (cur : jsstring) (s : jsstring) : list jsstring :=
  match s with
  | [] => if nonempty cur then [rev cur] else []
  | c :: s' =>
      if is_space c then
        (if nonempty cur then [rev cur] else []) ++ words_go [] s'
      else words_go (c :: cur) s'
  end.

Definition clamp (n min max : Z) : Z := Z.min max (Z.max min n).

(** The same [clamp], at a number that is not known to be an integer. *)
Definition clamp_float (n min max : float) : float :=
  Math_min max (Math_max min n).

(* ================================================================= *)
(** ** src/report/schema.ts *)

Inductive RiskLevel := low | medium | high.

Inductive CategoryId :=
| languageStats | styleHabits | logicCoherence | verifiability
| structureFormat | aiPattern | cognitiveFeatures.

(** [title], [evidence] and [suggestion] are display text made from the same
    features; no score reads them and they are left out. *)
Record FindingSignal := {
  signalId : string;
  category : CategoryId;
  score : Z
}.

Module report.
Record ParagraphReport := {
  paragraphId : jsstring;
  index : nat;
  kind : DocxParagraphKind;
  text : jsstring;
  riskScore : Z;
  riskLevel : RiskLevel;
  signals : list FindingSignal
}.

Record DocumentReport := {
  generatedAt : Z;
  overallRiskScore : float;
  overallRiskLevel : RiskLevel;
  paragraphReports : list ParagraphReport;
  limitations : list string
}.
End report.

#[global] Instance CategoryId_eq_dec : EqDecision CategoryId.
Proof. solve_decision. Defined.

Definition category_code (c : CategoryId) : nat :=
  match c with
  | languageStats => 0 | styleHabits => 1 | logicCoherence => 2
  | verifiability => 3 | structureFormat => 4 | aiPattern => 5
  | cognitiveFeatures => 6
  end%nat.

Definition category_of_code (n : nat) : CategoryId :=
  match n with
  | 0 => languageStats | 1 => styleHabits | 2 => logicCoherence
  | 3 => verifiability | 4 => structureFormat | 5 => aiPattern
  | _ => cognitiveFeatures
  end%nat.

#[global] Instance CategoryId_countable : Countable CategoryId.
Proof.
  apply (inj_countable' category_code category_of_code). by intros [].
Defined.

(* ================================================================= *)
(** ** src/analysis/features.ts, as far as the detector reads it *)

(** The fields of [ParagraphFeatures] that a rule tests.  Counts are
    integers; ratios, the variance, the density and the entropy are doubles. *)
Record ParagraphFeatures := {
  charCount : Z;
  sentenceCount : Z;
  sentenceLenVariance : float;
  tokenCount : Z;
  tokenUniqueRatio : float;
  bigramRepeatRatio : float;
  trigramRepeatRatio : float;
  templatePhraseCount : Z;
  connectiveCount : Z;
  strongClaimCount : Z;
  abstractNounCount : Z;
  pronounCount : Z;
  hasCitationMarker : bool;
  citationMarkerCount : Z;
  aiOpeningMatch : bool;
  symmetricMatch : bool;
  hollowConclusionMatch : bool;
  cognitiveMarkerDensity : float;
  sentenceLenEntropy : float;
  connectiveAtHeadRatio : float;
  internalStructureShifts : Z
}.

(* ================================================================= *)
(** ** src/analysis/detector.ts *)

Definition riskLevel (score : Z) : RiskLevel :=
  if 70 <=? score then high
  else if 35 <=? score then medium
  else low.

(** The same [riskLevel], at the document score, which is a double. *)
Definition riskLevel_float (score : float) : RiskLevel :=
  if (70 <=? score)%float then high
  else if (35 <=? score)%float then medium
  else low.

Definition jaccard (a b : gset jsstring) : float :=
  if (size a =? 0)%nat || (size b =? 0)%nat then 0%float
  else
    let inter := size (filter (fun x => x ∈ b) a) in
    let union := Z.of_nat (size a) + Z.of_nat (size b) - Z.of_nat inter in
    if union =? 0 then 0%float
    else (float_of_Z (Z.of_nat inter) / float_of_Z union)%float.

Definition synergyBonus (signals : list FindingSignal) : Z :=
  let n := Z.of_nat (length signals) in
  let categories : gset CategoryId := list_to_set (List.map category signals) in
  let bonus :=
    if 5 <=? n then 25
    else if 4 <=? n then 18
    else if 3 <=? n then 10
    else 0 in
  if 3 <=? Z.of_nat (size categories) then bonus + 8 else bonus.

(** The connective words of [detectStructuralIsomorphism] (shou xian, qi ci,
    zai ci, zui hou, ci wai, tong shi, ling wai), as code units. *)
Definition connSet : list jsstring :=
  [ [39318; 20808]; [20854; 27425]; [20877; 27425]; [26368; 21518];
    [27492; 22806]; [21516; 26102]; [21478; 22806] ]%N.

Definition connCount (text : jsstring) : nat :=
  length (List.filter (fun w => contains w text) connSet).

(** One window [i, i+1, i+2] of [detectStructuralIsomorphism]. *)
Definition window_isomorphic (a b c : jsstring) : bool :=
  let prefix2 := fun t : jsstring => firstn 2 (firstn 4 (trim t)) in
  if bool_decide (prefix2 a = prefix2 b) && bool_decide (prefix2 b = prefix2 c)
     && (2 <=? length (prefix2 a))%nat
  then true
  else (2 <=? connCount a)%nat && (2 <=? connCount b)%nat && (2 <=? connCount c)%nat.

Fixpoint isomorphism_windows (paragraphs : list (jsstring * nat))
    (isomorphicIndices : gset nat) : gset nat :=
  match paragraphs with
  | a :: ((b :: c :: _) as rest) =>
      isomorphism_windows rest
        (if window_isomorphic (fst a) (fst b) (fst c)
         then {[snd a]} ∪ ({[snd b]} ∪ ({[snd c]} ∪ isomorphicIndices))
         else isomorphicIndices)
  | _ => isomorphicIndices
  end.

Definition detectStructuralIsomorphism (paragraphs : list (jsstring * nat)) : gset nat :=
  isomorphism_windows paragraphs ∅.

Definition signal (sid : string) (cat : CategoryId) (pts : Z) : FindingSignal :=
  {| signalId := sid; category := cat; score := pts |}.

(** [if (cond) signals.push(s)]. *)
Definition when (cond : bool) (s : FindingSignal) : list FindingSignal :=
  if cond then [s] else [].

(** The test of the list-like rule: one of four ordinal words, then a
    full-width comma, a comma or an enumeration comma, at the start. *)
Definition ordinalWords : list jsstring :=
  [ [39318; 20808]; [20854; 27425]; [20877; 27425]; [26368; 21518] ]%N.

Definition list_like_opening (t : jsstring) : bool :=
  existsb (fun w => starts_with w t &&
                    match skipn 2 t with
                    | c :: _ => N.eqb c 65292 || N.eqb c 44 || N.eqb c 12289
                    | [] => false
                    end)
          ordinalWords.

(** The aggregation loop and the final expression of [detectAigcRisk].
    [totalCharCount] only ever holds an integer and is kept as one; it
    enters the division as a double. *)
Definition aiCharCount_step (aiCharCount : float) (r : report.ParagraphReport) : float :=
  let charLen := Z.of_nat (length (report.text r)) in
  if 35 <=? report.riskScore r
  then (aiCharCount + float_of_Z charLen * (float_of_Z (report.riskScore r) / 100))%float
  else aiCharCount.

Definition aiCharCount_of (paragraphReports : list report.ParagraphReport) : float :=
  fold_left aiCharCount_step paragraphReports 0%float.

Definition totalCharCount_of (paragraphReports : list report.ParagraphReport) : Z :=
  fold_left (fun total r => total + Z.of_nat (length (report.text r))) paragraphReports 0.

Definition overallRiskScore_of (paragraphReports : list report.ParagraphReport) : float :=
  let aiCharCount := aiCharCount_of paragraphReports in
  let totalCharCount := float_of_Z (totalCharCount_of paragraphReports) in
  if (0 <? totalCharCount)%float
  then clamp_float (Math_round ((aiCharCount / totalCharCount) * 100)%float) 0 100
  else 0%float.

Definition limitations_text : list string :=
  [ "该检测是「风险提示」而非定性证据：高分不等于一定使用了AI，低分也不等于一定未使用AI。";
    "模板化学术写作、反复润色、母语非中文写作等场景可能导致误报；深度人工改写也可能导致漏报。";
    "本工具不会联网核验事实与引用真伪；请对关键结论、数据与引用来源做人工复核。" ]%string.

Section Detector.

(** [nodejieba.cut(text, true)], an external segmenter; [None] when it
    throws. *)
Variable nodejieba_cut : jsstring -> option (list jsstring).

(** [extractFeatures] of the feature layer: a function of the text. *)
Variable extractFeatures : jsstring -> ParagraphFeatures.

Definition tokenizeZh (input : jsstring) : list jsstring :=
  let text := normalizeText input in
  if nonempty text then
    match nodejieba_cut text with
    | Some tokens => List.filter nonempty (List.map trim tokens)
    | None => words_go [] text
    end
  else [].

Definition paragraphTokens (p : DocxParagraph) : gset jsstring :=
  list_to_set (List.filter (fun t => (1 <? length t)%nat) (tokenizeZh (text p))).

(** [minSim] of the paragraph at position [i]. *)
Definition minSim (perParaTokens : list (gset jsstring)) (i : nat) : float :=
  let prev := if (0 <? i)%nat then perParaTokens !! (i - 1)%nat else None in
  let next := perParaTokens !! (i + 1)%nat in
  let cur := default ∅ (perParaTokens !! i) in
  let simPrev := match prev with Some s => jaccard s cur | None => 1%float end in
  let simNext := match next with Some s => jaccard cur s | None => 1%float end in
  Math_min simPrev simNext.

(** The signals of one paragraph, in the order in which the rules push
    them. *)
Definition paragraphSignals (perParaTokens : list (gset jsstring))
    (isomorphicSet : gset nat) (i : nat) (p : DocxParagraph) : list FindingSignal :=
  let f := extractFeatures (text p) in
  let connPer100 :=
    if charCount f =? 0 then 0%float
    else (float_of_Z (connectiveCount f) / float_of_Z (charCount f) * 100)%float in
  let claimRatio :=
    if 0 <? sentenceCount f
    then (float_of_Z (strongClaimCount f) / float_of_Z (sentenceCount f))%float
    else 0%float in
  when ((2 <=? sentenceCount f) && (sentenceLenVariance f <? 35)%float
        && (60 <=? charCount f))
       (signal "lang_uniform_sentence" languageStats 15)
  ++ when ((0.06 <? bigramRepeatRatio f)%float || (0.03 <? trigramRepeatRatio f)%float)
       (signal "lang_ngram_repeat" languageStats 16)
  ++ when ((15 <=? tokenCount f) && (tokenUniqueRatio f <? 0.55)%float)
       (signal "lang_low_diversity" languageStats 12)
  ++ when (1 <=? templatePhraseCount f)
       (signal "style_template_phrases" styleHabits 18)
  ++ when ((2 <=? connectiveCount f) && (0.8 <=? connPer100)%float)
       (signal "style_connectives_dense" styleHabits 14)
  ++ when ((2 <=? abstractNounCount f) && (40 <=? charCount f))
       (signal "style_abstract_dense" styleHabits 12)
  ++ when ((3 <=? pronounCount f) && (40 <=? charCount f))
       (signal "logic_pronoun_dense" logicCoherence 10)
  ++ when ((50 <=? charCount f) && (minSim perParaTokens i <? 0.08)%float)
       (signal "logic_topic_shift" logicCoherence 12)
  ++ (if (0.3 <? claimRatio)%float && (citationMarkerCount f <=? 1)
      then [signal "veri_strong_claim_no_cite" verifiability 18]
      else when ((1 <=? strongClaimCount f) && negb (hasCitationMarker f))
             (signal "veri_claim_no_cite_weak" verifiability 12))
  ++ when ((3 <=? strongClaimCount f) && (citationMarkerCount f <=? 1))
       (signal "veri_cite_imbalance" verifiability 16)
  ++ when (list_like_opening (trim (text p)) && (2 <=? connectiveCount f))
       (signal "struct_list_like" structureFormat 12)
  ++ when (aiOpeningMatch f)
       (signal "ai_opening_pattern" aiPattern 14)
  ++ when (symmetricMatch f)
       (signal "ai_symmetric_structure" aiPattern 10)
  ++ when (hollowConclusionMatch f)
       (signal "ai_hollow_conclusion" aiPattern 12)
  ++ when ((200 <=? charCount f) && (sentenceLenVariance f <? 40)%float
           && (tokenUniqueRatio f <? 0.50)%float)
       (signal "ai_long_homogeneous" aiPattern 10)
  ++ when ((80 <=? charCount f) && (cognitiveMarkerDensity f <? 1.5)%float)
       (signal "cog_low_density" cognitiveFeatures 14)
  ++ when ((3 <=? sentenceCount f) && (sentenceLenEntropy f <? 2.2)%float)
       (signal "cog_low_entropy" cognitiveFeatures 12)
  ++ when ((2 <=? connectiveCount f) && (0.9 <=? connectiveAtHeadRatio f)%float)
       (signal "cog_connective_head_only" cognitiveFeatures 10)
  ++ when ((4 <=? sentenceCount f) && (internalStructureShifts f =? 0))
       (signal "cog_flat_structure" cognitiveFeatures 10)
  ++ when (bool_decide (index p ∈ isomorphicSet))
       (signal "ai_structural_isomorphism" aiPattern 12).

(** The score of a paragraph from its signals. *)
Definition paragraphRiskScore (signals : list FindingSignal) : Z :=
  let baseScore := fold_left (fun a s => a + score s) signals 0 in
  let bonus := synergyBonus signals in
  clamp (baseScore + bonus) 0 100.

Definition paragraphReport (perParaTokens : list (gset jsstring))
    (isomorphicSet : gset nat) (i : nat) (p : DocxParagraph) : report.ParagraphReport :=
  let signals := paragraphSignals perParaTokens isomorphicSet i p in
  let riskScore := paragraphRiskScore signals in
  {| report.paragraphId := id p;
     report.index := index p;
     report.kind := kind p;
     report.text := text p;
     report.riskScore := riskScore;
     report.riskLevel := riskLevel riskScore;
     report.signals := signals |}.

(** [detectAigcRisk]; [now] is what [Date.now()] returns during the call. *)
Definition detectAigcRisk (now : Z) (paragraphs : list DocxParagraph)
  : report.DocumentReport :=
  let perParaTokens := List.map paragraphTokens paragraphs in
  let isomorphicSet :=
    detectStructuralIsomorphism (List.map (fun p => (text p, index p)) paragraphs) in
  let paragraphReports := imap (paragraphReport perParaTokens isomorphicSet) paragraphs in
  let overallRiskScore := overallRiskScore_of paragraphReports in
  {| report.generatedAt := now;
     report.overallRiskScore := overallRiskScore;
     report.overallRiskLevel := riskLevel_float overallRiskScore;
     report.paragraphReports := paragraphReports;
     report.limitations := limitations_text |}.

End Detector.

(* ================================================================= *)
(** ** The contracts, in the words of the specification *)

(** *** Escaping *)

(** What [encodeXmlText] makes of one character once all five passes are
    done, and after only the passes for the characters in [escaped]. *)
Definition entity_of (c : N) : jsstring :=
  if N.eqb c 38 then amp_entity
  else if N.eqb c 60 then lt_entity
  else if N.eqb c 62 then gt_entity
  else if N.eqb c 34 then quot_entity
  else if N.eqb c 39 then apos_entity
  else [c].

Definition rendered (escaped : list N) (c : N) : jsstring :=
  if existsb (N.eqb c) escaped then entity_of c else [c].

(** A pass for [pat] leaves [piece] alone whatever follows it. *)
Definition passes (pat rep piece : jsstring) : Prop :=
  forall rest, replaceAll pat rep (piece ++ rest) = piece ++ replaceAll pat rep rest.

(** *** Scanning *)

(** A pattern consumes: what follows a match is shorter than the text. *)
Definition consumes {A} (m : jsstring -> option (A * jsstring)) : Prop :=
  forall s a rest, m s = Some (a, rest) -> (length rest < length s)%nat.

(** *** Reassembly *)

(** The [join] of [patchDocxParagraphs]. *)
Definition join (parts : list DocumentXmlParts) : jsstring :=
  concat (List.map part_xml parts).

(** A part that the replacement map does not name. *)
Definition untouched (replacements : gmap jsstring jsstring)
    (part : DocumentXmlParts) : Prop :=
  match part with
  | PChunk _ => True
  | PParagraph p => replacements !! id p = None
  end.

(** *** The table-cell counter *)

Definition opens (fragment : jsstring) : Z :=
  Z.of_nat (length (matchAll match_openRe fragment)).

Definition closes (fragment : jsstring) : Z :=
  Z.of_nat (length (matchAll match_closeRe fragment)).

(** The counter after one fragment (an in-between chunk or a block): the
    open tags of the fragment are counted first, its close tags after them,
    and the result is not below zero. *)
Definition fragment_depth (fragment : jsstring) (tcDepth : Z) : Z :=
  Z.max 0 (tcDepth + opens fragment - closes fragment).

(** The counter at the start of each part. *)
Fixpoint depths (parts : list DocumentXmlParts) (tcDepth : Z) : list Z :=
  match parts with
  | [] => []
  | part :: parts' => tcDepth :: depths parts' (fragment_depth (part_xml part) tcDepth)
  end.

Definition classified (part : DocumentXmlParts) (tcDepth : Z) : Prop :=
  match part with
  | PChunk _ => True
  | PParagraph p =>
      (kind p = tableCellParagraph <-> 0 < tcDepth) /\
      (kind p = paragraph <-> tcDepth <= 0)
  end.

(** The counter of the claim: one pass over the text, every open tag and
    every close tag taken where it stands. *)
Fixpoint documentOrderDepth (s : jsstring) (tcDepth : Z) : Z :=
  match s with
  | [] => tcDepth
  | _ :: s' =>
      if tag_at tag_tc s then documentOrderDepth s' (tcDepth + 1)
      else if starts_with close_tc s then documentOrderDepth s' (Z.max 0 (tcDepth - 1))
      else documentOrderDepth s' tcDepth
  end.

Definition classified_in_document_order (documentXml : jsstring) : Prop :=
  forall before p after,
    fst (splitDocumentXmlIntoParts documentXml) = before ++ PParagraph p :: after ->
    (kind p = tableCellParagraph <-> 0 < documentOrderDepth (join before) 0).

(** *** The paragraph score *)

Definition sum_scores (signals : list FindingSignal) : Z :=
  foldr (fun s a => score s + a) 0 signals.

Definition categories_of (signals : list FindingSignal) : gset CategoryId :=
  list_to_set (List.map category signals).

Definition countBonus (n : nat) : Z :=
  if (5 <=? n)%nat then 25
  else if (4 <=? n)%nat then 18
  else if (3 <=? n)%nat then 10
  else 0.

Definition spans_three_categories (signals : list FindingSignal) : Prop :=
  exists s1 s2 s3,
    s1 ∈ signals /\ s2 ∈ signals /\ s3 ∈ signals /\
    category s1 <> category s2 /\ category s1 <> category s3 /\
    category s2 <> category s3.

Definition tier (score : Z) : RiskLevel :=
  if score <? 35 then low
  else if score <? 70 then medium
  else high.

Definition score_in_range (r : report.ParagraphReport) : Prop :=
  0 <= report.riskScore r <= 100.

(** *** The document score *)

Definition charLen (r : report.ParagraphReport) : Z :=
  Z.of_nat (length (report.text r)).

Definition counted (r : report.ParagraphReport) : bool :=
  35 <=? report.riskScore r.

(** The contract read over the rationals: the weighted sum, the factor 100
    and the quotient are exact. *)
Definition exactQuotient (reports : list report.ParagraphReport) : Q :=
  let total := foldr (fun r a => charLen r + a) 0 reports in
  let weighted :=
    foldr (fun r a => Qplus (Qmult (inject_Z (charLen r))
                                   (Qdiv (inject_Z (report.riskScore r)) (inject_Z 100))) a)
          (inject_Z 0) (List.filter counted reports) in
  Qdiv (Qmult (inject_Z 100) weighted) (inject_Z total).

(** The exact quotient rounded to the nearest integer, a tie going up as in
    [Math.round], and clamped. *)
Definition overallRiskScore_exact (reports : list report.ParagraphReport) : Z :=
  if foldr (fun r a => charLen r + a) 0 reports =? 0 then 0
  else clamp (Qfloor (Qplus (exactQuotient reports) (Qmake 1 2))) 0 100.

(** The same sum in doubles, added from left to right. *)
Definition weighted_sum_double (reports : list report.ParagraphReport) : float :=
  fold_left (fun a r => (a + float_of_Z (charLen r)
                             * (float_of_Z (report.riskScore r) / 100))%float)
            (List.filter counted reports) 0%float.

(** *** Doubles that are not negative *)

Definition nonneg_sf (x : spec_float) : bool :=
  match x with
  | S754_zero false | S754_infinity false | S754_finite false _ _ => true
  | _ => false
  end.

Definition finite_nonneg_sf (x : spec_float) : bool :=
  match x with
  | S754_zero false | S754_finite false _ _ => true
  | _ => false
  end.

Definition pos_finite_sf (x : spec_float) : bool :=
  match x with
  | S754_finite false _ _ => true
  | _ => false
  end.

Definition nonneg (x : float) : Prop := nonneg_sf (Prim2SF x) = true.

(** *** Detection *)

(** The four fields of a block that [detectAigcRisk] is given. *)
Definition block_fields (p : DocxParagraph) :=
  (id p, index p, kind p, text p).

Definition topic_shift : FindingSignal :=
  signal "logic_topic_shift" logicCoherence 12.

(** *** Inputs of the examples *)

(** A feature layer that reports the length of the text and nothing else. *)
Definition length_features (t : jsstring) : ParagraphFeatures :=
  {| charCount := Z.of_nat (length t); sentenceCount := 0;
     sentenceLenVariance := 0; tokenCount := 0; tokenUniqueRatio := 1;
     bigramRepeatRatio := 0; trigramRepeatRatio := 0;
     templatePhraseCount := 0; connectiveCount := 0; strongClaimCount := 0;
     abstractNounCount := 0; pronounCount := 0; hasCitationMarker := false;
     citationMarkerCount := 0; aiOpeningMatch := false; symmetricMatch := false;
     hollowConclusionMatch := false; cognitiveMarkerDensity := 5;
     sentenceLenEntropy := 3; connectiveAtHeadRatio := 0;
     internalStructureShifts := 1 |}.

(** A segmenter that always throws, so that [tokenizeZh] falls back. *)
Definition failing_cut (t : jsstring) : option (list jsstring) := None.

Definition block (i : nat) (t : jsstring) : DocxParagraph :=
  {| id := paragraph_id i; index := i; kind := paragraph; text := t; xml := [] |}.

(** An empty block, a block of 56 characters and a block of white space. *)
Definition lonely_blocks : list DocxParagraph :=
  [block 0 []; block 1 (repeat 97%N 50 ++ js " bb cc"); block 2 (js "  ")].

Definition scored (n : nat) (s : Z) : report.ParagraphReport :=
  {| report.paragraphId := []; report.index := 0%nat; report.kind := paragraph;
     report.text := repeat 97%N n; report.riskScore := s;
     report.riskLevel := riskLevel s; report.signals := [] |}.

(** The signals of the scenario of the specification: uniform sentences, a
    template phrase and an unsupported claim. *)
Definition three_signals : list FindingSignal :=
  [signal "lang_uniform_sentence" languageStats 15;
   signal "style_template_phrases" styleHabits 18;
   signal "veri_claim_no_cite_weak" verifiability 12].

(** Two blocks of 60 characters, one scored 71 and one scored 0. *)
Definition tie_reports : list report.ParagraphReport := [scored 60 71; scored 60 0].

(** A close tag before an open tag, then a block. *)
Definition close_then_open : jsstring := Eval cbv in js "</w:tc><w:tc><w:p>x</w:p>".

(** Two blocks; the leaf of the first has an attribute whose value holds
    the two replacement patterns for the text after and before the match. *)
Definition dollar_document : jsstring :=
  Eval cbv in
    js "<w:p><w:r><w:t a=" ++ quot ++ js "$'$`" ++ quot ++ js ">a</w:t></w:r></w:p>"
    ++ js "<w:p><w:r><w:t>b</w:t></w:r></w:p>".

Definition dollar_replacements : gmap jsstring jsstring :=
  {[ paragraph_id 0 := js "new" ]}.

Definition id_and_text (p : DocxParagraph) : jsstring * jsstring := (id p, text p).

(* ================================================================= *)
(** ** Further properties of the code: their vocabulary *)
(** The characters that end or open markup, or an attribute value. *)
Definition markup (c : N) : bool :=
  (N.eqb c 60 || N.eqb c 62 || N.eqb c 34 || N.eqb c 39)%N.

(** What a part is, by its tag. *)
Definition fragment_shape (part : DocumentXmlParts) : Prop :=
  match part with
  | PChunk x => x <> [] /\ exec_from match_paragraphRe x = None
  | PParagraph p =>
      tag_at tag_p (xml p) = true /\
      (exists body, xml p = tag_p ++ body ++ close_p) /\
      (forall pre post, xml p = pre ++ close_p ++ post -> post = [])
  end.

(** [pat] occurs in [s]. *)
Definition occurs (pat s : jsstring) : Prop := exists pre post, s = pre ++ pat ++ post.

(** A table cell with one paragraph. *)
Definition cell_document : jsstring :=
  Eval cbv in js "<w:tc><w:p><w:r><w:t>x</w:t></w:r></w:p></w:tc>".

Definition cell_paragraph : DocxParagraph :=
  {| id := js "p-0"; index := 0; kind := tableCellParagraph; text := js "x";
     xml := js "<w:p><w:r><w:t>x</w:t></w:r></w:p>" |}.

(** A text leaf, as [tRe] and [tokenRe] read it. *)
Definition leaf (attr content : jsstring) : jsstring :=
  tag_t ++ attr ++ gt ++ content ++ close_t.

(** A leaf and the markup that follows it, up to the next leaf. *)
Record leaf_run := {
  leaf_attr : jsstring;
  leaf_content : jsstring;
  leaf_gap : jsstring
}.

Definition run_xml (r : leaf_run) : jsstring :=
  leaf (leaf_attr r) (leaf_content r) ++ leaf_gap r.

Definition runs_xml (runs : list leaf_run) : jsstring := flat_map run_xml runs.

(** A place where a token of [tokenRe] may start. *)
Definition token_start (s : jsstring) : bool :=
  tag_at tag_t s || tag_at tag_tab s || tag_at tag_br s || tag_at tag_cr s.

(** Markup in which no token starts. *)
Fixpoint quiet (b : jsstring) : bool :=
  match b with
  | [] => true
  | _ :: b' => negb (token_start b) && quiet b'
  end.

(** [c] does not occur in [s]. *)
Definition lacks (c : N) (s : jsstring) : bool := forallb (fun d => negb (N.eqb d c)) s.

(** Attributes without [<], [>] or [$], starting at a word boundary. *)
Definition plain_attr (a : jsstring) : bool :=
  lacks 60 a && lacks 62 a && lacks 36 a &&
  match a with
  | [] => true
  | c :: _ => negb (is_word c)
  end.

(** A run that well-formed markup gives: nothing opens a tag inside the
    leaf, and no token starts in the markup after it. *)
Definition plain_run (r : leaf_run) : bool :=
  plain_attr (leaf_attr r) && lacks 60 (leaf_content r) && quiet (leaf_gap r).

(** A text that is empty or starts with [<]. *)
Definition opens_tag (u : jsstring) : Prop := u = [] \/ exists u', u = 60%N :: u'.


(** The runs after [str.replace(leaf a c, leaf a' c')]: the first run whose
    leaf is [leaf a c] gets the new leaf. *)
Fixpoint subst_first (a c a' c' : jsstring) (runs : list leaf_run) : list leaf_run :=
  match runs with
  | [] => []
  | r :: rs =>
      if bool_decide (leaf_attr r = a /\ leaf_content r = c)
      then {| leaf_attr := a'; leaf_content := c'; leaf_gap := leaf_gap r |} :: rs
      else r :: subst_first a c a' c' rs
  end.

(** The attributes of the first leaf after the write-back. *)
Definition first_attr (a : jsstring) : jsstring :=
  if contains xml_space_eq a then a else a ++ preserve_attr.

(** The runs after the write-back of [nextText]: the first leaf gets the
    text, then every other leaf, in order, is looked up by its own text and
    the first leaf found is emptied. *)
Definition patched_runs (nextText : jsstring) (runs : list leaf_run) : list leaf_run :=
  match runs with
  | [] => []
  | r1 :: others =>
      fold_left
        (fun acc r => subst_first (leaf_attr r) (leaf_content r) (leaf_attr r) [] acc)
        others
        (subst_first (leaf_attr r1) (leaf_content r1)
                     (first_attr (leaf_attr r1)) nextText runs)
  end.

(** Runs of which one holds [E] and the others hold nothing. *)
Definition blank (runs : list leaf_run) : Prop :=
  Forall (fun r => leaf_content r = []) runs.

Definition holder (E : jsstring) (runs : list leaf_run) : Prop :=
  exists D1 r D2, runs = D1 ++ r :: D2 /\ leaf_content r = E /\ blank D1 /\ blank D2.

(** A paragraph of two runs, the first in bold, and a paragraph that holds
    its properties only. *)
Definition sample_lead : jsstring :=
  Eval cbv in
    js "<w:p><w:pPr><w:jc w:val=" ++ quot ++ js "left" ++ quot
    ++ js "/></w:pPr><w:r><w:rPr><w:b/></w:rPr>".

Definition sample_runs : list leaf_run :=
  [ {| leaf_attr := []; leaf_content := js "Hello, ";
       leaf_gap := js "</w:r><w:r>" |};
    {| leaf_attr := preserve_attr; leaf_content := js "w&amp;rld ";
       leaf_gap := js "</w:r></w:p>" |} ].

Definition sample_empty_paragraph : jsstring :=
  Eval cbv in js "<w:p><w:pPr><w:jc w:val=" ++ quot ++ js "left" ++ quot
              ++ js "/></w:pPr></w:p>".

(** *** Reports *)

(** Every signal that a rule can push, in the order of the rules; of the two
    signals on unsupported claims a block gets at most the one that
    [strong] selects. *)
Definition rule_signals (strong : bool) : list FindingSignal :=
  [ signal "lang_uniform_sentence" languageStats 15;
    signal "lang_ngram_repeat" languageStats 16;
    signal "lang_low_diversity" languageStats 12;
    signal "style_template_phrases" styleHabits 18;
    signal "style_connectives_dense" styleHabits 14;
    signal "style_abstract_dense" styleHabits 12;
    signal "logic_pronoun_dense" logicCoherence 10;
    signal "logic_topic_shift" logicCoherence 12;
    (if strong then signal "veri_strong_claim_no_cite" verifiability 18
     else signal "veri_claim_no_cite_weak" verifiability 12);
    signal "veri_cite_imbalance" verifiability 16;
    signal "struct_list_like" structureFormat 12;
    signal "ai_opening_pattern" aiPattern 14;
    signal "ai_symmetric_structure" aiPattern 10;
    signal "ai_hollow_conclusion" aiPattern 12;
    signal "ai_long_homogeneous" aiPattern 10;
    signal "cog_low_density" cognitiveFeatures 14;
    signal "cog_low_entropy" cognitiveFeatures 12;
    signal "cog_connective_head_only" cognitiveFeatures 10;
    signal "cog_flat_structure" cognitiveFeatures 10;
    signal "ai_structural_isomorphism" aiPattern 12 ].

(** A report that carries the fields of its block. *)
Definition reports_block (p : DocxParagraph) (r : report.ParagraphReport) : Prop :=
  report.paragraphId r = id p /\ report.index r = index p /\
  report.kind r = kind p /\ report.text r = text p.

(** What holds of the signals of every report. *)
Definition well_formed_signals (signals : list FindingSignal) : Prop :=
  NoDup (List.map signalId signals) /\
  Forall (fun s => 10 <= score s <= 18) signals /\
  (length signals <= 20)%nat /\
  ~ (signal "veri_strong_claim_no_cite" verifiability 18 ∈ signals /\
     signal "veri_claim_no_cite_weak" verifiability 12 ∈ signals).

(** Three consecutive blocks, the first at position [i], that the test of
    [detectStructuralIsomorphism] accepts, [j] being the index of one. *)
Definition in_isomorphic_window (paragraphs : list (jsstring * nat)) (j : nat) : Prop :=
  exists i a b c,
    paragraphs !! i = Some a /\ paragraphs !! S i = Some b /\
    paragraphs !! S (S i) = Some c /\
    window_isomorphic (fst a) (fst b) (fst c) = true /\
    (j = snd a \/ j = snd b \/ j = snd c).

(** *** src/analysis/textUtils.ts, the functions that the features use *)

(** [unique]: [Array.from(new Set(arr))].  A [Set] keeps its members in the
    order in which they were first added; [seen] is the set so far. *)
Fixpoint unique_go {A} `{EqDecision A} (seen arr : list A) : list A :=
  match arr with
  | [] => []
  | x :: arr' =>
      if bool_decide (x ∈ seen) then unique_go seen arr'
      else x :: unique_go (x :: seen) arr'
  end.

Definition unique {A} `{EqDecision A} (arr : list A) : list A := unique_go [] arr.

(** [new RegExp(escapeRegExp(n), "g")] anchored.  [escapeRegExp] puts a
    backslash before every character that the pattern language reads as an
    operator, so the expression matches the needle itself, one code unit
    after the other. *)
Definition match_needle (n s : jsstring) : option (unit * jsstring) :=
  if starts_with n s then Some (tt, skipn (length n) s) else None.

(** [text.match(re)?.length], with 0 for no match. *)
Definition occurrences (n text : jsstring) : nat :=
  length (matchAll (match_needle n) text).

(** One round of the loop of [countOccurrences]. *)
Definition countOccurrences_step (text : jsstring)
    (acc : Z * list jsstring) (n : jsstring) : Z * list jsstring :=
  if nonempty n then
    let m := occurrences n text in
    if (0 <? m)%nat then (fst acc + Z.of_nat m, snd acc ++ [n]) else acc
  else acc.

(** [countOccurrences]: the pair of [count] and [hits]. *)
Definition countOccurrences (text : jsstring) (needles : list jsstring)
  : Z * list jsstring :=
  let acc := fold_left (countOccurrences_step text) needles (0, []) in
  (fst acc, unique (snd acc)).

(** A needle that [countOccurrences] counts: not empty, and found. *)
Definition hit (text n : jsstring) : bool :=
  nonempty n && (0 <? occurrences n text)%nat.

(** [Array.prototype.join] of strings. *)
Fixpoint join_strings (sep : jsstring) (xs : list jsstring) : jsstring :=
  match xs with
  | [] => []
  | x :: xs' =>
      match xs' with
      | [] => x
      | _ => x ++ sep ++ join_strings sep xs'
      end
  end.

Definition underscore : jsstring := [95%N].

(** The [grams] that the loop of [ngramRepeatRatio] collects: for every [i]
    from 0 to [tokens.length - n], the tokens [i .. i+n-1] joined by an
    underscore.  [n] is a count, 2 or 3 at the call sites. *)
Definition ngrams (tokens : list jsstring) (n : nat) : list jsstring :=
  map (fun i => join_strings underscore (firstn n (skipn i tokens)))
      (seq 0 (length tokens - n + 1)).

Definition ngramRepeatRatio (tokens : list jsstring) (n : nat) : float :=
  if (length tokens <? n + 2)%nat then 0%float
  else
    let grams := ngrams tokens n in
    let total := Z.of_nat (length grams) in
    let uniq := Z.of_nat (size (list_to_set grams : gset jsstring)) in
    if total =? 0 then 0%float
    else clamp_float (float_of_Z (total - uniq) / float_of_Z total) 0 1.

(** Five tokens whose bigrams repeat. *)
Definition sample_tokens : list jsstring :=
  [js "a"; js "b"; js "a"; js "b"; js "a"].

(** Four distinct tokens, two of them with an underscore inside. *)
Definition underscore_tokens : list jsstring :=
  [js "a_b"; js "c"; js "a"; js "b_c"].

(** *** src/llm/judge.ts and the review step of src/server/routes/api.ts *)

(** [Number.isFinite]. *)
Definition Number_isFinite (x : float) : bool :=
  match Prim2SF x with
  | S754_zero _ | S754_finite _ _ _ => true
  | _ => false
  end.

(** [normalized] in [judgeParagraphWithDashscope]; [riskScore0to100] is the
    number that [Number(json?.riskScore0to100)] makes of the answer, [NaN]
    when the answer has no such number. *)
Definition normalized (riskScore0to100 : float) : float :=
  if Number_isFinite riskScore0to100
  then Math_min 100 (Math_max 0 riskScore0to100)
  else 0%float.

(** [lvl]: the label of the answer when it is one of the three levels,
    otherwise the level of the normalised score. *)
Definition judge_level (label : option RiskLevel) (riskScore0to100 : float) : RiskLevel :=
  match label with
  | Some l => l
  | None => riskLevel_float (normalized riskScore0to100)
  end.

(** [candidatesForJudge]: [sort] is stable, so with this comparator the
    reports come by falling score, and in document order among equals. *)
Definition MAX_JUDGE : nat := 30.

Fixpoint insert_by_score (r : report.ParagraphReport)
    (sorted : list report.ParagraphReport) : list report.ParagraphReport :=
  match sorted with
  | [] => [r]
  | x :: rest =>
      if report.riskScore x <=? report.riskScore r then r :: sorted
      else x :: insert_by_score r rest
  end.

Definition sort_by_score (rs : list report.ParagraphReport) : list report.ParagraphReport :=
  foldr insert_by_score [] rs.

Definition reviewable (r : report.ParagraphReport) : bool :=
  50 <=? report.riskScore r.

Definition candidatesForJudge (paragraphReports : list report.ParagraphReport)
  : list report.ParagraphReport :=
  firstn MAX_JUDGE (sort_by_score (List.filter reviewable paragraphReports)).

(** The weighted fusion of the two scores of a reviewed paragraph, and the
    score and level that replace the ones of the rules. *)
Definition fused (riskScore : Z) (riskScore0to100 : float) : float :=
  Math_round (float_of_Z riskScore * 0.4 + riskScore0to100 * 0.6)%float.

Definition fusedRiskScore (riskScore : Z) (riskScore0to100 : float) : float :=
  Math_min 100 (Math_max 0 (fused riskScore riskScore0to100)).

Definition fusedRiskLevel (riskScore : Z) (riskScore0to100 : float) : RiskLevel :=
  riskLevel_float (fusedRiskScore riskScore riskScore0to100).

(** The integer nearest to [0.4 * s], which is never half way. *)
Definition two_fifths (s : Z) : Z := (4 * s + 5) / 10.

(** A list by falling score. *)
Fixpoint falling (l : list report.ParagraphReport) : Prop :=
  match l with
  | [] => True
  | x :: l' => Forall (fun y => report.riskScore y <= report.riskScore x) l' /\ falling l'
  end.


(** *** [splitSentences] *)

(** The class [[。！？!?；;]] of the sentence ends. *)
Definition is_terminator (c : N) : bool :=
  ((c =? 12290) || (c =? 65281) || (c =? 65311) || (c =? 33) || (c =? 63)
   || (c =? 65307) || (c =? 59))%N.

(** [text.split(/(?<=[。！？!?；;])\s*/g)].  [split] tries the separator at
    every position [q] before the end of the text: it matches where the
    character before [q] is a sentence end, and takes the white space that
    follows; the piece from the end of the last separator to [q] is pushed,
    and the rest of the text is the last piece.  A match that is empty and
    at the end of the last separator is passed over.  [cur] is the piece
    being read, reversed; [skipping] says that the scan is in the white
    space of a separator. *)
Fixpoint split_sentences_go (skipping : bool) (cur s : jsstring) : list jsstring :=
  match s with
  | [] => [rev cur]
  | c :: s' =>
      if skipping && is_space c then split_sentences_go true cur s'
      else if is_terminator c && nonempty s'
           then rev (c :: cur) :: split_sentences_go true [] s'
           else split_sentences_go false (c :: cur) s'
  end.

Definition splitSentences (input : jsstring) : list jsstring :=
  let text := normalizeText input in
  if nonempty text
  then List.filter nonempty (map trim (split_sentences_go false [] text))
  else [].

(** The characters of a text that are not white space. *)
Definition visible (s : jsstring) : jsstring :=
  List.filter (fun c => negb (is_space c)) s.

(** No sentence end before the last character. *)
Definition unbroken (s : jsstring) : bool :=
  forallb (fun c => negb (is_terminator c)) (removelast s).

Definition sample_sentences : jsstring :=
  Eval cbv in js "Is it so?  Yes; it is!".

(** A positive finite double of moderate size, as the conversion of a count
    gives. *)
Definition small_pos_sf (x : spec_float) : bool :=
  match x with
  | S754_finite false m e => (Zdigits2 (Z.pos m) <=? 70) && (-100 <=? e) && (e <=? 100)
  | _ => false
  end.

(** *** Parsing again what [patchDocxParagraphs] wrote *)

(** The text of a paragraph after [patchPart]. *)
Definition patched_xml (replacements : gmap jsstring jsstring) (p : DocxParagraph)
  : jsstring :=
  xml match patchPart replacements (PParagraph p) with
      | PParagraph q => q
      | PChunk _ => p
      end.

(** The text that the new document has for a paragraph: the text written,
    as [extractParagraphText] reads it back, or the old text. *)
Definition patched_text (replacements : gmap jsstring jsstring) (p : DocxParagraph)
  : jsstring :=
  match replacements !! id p with
  | Some nextText => trimEnd nextText
  | None => text p
  end.

(** The paragraph that parsing the new document is to give. *)
Definition reparsed_paragraph (replacements : gmap jsstring jsstring)
    (p : DocxParagraph) : DocxParagraph :=
  {| id := id p; index := index p; kind := kind p;
     text := patched_text replacements p;
     xml := patched_xml replacements p |}.

Definition reparsed (replacements : gmap jsstring jsstring)
    (part : DocumentXmlParts) : DocumentXmlParts :=
  match part with
  | PChunk x => PChunk x
  | PParagraph p => PParagraph (reparsed_paragraph replacements p)
  end.

(** A pattern whose matches do not depend on the text after them, when
    that text opens a tag. *)
Definition local_matcher {A} (m : jsstring -> option (A * jsstring)) : Prop :=
  consumes m /\
  (forall post u, post <> [] -> m post = None -> m (post ++ 60%N :: u) = None) /\
  (forall s a rest u, m s = Some (a, rest) ->
                      m (s ++ 60%N :: u) = Some (a, rest ++ 60%N :: u)).

(** A paragraph to which a text can be written back: text leaves, one at
    least, in markup as [plain_run] describes it. *)
Definition writable (paragraphXml : jsstring) : Prop :=
  exists b0 runs,
    paragraphXml = b0 ++ runs_xml runs /\ runs <> [] /\
    quiet b0 = true /\ forallb plain_run runs = true.

(** A document of a heading, a table cell and a closing paragraph, and a
    new text for the paragraph in the cell. *)
Definition sample_document : jsstring :=
  Eval cbv in
    js "<w:body><w:p><w:r><w:t>Title</w:t></w:r></w:p><w:tbl><w:tc><w:p><w:r><w:t>old </w:t></w:r><w:r><w:t>text</w:t></w:r></w:p></w:tc></w:tbl><w:p><w:r><w:t>End</w:t></w:r></w:p></w:body>".

Definition sample_replacements : gmap jsstring jsstring :=
  {[ js "p-1" := js "new & better" ]}.

(* ================================================================= *)
(** *** src/billing/fileLedger.ts *)

(** [Math.floor]: [NaN], the infinities, the zeros and the integers are
    returned as they are; a finite double [m * 2^e] with [e < 0] is below
    [2^53] in magnitude, and its floor converts without rounding. *)
Definition Math_floor (x : float) : float :=
  match Prim2SF x with
  | S754_finite s m e =>
      if 0 <=? e then x
      else
        let num := if s then Z.neg m else Z.pos m in
        let z := num / 2 ^ (- e) in
        if z =? 0 then zero
        else if z <? 0 then (- float_of_Z (- z))%float
        else float_of_Z z
  | _ => x
  end.

(** [!p] for a number [p]: true for [NaN] and the zeros. *)
Definition falsy (p : float) : bool := PrimFloat.is_nan p || PrimFloat.eqb p 0.

Module ledger.

(** [meta] is stored with a transaction and read by no function of the
    ledger; it is left out. *)
Record LedgerTx := {
  txId : jsstring;
  tx_accountId : jsstring;
  delta : float;
  reason : string;
  tx_createdAt : Z
}.

Record LedgerAccount := {
  accountId : jsstring;
  balance : float;
  createdAt : Z;
  updatedAt : Z
}.

(** [accounts] is an object used as a map from account ids to accounts.
    Read at the name of a member of [Object.prototype], an object gives the
    member it inherits; the map stands for the object at every other id. *)
Record LedgerFileState := {
  accounts : gmap jsstring LedgerAccount;
  transactions : list LedgerTx
}.

Definition Object_prototype_keys : list jsstring :=
  List.map js
    ["constructor"; "__proto__"; "hasOwnProperty"; "isPrototypeOf";
     "propertyIsEnumerable"; "toLocaleString"; "toString"; "valueOf";
     "__defineGetter__"; "__defineSetter__"; "__lookupGetter__";
     "__lookupSetter__"]%string.

Definition ordinary (id : jsstring) : Prop := id ∉ Object_prototype_keys.

Definition INSUFFICIENT_POINTS : jsstring := js "INSUFFICIENT_POINTS".

(** What a method does: it returns, or it throws an [Error] with a
    message. *)
Inductive outcome (A : Type) :=
| Returns (a : A)
| Throws (message : jsstring).
Arguments Returns {A} a.
Arguments Throws {A} message.

(** The methods of [FileLedger] over its [state].  [now] is what
    [Date.now()] gives and [uuid] what [randomUUID()] gives; every method
    returns the state it leaves. *)
Definition ensureAccount (now : Z) (id : jsstring) (initialBalance : float)
    (state : LedgerFileState) : LedgerAccount * LedgerFileState :=
  match accounts state !! id with
  | Some cur => (cur, state)
  | None =>
      let acc := {| accountId := id;
                    balance := Math_max 0 (Math_floor initialBalance);
                    createdAt := now;
                    updatedAt := now |} in
      (acc, {| accounts := <[id := acc]> (accounts state);
               transactions := transactions state |})
  end.

Definition getBalance (id : jsstring) (state : LedgerFileState) : float :=
  match accounts state !! id with
  | Some acc => balance acc
  | None => 0%float
  end.

(** [limit] is a count, 30 at the call site and 50 by default. *)
Definition listTransactions (id : jsstring) (limit : Z) (state : LedgerFileState)
  : list LedgerTx :=
  let xs := List.filter (fun t => bool_decide (tx_accountId t = id)) (transactions state) in
  skipn (Z.to_nat (Z.max 0 (Z.of_nat (length xs) - limit))) xs.

Definition apply (now : Z) (uuid id : jsstring) (delta : float) (reason : string)
    (state : LedgerFileState) : outcome LedgerTx * LedgerFileState :=
  match accounts state !! id with
  | None => (Throws (js "Account not found: " ++ id), state)
  | Some acc =>
      let nextBalance := (balance acc + delta)%float in
      if (nextBalance <? 0)%float then (Throws INSUFFICIENT_POINTS, state)
      else
        let acc' := {| accountId := accountId acc;
                       balance := nextBalance;
                       createdAt := createdAt acc;
                       updatedAt := now |} in
        let tx := {| txId := uuid; tx_accountId := id; delta := delta;
                     reason := reason; tx_createdAt := now |} in
        (Returns tx, {| accounts := <[id := acc']> (accounts state);
                        transactions := transactions state ++ [tx] |})
  end.

Definition topup (now : Z) (uuid id : jsstring) (points : float)
    (state : LedgerFileState) : outcome LedgerTx * LedgerFileState :=
  let p := Math_max 0 (Math_floor points) in
  if falsy p then (Throws (js "Invalid topup points"), state)
  else apply now uuid id p "TOPUP" state.

Definition charge (now : Z) (uuid id : jsstring) (points : float)
    (state : LedgerFileState) : outcome LedgerTx * LedgerFileState :=
  let p := Math_max 0 (Math_floor points) in
  if falsy p then (Throws (js "Invalid charge points"), state)
  else
    let bal := getBalance id state in
    if (bal <? p)%float then (Throws INSUFFICIENT_POINTS, state)
    else apply now uuid id (- p)%float "CHARGE" state.

Definition refund (now : Z) (uuid id : jsstring) (points : float)
    (state : LedgerFileState) : outcome LedgerTx * LedgerFileState :=
  let p := Math_max 0 (Math_floor points) in
  if falsy p then (Throws (js "Invalid refund points"), state)
  else apply now uuid id p "REFUND" state.

(** A call of one of the four methods that change the ledger, and a
    sequence of calls; an error thrown is caught by the route, and the
    ledger goes on from the state it has. *)
Inductive LedgerCall :=
| EnsureAccount (now : Z) (id : jsstring) (initialBalance : float)
| Topup (now : Z) (uuid id : jsstring) (points : float)
| Charge (now : Z) (uuid id : jsstring) (points : float)
| Refund (now : Z) (uuid id : jsstring) (points : float).

Definition call_id (c : LedgerCall) : jsstring :=
  match c with
  | EnsureAccount _ id _ | Topup _ _ id _ | Charge _ _ id _ | Refund _ _ id _ => id
  end.

Definition call (c : LedgerCall) (state : LedgerFileState) : LedgerFileState :=
  match c with
  | EnsureAccount now id initialBalance => snd (ensureAccount now id initialBalance state)
  | Topup now uuid id points => snd (topup now uuid id points state)
  | Charge now uuid id points => snd (charge now uuid id points state)
  | Refund now uuid id points => snd (refund now uuid id points state)
  end.

Definition run (calls : list LedgerCall) (state : LedgerFileState) : LedgerFileState :=
  fold_left (fun s c => call c s) calls state.

(** The deltas that a list of transactions holds for an account, and a
    balance after them. *)
Definition deltas (id : jsstring) (txs : list LedgerTx) : list float :=
  List.map delta (List.filter (fun t => bool_decide (tx_accountId t = id)) txs).

Definition after_deltas (opening : float) (ds : list float) : float :=
  fold_left (fun b d => (b + d)%float) ds opening.

(** No balance is below zero. *)
Definition solvent (state : LedgerFileState) : Prop :=
  forall id acc, accounts state !! id = Some acc -> (balance acc <? 0)%float = false.

(** What calls change: the transactions they append, and for every account
    the balance after them. *)
Definition explained (state state' : LedgerFileState) : Prop :=
  exists new,
    transactions state' = transactions state ++ new /\
    forall id acc, accounts state !! id = Some acc ->
      exists acc', accounts state' !! id = Some acc' /\
                   accountId acc' = accountId acc /\
                   createdAt acc' = createdAt acc /\
                   balance acc' = after_deltas (balance acc) (deltas id new).

Definition empty : LedgerFileState := {| accounts := ∅; transactions := [] |}.

(** A new account with 5 free points, a rewrite of 2 points that fails and
    is refunded, and a charge that the balance does not cover. *)
Definition sample_calls : list LedgerCall :=
  [ EnsureAccount 1000 (js "alice") 5.5;
    Charge 1001 (js "t-1") (js "alice") 2;
    Refund 1002 (js "t-2") (js "alice") 2;
    Charge 1003 (js "t-3") (js "alice") 6 ].

End ledger.

(* ================================================================= *)
(** * Proofs *)

(** ** Scanning *)

Lemma starts_with_app pat rest : starts_with pat (pat ++ rest) = true.
Proof. induction pat as [|a pat IH]; simpl; [done|]. by rewrite N.eqb_refl, IH. Qed.

Lemma starts_with_skipn pat s :
  starts_with pat s = true -> s = pat ++ skipn (length pat) s.
Proof.
  revert s. induction pat as [|a pat IH]; intros s H; [done|].
  destruct s as [|b s]; [done|]. simpl in H.
  apply andb_true_iff in H as [E H]. apply N.eqb_eq in E as ->.
  simpl. f_equal. by apply IH.
Qed.

Lemma tag_at_skipn name s :
  tag_at name s = true -> s = name ++ skipn (length name) s.
Proof.
  unfold tag_at. intros H. apply andb_true_iff in H as [H _].
  by apply starts_with_skipn.
Qed.

Lemma until_literal_app close s body rest :
  until_literal close s = Some (body, rest) -> s = body ++ close ++ rest.
Proof.
  revert body rest. induction s as [|c s IH]; intros body rest H.
  - simpl in H. destruct (starts_with close []) eqn:E; [|done].
    injection H as <- <-. by apply starts_with_skipn.
  - cbn [until_literal] in H. destruct (starts_with close (c :: s)) eqn:E.
    + injection H as <- <-. by apply starts_with_skipn.
    + destruct (until_literal close s) as [[b r]|] eqn:U; [|done].
      injection H as <- <-. simpl. f_equal. by apply IH.
Qed.

(** ** Rounds of the matching loops *)

Lemma exec_from_shorter {A} (m : jsstring -> option (A * jsstring)) s before a rest :
  consumes m -> exec_from m s = Some (before, a, rest) -> (length rest < length s)%nat.
Proof.
  intros Hm. revert before. induction s as [|c s IH]; intros before H; [done|].
  cbn [exec_from] in H. destruct (m (c :: s)) as [[x r]|] eqn:M.
  - injection H as <- <- <-. by apply Hm in M.
  - destruct (exec_from m s) as [[[b x] r]|] eqn:E; [|done].
    injection H as <- <- <-. specialize (IH _ eq_refl). simpl. lia.
Qed.

(** [length s] rounds are enough for [matchAll]: more change nothing. *)
Lemma matchAll_go_fuel {A} (m : jsstring -> option (A * jsstring)) fuel1 fuel2 s :
  consumes m -> (length s <= fuel1)%nat -> (length s <= fuel2)%nat ->
  matchAll_go m fuel1 s = matchAll_go m fuel2 s.
Proof.
  intros Hm. revert fuel2 s.
  induction fuel1 as [|fuel1 IH]; intros fuel2 s H1 H2.
  - destruct s; [|simpl in H1; lia]. by destruct fuel2.
  - destruct fuel2 as [|fuel2].
    + destruct s; [done|simpl in H2; lia].
    + cbn [matchAll_go].
      destruct (exec_from m s) as [[[before a] rest]|] eqn:E; [|done].
      pose proof (exec_from_shorter m s before a rest Hm E).
      f_equal. apply IH; lia.
Qed.

Lemma length_skipn_lt {A} n (s : list A) :
  (0 < n)%nat -> s <> [] -> (length (skipn n s) < length s)%nat.
Proof. intros Hn Hs. rewrite length_skipn. destruct s; [done|]. simpl. lia. Qed.

Lemma until_literal_length close s body rest :
  until_literal close s = Some (body, rest) ->
  length s = (length body + length close + length rest)%nat.
Proof. intros H. apply until_literal_app in H as ->. rewrite !length_app. lia. Qed.

Lemma tag_at_length name s :
  tag_at name s = true -> length s = (length name + length (skipn (length name) s))%nat.
Proof. intros H. rewrite (tag_at_skipn _ _ H) at 1. by rewrite length_app. Qed.

Lemma match_openRe_consumes : consumes match_openRe.
Proof.
  intros s a rest. unfold match_openRe. destruct (tag_at tag_tc s) eqn:T; [|done].
  intros [= _ <-]. apply tag_at_length in T. change (length tag_tc) with 5%nat in T. lia.
Qed.

Lemma match_closeRe_consumes : consumes match_closeRe.
Proof.
  intros s a rest. unfold match_closeRe. destruct (starts_with close_tc s) eqn:T; [|done].
  intros [= _ <-]. apply starts_with_skipn in T.
  apply (f_equal length) in T. rewrite length_app in T.
  change (length close_tc) with 7%nat in T. lia.
Qed.

Lemma match_leaf_consumes s attr content rest :
  match_leaf s = Some (attr, content, rest) -> (length rest < length s)%nat.
Proof.
  unfold match_leaf. destruct (tag_at tag_t s) eqn:T; [|done].
  destruct (until_literal gt (skipn 4 s)) as [[a r]|] eqn:U1; [|done].
  destruct (until_literal close_t r) as [[c r']|] eqn:U2; [|done].
  intros [= <- <- <-]. apply tag_at_length in T. change (length tag_t) with 4%nat in T.
  apply until_literal_length in U1, U2. simpl in *. lia.
Qed.

Lemma match_empty_tag_consumes name s rest :
  name <> [] -> match_empty_tag name s = Some rest -> (length rest < length s)%nat.
Proof.
  intros Hn. unfold match_empty_tag. destruct (starts_with name s) eqn:T; [|done].
  destruct (starts_with slash_gt _) eqn:T2; [|done]. intros [= <-].
  apply starts_with_skipn in T. apply (f_equal length) in T. rewrite length_app in T.
  assert (D : forall t, (length (drop_spaces t) <= length t)%nat).
  { induction t as [|c t IH]; [done|]. simpl. destruct (is_space c); simpl; lia. }
  specialize (D (skipn (length name) s)). rewrite !length_skipn in *.
  destruct name; [done|]. simpl in *. lia.
Qed.

Lemma match_br_consumes s rest :
  match_br s = Some rest -> (length rest < length s)%nat.
Proof.
  unfold match_br. destruct (tag_at tag_br s) eqn:T; [|done].
  destruct (until_literal gt (skipn 5 s)) as [[a r]|] eqn:U; [|done].
  destruct (last a) as [c|]; [|done]. destruct (N.eqb c 47); [|done].
  intros [= <-]. apply tag_at_length in T. change (length tag_br) with 5%nat in T.
  apply until_literal_length in U. lia.
Qed.

Lemma match_tokenRe_consumes : consumes match_tokenRe.
Proof.
  intros s a rest. unfold match_tokenRe.
  destruct (match_leaf s) as [[[at' c] r]|] eqn:L.
  { intros [= _ <-]. by apply match_leaf_consumes in L. }
  destruct (match_empty_tag tag_tab s) as [r|] eqn:T1.
  { intros [= _ <-]. by apply match_empty_tag_consumes in T1. }
  destruct (match_br s) as [r|] eqn:B.
  { intros [= _ <-]. by apply match_br_consumes in B. }
  destruct (match_empty_tag tag_cr s) as [r|] eqn:T2; [|done].
  intros [= _ <-]. by apply match_empty_tag_consumes in T2.
Qed.

Lemma match_tRe_consumes : consumes match_tRe.
Proof.
  intros s a rest. unfold match_tRe.
  destruct (match_leaf s) as [[[at' c] r]|] eqn:L; [|done].
  intros [= _ <-]. by apply match_leaf_consumes in L.
Qed.

(** ** Global replacement of a literal *)

Lemma replaceAll_go_skip pat rep pre rest :
  replaceAll_go pat rep (length pre) (pre ++ rest) = replaceAll_go pat rep 0 rest.
Proof. induction pre as [|c pre IH]; simpl; [done|]. apply IH. Qed.

(** A match at the head is replaced and the scan goes on after it. *)
Lemma replaceAll_match pat rep rest :
  pat <> [] -> replaceAll pat rep (pat ++ rest) = rep ++ replaceAll pat rep rest.
Proof.
  destruct pat as [|a pat]; [done|]. intros _. unfold replaceAll.
  change ((a :: pat) ++ rest) with (a :: (pat ++ rest)).
  cbn [replaceAll_go].
  change (a :: pat ++ rest) with ((a :: pat) ++ rest).
  rewrite starts_with_app.
  replace (length (a :: pat) - 1)%nat with (length pat) by (simpl; lia).
  by rewrite replaceAll_go_skip.
Qed.

(** Without a match at the head, the head is kept. *)
Lemma replaceAll_pass pat rep c rest :
  starts_with pat (c :: rest) = false ->
  replaceAll pat rep (c :: rest) = c :: replaceAll pat rep rest.
Proof. intros H. unfold replaceAll. cbn [replaceAll_go]. by rewrite H. Qed.

Lemma replaceAll_flat_map pat rep (f f' : N -> jsstring) s :
  pat <> [] ->
  (forall c, (f c = pat /\ f' c = rep) \/ (f' c = f c /\ passes pat rep (f c))) ->
  replaceAll pat rep (flat_map f s) = flat_map f' s.
Proof.
  intros Hpat Hc. induction s as [|c s IH]; [done|]. cbn [flat_map].
  destruct (Hc c) as [[-> ->]|[-> Hp]].
  - by rewrite replaceAll_match, IH.
  - by rewrite Hp, IH.
Qed.

(** ** Escaping: the five passes, one character at a time *)

Lemma flat_map_rendered_nil s : flat_map (rendered []) s = s.
Proof. induction s as [|c s IH]; [done|]. cbn. by rewrite IH. Qed.

Ltac reserved_cases c :=
  destruct (N.eqb_spec c 38) as [->|?];
  [|destruct (N.eqb_spec c 60) as [->|?];
    [|destruct (N.eqb_spec c 62) as [->|?];
      [|destruct (N.eqb_spec c 34) as [->|?];
        [|destruct (N.eqb_spec c 39) as [->|?]]]]].

Ltac eqb_false :=
  repeat match goal with
         | H : ?c <> ?k |- _ =>
             let E := fresh in
             assert (E : N.eqb c k = false) by (by apply N.eqb_neq);
             let E' := fresh in
             assert (E' : N.eqb k c = false) by (apply N.eqb_neq; congruence);
             clear H
         end.

(** One pass turns the rendering [before] into the rendering [after]: each
    of the five reserved characters is checked by evaluation, and any other
    character cannot start a match. *)
Ltac pass_tac :=
  apply replaceAll_flat_map; [done|];
  let c := fresh "c" in
  intros c; reserved_cases c;
  try (left; split; reflexivity);
  try (right; split; [reflexivity | intros rest; reflexivity]);
  right; eqb_false; unfold rendered, entity_of; cbn [existsb];
  repeat match goal with E : N.eqb _ _ = false |- _ => rewrite !E; clear E end;
  cbn [orb]; (split; [reflexivity|]); intros rest;
  apply replaceAll_pass;
  match goal with |- starts_with ?p _ = false => unfold p end;
  cbn [starts_with];
  repeat match goal with E : N.eqb _ _ = false |- _ => rewrite ?E; clear E end;
  reflexivity.

Lemma encode_flat_map s :
  encodeXmlText s = flat_map (rendered [38; 60; 62; 34; 39]%N) s.
Proof.
  unfold encodeXmlText. rewrite <- (flat_map_rendered_nil s) at 1.
  assert (E1 : replaceAll amp amp_entity (flat_map (rendered []) s)
               = flat_map (rendered [38]%N) s) by pass_tac.
  assert (E2 : replaceAll lt lt_entity (flat_map (rendered [38]%N) s)
               = flat_map (rendered [38; 60]%N) s) by pass_tac.
  assert (E3 : replaceAll gt gt_entity (flat_map (rendered [38; 60]%N) s)
               = flat_map (rendered [38; 60; 62]%N) s) by pass_tac.
  assert (E4 : replaceAll quot quot_entity (flat_map (rendered [38; 60; 62]%N) s)
               = flat_map (rendered [38; 60; 62; 34]%N) s) by pass_tac.
  assert (E5 : replaceAll apos apos_entity (flat_map (rendered [38; 60; 62; 34]%N) s)
               = flat_map (rendered [38; 60; 62; 34; 39]%N) s) by pass_tac.
  by rewrite E1, E2, E3, E4, E5.
Qed.

Lemma decode_flat_map s :
  decodeXmlText (flat_map (rendered [38; 60; 62; 34; 39]%N) s) = s.
Proof.
  unfold decodeXmlText.
  assert (E1 : replaceAll lt_entity lt (flat_map (rendered [38; 60; 62; 34; 39]%N) s)
               = flat_map (rendered [38; 62; 34; 39]%N) s) by pass_tac.
  assert (E2 : replaceAll gt_entity gt (flat_map (rendered [38; 62; 34; 39]%N) s)
               = flat_map (rendered [38; 34; 39]%N) s) by pass_tac.
  assert (E3 : replaceAll quot_entity quot (flat_map (rendered [38; 34; 39]%N) s)
               = flat_map (rendered [38; 39]%N) s) by pass_tac.
  assert (E4 : replaceAll apos_entity apos (flat_map (rendered [38; 39]%N) s)
               = flat_map (rendered [38]%N) s) by pass_tac.
  assert (E5 : replaceAll amp_entity amp (flat_map (rendered [38]%N) s)
               = flat_map (rendered []) s) by pass_tac.
  rewrite E1, E2, E3, E4, E5. apply flat_map_rendered_nil.
Qed.

(** C3: decoding what [encodeXmlText] produced gives the string back, for
    every string of code units, the five reserved characters included. *)
Theorem decode_encode_inverse (s : jsstring) :
  decodeXmlText (encodeXmlText s) = s.
Proof. rewrite encode_flat_map. apply decode_flat_map. Qed.

Example decode_encode_reserved :
  encodeXmlText (js "a&b<c>d'e" ++ quot ++ js "&amp;")
  = js "a&amp;b&lt;c&gt;d&apos;e&quot;&amp;amp;" /\
  decodeXmlText (js "a&amp;b&lt;c&gt;d&apos;e&quot;&amp;amp;")
  = js "a&b<c>d'e" ++ quot ++ js "&amp;".
Proof. split; reflexivity. Qed.

(** ** Splitting and joining *)

Lemma match_paragraphRe_app s paraXml rest :
  match_paragraphRe s = Some (paraXml, rest) -> s = paraXml ++ rest.
Proof.
  unfold match_paragraphRe. destruct (tag_at tag_p s) eqn:T; [|done].
  destruct (until_literal close_p (skipn 4 s)) as [[body r]|] eqn:U; [|done].
  intros [= <- <-]. apply until_literal_app in U.
  rewrite (tag_at_skipn _ _ T) at 1. change (length tag_p) with 4%nat.
  rewrite U. unfold tag_p. simpl. by rewrite <- app_assoc.
Qed.

Lemma match_paragraphRe_shorter s paraXml rest :
  match_paragraphRe s = Some (paraXml, rest) -> (length rest < length s)%nat.
Proof.
  intros H. pose proof (match_paragraphRe_app _ _ _ H) as E.
  assert (0 < length paraXml)%nat.
  { unfold match_paragraphRe in H. destruct (tag_at tag_p s); [|done].
    destruct (until_literal close_p (skipn 4 s)) as [[body r]|]; [|done].
    injection H as <- <-. simpl. lia. }
  rewrite E, length_app. lia.
Qed.

(** What [exec] returns cuts the text in three, and the third is shorter. *)
Lemma exec_paragraphRe_app s before paraXml rest :
  exec_from match_paragraphRe s = Some (before, paraXml, rest) ->
  s = before ++ paraXml ++ rest /\ (length rest < length s)%nat.
Proof.
  revert before. induction s as [|c s IH]; intros before H; [done|].
  cbn [exec_from] in H.
  destruct (match_paragraphRe (c :: s)) as [[x r]|] eqn:M.
  - injection H as <- <- <-. split; [simpl; by apply match_paragraphRe_app|].
    by apply match_paragraphRe_shorter in M.
  - destruct (exec_from match_paragraphRe s) as [[[b x] r]|] eqn:E; [|done].
    injection H as <- <- <-. destruct (IH _ eq_refl) as [-> L].
    split; [done|]. simpl. lia.
Qed.

Lemma join_chunk_opt before parts :
  join (match before with [] => [] | _ :: _ => [PChunk before] end ++ parts)
  = before ++ join parts.
Proof. by destruct before. Qed.

Lemma split_loop_join fuel rest paraIndex tcDepth :
  (length rest < fuel)%nat ->
  join (split_loop fuel rest paraIndex tcDepth) = rest.
Proof.
  revert rest paraIndex tcDepth.
  induction fuel as [|fuel IH]; intros rest paraIndex tcDepth Hf; [lia|].
  cbn [split_loop].
  destruct (exec_from match_paragraphRe rest) as [[[before paraXml] after]|] eqn:E.
  - apply exec_paragraphRe_app in E as [-> L].
    rewrite join_chunk_opt. unfold join at 1. cbn [List.map concat part_xml xml].
    fold (join (split_loop fuel after (S paraIndex)
                  (updateTableCellDepth paraXml
                     match before with [] => tcDepth
                     | _ :: _ => updateTableCellDepth before tcDepth end))).
    rewrite IH by (rewrite !length_app in *; lia). done.
  - destruct rest; [done|]. unfold join. simpl. by rewrite app_nil_r.
Qed.

(** The rounds given to the loop are enough: more of them change nothing. *)
Lemma split_loop_fuel fuel1 fuel2 rest paraIndex tcDepth :
  (length rest < fuel1)%nat -> (length rest < fuel2)%nat ->
  split_loop fuel1 rest paraIndex tcDepth = split_loop fuel2 rest paraIndex tcDepth.
Proof.
  revert fuel2 rest paraIndex tcDepth.
  induction fuel1 as [|fuel1 IH]; intros fuel2 rest paraIndex tcDepth H1 H2; [lia|].
  destruct fuel2 as [|fuel2]; [lia|]. cbn [split_loop].
  destruct (exec_from match_paragraphRe rest) as [[[before paraXml] after]|] eqn:E; [|done].
  apply exec_paragraphRe_app in E as [_ L].
  f_equal. f_equal. apply IH; lia.
Qed.

Lemma split_join documentXml :
  join (fst (splitDocumentXmlIntoParts documentXml)) = documentXml.
Proof. unfold splitDocumentXmlIntoParts. cbn [fst]. apply split_loop_join. lia. Qed.

(** ** Patching *)

Lemma patchPart_untouched replacements part :
  untouched replacements part -> patchPart replacements part = part.
Proof. destruct part as [x|p]; simpl; [done|]. by intros ->. Qed.

(** Chunks, and blocks that the map does not name, go through unchanged,
    whatever happens to the other blocks. *)
Lemma patchPart_frame replacements parts :
  Forall2 (fun old new => untouched replacements old -> new = old)
          parts (List.map (patchPart replacements) parts).
Proof.
  induction parts as [|part parts IH]; constructor; [|done].
  apply patchPart_untouched.
Qed.

(** A map whose keys name no block of the document changes nothing. *)
Lemma patch_unmatched documentXml replacements :
  Forall (untouched replacements) (fst (splitDocumentXmlIntoParts documentXml)) ->
  patchDocumentXml documentXml replacements = documentXml.
Proof.
  intros H. unfold patchDocumentXml.
  rewrite <- (split_join documentXml) at 2. unfold join. f_equal.
  induction H as [|part parts Hp _ IH]; [done|].
  cbn [List.map]. by rewrite patchPart_untouched, IH.
Qed.

Lemma patch_empty documentXml : patchDocumentXml documentXml ∅ = documentXml.
Proof.
  apply patch_unmatched.
  apply Forall_forall. intros [x|p] _; simpl; [done|]. apply lookup_empty.
Qed.

(** On the unpacked archive: the empty map gives the archive back, and a
    missing [word/document.xml] is the one error. *)
Lemma patchDocx_empty zip documentXml :
  zip !! document_entry = Some documentXml ->
  patchDocxParagraphs zip ∅ = Some zip.
Proof.
  intros H. unfold patchDocxParagraphs. rewrite H.
  by rewrite patch_empty, insert_id.
Qed.

Lemma patchDocx_missing zip replacements :
  zip !! document_entry = None -> patchDocxParagraphs zip replacements = None.
Proof. intros H. unfold patchDocxParagraphs. by rewrite H. Qed.

(** C4: the parts of any document, joined in order, are the document, and
    patching with the empty map returns the document unchanged. *)
Theorem patch_empty_identity (documentXml : jsstring) :
  join (fst (splitDocumentXmlIntoParts documentXml)) = documentXml /\
  patchDocumentXml documentXml ∅ = documentXml.
Proof. split; [apply split_join | apply patch_empty]. Qed.

(** C5: on [dollar_document], replacing the text of block [p-0] alone makes
    re-extraction see three blocks, and block [p-1], which the map does not
    name, no longer has the text it had. *)
Theorem patch_dollar_pattern_breaks_isolation :
  List.map id_and_text (snd (splitDocumentXmlIntoParts dollar_document))
  = [(js "p-0", js "a"); (js "p-1", js "b")] /\
  dollar_replacements !! js "p-1" = None /\
  List.map id_and_text
    (snd (splitDocumentXmlIntoParts (patchDocumentXml dollar_document dollar_replacements)))
  = [(js "p-0", []); (js "p-1", []); (js "p-2", js "b")].
Proof. split; [|split]; vm_compute; reflexivity. Qed.

(** The replacement that the first leaf of [dollar_document] receives: the
    two patterns of its attribute are expanded. *)
Example dollar_patched_text :
  patchDocumentXml dollar_document dollar_replacements
  = js "<w:p><w:r><w:t a=" ++ quot ++ js "</w:r></w:p><w:p><w:r>" ++ quot
    ++ preserve_attr ++ js ">new</w:t></w:r></w:p><w:p><w:r><w:t>b</w:t></w:r></w:p>".
Proof. vm_compute. reflexivity. Qed.

(** ** The table-cell counter *)

Lemma fold_left_incr {A} (l : list A) d :
  fold_left (fun d _ => d + 1) l d = d + Z.of_nat (length l).
Proof. revert d. induction l as [|x l IH]; intros d; simpl; [lia|]. rewrite IH. lia. Qed.

Lemma fold_left_decr {A} (l : list A) d :
  0 <= d ->
  fold_left (fun d _ => Z.max 0 (d - 1)) l d = Z.max 0 (d - Z.of_nat (length l)).
Proof.
  revert d. induction l as [|x l IH]; intros d H; [simpl; lia|].
  cbn [fold_left length]. rewrite IH by lia. lia.
Qed.

(** The two loops of [updateTableCellDepth] add the open tags of the
    fragment and then take away its close tags, never going below zero. *)
Lemma updateTableCellDepth_fragment fragment tcDepth :
  0 <= tcDepth -> updateTableCellDepth fragment tcDepth = fragment_depth fragment tcDepth.
Proof.
  intros H. unfold updateTableCellDepth, fragment_depth, opens, closes.
  rewrite fold_left_incr, fold_left_decr by lia. lia.
Qed.

Lemma fragment_depth_nonneg fragment tcDepth : 0 <= fragment_depth fragment tcDepth.
Proof. unfold fragment_depth. lia. Qed.

Lemma kind_of_depth_spec d :
  (kind_of_depth d = tableCellParagraph <-> 0 < d) /\
  (kind_of_depth d = paragraph <-> d <= 0).
Proof. unfold kind_of_depth. destruct (Z.ltb_spec 0 d); split; split; (done || lia). Qed.

Lemma split_loop_classified fuel rest paraIndex tcDepth :
  0 <= tcDepth ->
  Forall2 classified (split_loop fuel rest paraIndex tcDepth)
          (depths (split_loop fuel rest paraIndex tcDepth) tcDepth).
Proof.
  revert rest paraIndex tcDepth.
  induction fuel as [|fuel IH]; intros rest paraIndex tcDepth H; [constructor|].
  cbn [split_loop].
  destruct (exec_from match_paragraphRe rest) as [[[before paraXml] after]|] eqn:E.
  - destruct before as [|b before]; cbn [app depths part_xml xml].
    + constructor; [apply kind_of_depth_spec|].
      rewrite updateTableCellDepth_fragment by done.
      apply IH, fragment_depth_nonneg.
    + constructor; [done|].
      rewrite (updateTableCellDepth_fragment (b :: before)) by done.
      constructor; [apply kind_of_depth_spec|].
      rewrite updateTableCellDepth_fragment by apply fragment_depth_nonneg.
      apply IH, fragment_depth_nonneg.
  - destruct rest; repeat constructor.
Qed.

(** C6, as amended: the counter is brought up to date one part at a time,
    the open tags of a part before its close tags, and a block is a
    table-cell block exactly when the counter is positive at its start. *)
Theorem blocks_classified_by_depth (documentXml : jsstring) :
  Forall2 classified (fst (splitDocumentXmlIntoParts documentXml))
          (depths (fst (splitDocumentXmlIntoParts documentXml)) 0).
Proof. unfold splitDocumentXmlIntoParts. cbn [fst]. by apply split_loop_classified. Qed.

(** C6, as the claim states it, fails on [close_then_open]: taken in
    document order the counter is 1 at the block, which the code classifies
    as a plain block. *)
Lemma document_order_counterexample :
  ~ classified_in_document_order close_then_open.
Proof.
  intros H.
  specialize (H [PChunk (js "</w:tc><w:tc>")]
                {| id := js "p-0"; index := 0; kind := paragraph; text := [];
                   xml := js "<w:p>x</w:p>" |} [] eq_refl).
  destruct H as [_ H]. discriminate H. reflexivity.
Qed.

(** ** The paragraph score *)

Lemma fold_left_scores signals a :
  fold_left (fun a s => a + score s) signals a = a + sum_scores signals.
Proof.
  revert a. induction signals as [|s signals IH]; intros a; simpl; [lia|].
  rewrite IH. lia.
Qed.

Lemma sum_scores_perm l l' : l ≡ₚ l' -> sum_scores l = sum_scores l'.
Proof. induction 1; simpl; lia. Qed.

Lemma categories_of_perm l l' : l ≡ₚ l' -> categories_of l = categories_of l'.
Proof.
  intros H. unfold categories_of. apply list_to_set_perm_L.
  change (category <$> l ≡ₚ category <$> l'). by rewrite H.
Qed.

Lemma synergyBonus_perm l l' : l ≡ₚ l' -> synergyBonus l = synergyBonus l'.
Proof.
  intros H. unfold synergyBonus.
  change (list_to_set (List.map category l)) with (categories_of l).
  change (list_to_set (List.map category l')) with (categories_of l').
  by rewrite (categories_of_perm _ _ H), (Permutation_length H).
Qed.

(** The score does not depend on the order in which the rules fired. *)
Lemma paragraphRiskScore_perm l l' :
  l ≡ₚ l' -> paragraphRiskScore l = paragraphRiskScore l'.
Proof.
  intros H. unfold paragraphRiskScore.
  by rewrite !fold_left_scores, (sum_scores_perm _ _ H), (synergyBonus_perm _ _ H).
Qed.

Lemma synergyBonus_cons s l : synergyBonus l <= synergyBonus (s :: l).
Proof.
  unfold synergyBonus.
  change (list_to_set (List.map category l)) with (categories_of l).
  change (list_to_set (List.map category (s :: l))) with (categories_of (s :: l)).
  assert (Hsz : (size (categories_of l) <= size (categories_of (s :: l)))%nat).
  { apply subseteq_size. unfold categories_of. cbn [List.map].
    rewrite list_to_set_cons. set_solver. }
  cbn [length].
  repeat match goal with |- context [?a <=? ?b] => destruct (Z.leb_spec a b) end; lia.
Qed.

Lemma clamp_mono a b lo hi : a <= b -> clamp a lo hi <= clamp b lo hi.
Proof. unfold clamp. lia. Qed.

Lemma clamp_range n lo hi : lo <= hi -> lo <= clamp n lo hi <= hi.
Proof. unfold clamp. lia. Qed.

Lemma paragraphRiskScore_cons s l :
  0 <= score s -> paragraphRiskScore l <= paragraphRiskScore (s :: l).
Proof.
  intros H. unfold paragraphRiskScore. rewrite !fold_left_scores.
  apply clamp_mono. pose proof (synergyBonus_cons s l). simpl. lia.
Qed.

Lemma paragraphRiskScore_range l : 0 <= paragraphRiskScore l <= 100.
Proof. apply clamp_range. lia. Qed.

Lemma three_elements (X : gset CategoryId) :
  (3 <= size X)%nat <->
  exists a b c, a ∈ X /\ b ∈ X /\ c ∈ X /\ a <> b /\ a <> c /\ b <> c.
Proof.
  split.
  - intros H.
    destruct (elements X) as [|a [|b [|c l]]] eqn:E;
      try (unfold size, set_size in H; simpl in H; rewrite E in H; simpl in H; lia).
    pose proof (NoDup_elements X) as ND. rewrite E in ND.
    exists a, b, c.
    assert (forall x, x ∈ elements X -> x ∈ X) as In by (intros; by apply elem_of_elements).
    rewrite E in In.
    repeat split; try (apply In; set_solver).
    all: inversion ND as [|? ? N1 ND1]; subst; inversion ND1 as [|? ? N2 ND2]; subst;
      set_solver.
  - intros (a & b & c & Ha & Hb & Hc & Hab & Hac & Hbc).
    assert (S : ({[a; b; c]} : gset CategoryId) ⊆ X) by set_solver.
    apply subseteq_size in S.
    rewrite !size_union in S by set_solver. rewrite !size_singleton in S. lia.
Qed.

(** The size of the set of categories is at least three exactly when three
    signals have three different categories. *)
Lemma spans_three_categories_size signals :
  spans_three_categories signals <-> (3 <= size (categories_of signals))%nat.
Proof.
  rewrite three_elements. unfold spans_three_categories, categories_of.
  split.
  - intros (s1 & s2 & s3 & H1 & H2 & H3 & D).
    exists (category s1), (category s2), (category s3).
    rewrite !elem_of_list_to_set.
    repeat split; try tauto; apply (list_elem_of_fmap_2 category); done.
  - intros (a & b & c & Ha & Hb & Hc & D).
    rewrite !elem_of_list_to_set in Ha, Hb, Hc.
    apply (list_elem_of_fmap_1 category) in Ha as (s1 & -> & ?).
    apply (list_elem_of_fmap_1 category) in Hb as (s2 & -> & ?).
    apply (list_elem_of_fmap_1 category) in Hc as (s3 & -> & ?).
    exists s1, s2, s3. tauto.
Qed.

Lemma synergyBonus_spec signals :
  (spans_three_categories signals ->
   synergyBonus signals = countBonus (length signals) + 8) /\
  (~ spans_three_categories signals ->
   synergyBonus signals = countBonus (length signals)).
Proof.
  rewrite spans_three_categories_size. unfold synergyBonus, countBonus.
  change (list_to_set (List.map category signals)) with (categories_of signals).
  split; intros H;
    repeat match goal with
           | |- context [(?a <=? ?b)%Z] => destruct (Z.leb_spec a b)
           | |- context [(?a <=? ?b)%nat] => destruct (Nat.leb_spec a b)
           end; lia.
Qed.

Lemma riskLevel_tier score : riskLevel score = tier score.
Proof.
  unfold riskLevel, tier.
  destruct (Z.leb_spec 70 score), (Z.leb_spec 35 score),
    (Z.ltb_spec score 35), (Z.ltb_spec score 70); (done || lia).
Qed.

Section ParagraphScore.
Variable nodejieba_cut : jsstring -> option (list jsstring).
Variable extractFeatures : jsstring -> ParagraphFeatures.

(** C2: every paragraph report of [detectAigcRisk] carries the clamped sum
    of its signals' points and the bonus, and the tier of that score; the
    bonus is 25, 18, 10 or 0 by the number of signals, with 8 more when the
    signals span three categories; and the score is the same for every
    order of the signals. *)
Theorem paragraph_score_contract (now : Z) (paragraphs : list DocxParagraph) :
  Forall (fun r =>
            report.riskScore r
            = clamp (sum_scores (report.signals r) + synergyBonus (report.signals r)) 0 100
            /\ report.riskLevel r = tier (report.riskScore r)
            /\ (forall signals', report.signals r ≡ₚ signals' ->
                                 paragraphRiskScore signals' = report.riskScore r))
         (report.paragraphReports
            (detectAigcRisk nodejieba_cut extractFeatures now paragraphs))
  /\ (forall signals,
        (spans_three_categories signals ->
         synergyBonus signals = countBonus (length signals) + 8) /\
        (~ spans_three_categories signals ->
         synergyBonus signals = countBonus (length signals))).
Proof.
  split; [|apply synergyBonus_spec].
  unfold detectAigcRisk. cbn [report.paragraphReports].
  apply Forall_forall. intros r Hr.
  apply elem_of_lookup_imap_1 in Hr as (i & p & -> & _).
  unfold paragraphReport.
  cbn [report.riskScore report.riskLevel report.signals].
  split; [|split].
  - unfold paragraphRiskScore. by rewrite fold_left_scores.
  - apply riskLevel_tier.
  - intros signals' H. symmetry. by apply paragraphRiskScore_perm.
Qed.

Lemma paragraphReports_in_range now paragraphs :
  Forall score_in_range
    (report.paragraphReports
       (detectAigcRisk nodejieba_cut extractFeatures now paragraphs)).
Proof.
  unfold detectAigcRisk. cbn [report.paragraphReports].
  apply Forall_forall. intros r Hr.
  apply elem_of_lookup_imap_1 in Hr as (i & p & -> & _).
  apply paragraphRiskScore_range.
Qed.

End ParagraphScore.

Lemma paragraph_score_witness :
  spans_three_categories three_signals /\
  synergyBonus three_signals = countBonus (length three_signals) + 8 /\
  ~ spans_three_categories [topic_shift] /\
  synergyBonus [topic_shift] = countBonus (length [topic_shift]) /\
  Forall (fun r =>
            report.riskScore r
            = clamp (sum_scores (report.signals r) + synergyBonus (report.signals r)) 0 100
            /\ report.riskLevel r = tier (report.riskScore r)
            /\ (forall signals', report.signals r ≡ₚ signals' ->
                                 paragraphRiskScore signals' = report.riskScore r))
         (report.paragraphReports
            (detectAigcRisk failing_cut length_features 0 lonely_blocks)).
Proof.
  destruct (paragraph_score_contract failing_cut length_features 0 lonely_blocks)
    as [R B].
  assert (S3 : spans_three_categories three_signals).
  { exists (signal "lang_uniform_sentence" languageStats 15),
      (signal "style_template_phrases" styleHabits 18),
      (signal "veri_claim_no_cite_weak" verifiability 12).
    unfold three_signals. repeat split; try discriminate; set_solver. }
  assert (S1 : ~ spans_three_categories [topic_shift]).
  { intros (s1 & s2 & s3 & H1 & H2 & H3 & D & _).
    apply list_elem_of_singleton in H1, H2. congruence. }
  split; [exact S3|]. split; [exact (proj1 (B three_signals) S3)|].
  split; [exact S1|]. split; [exact (proj2 (B [topic_shift]) S1)|]. exact R.
Defined.

(** C8: one more signal with points that are not negative, wherever the
    rules put it in the list, never lowers the score of the paragraph. *)
Theorem score_monotone (before after : list FindingSignal) (s : FindingSignal) :
  0 <= score s ->
  paragraphRiskScore (before ++ after) <= paragraphRiskScore (before ++ s :: after).
Proof.
  intros H.
  rewrite (paragraphRiskScore_perm (before ++ s :: after) (s :: before ++ after)).
  - by apply paragraphRiskScore_cons.
  - symmetry. apply Permutation_middle.
Qed.

Lemma score_monotone_witness :
  0 <= score (signal "style_template_phrases" styleHabits 18) /\
  paragraphRiskScore ([signal "lang_uniform_sentence" languageStats 15]
                      ++ [signal "veri_claim_no_cite_weak" verifiability 12])
  <= paragraphRiskScore ([signal "lang_uniform_sentence" languageStats 15]
                         ++ signal "style_template_phrases" styleHabits 18
                            :: [signal "veri_claim_no_cite_weak" verifiability 12]).
Proof.
  split; [simpl; lia|].
  apply (score_monotone [signal "lang_uniform_sentence" languageStats 15]
           [signal "veri_claim_no_cite_weak" verifiability 12]
           (signal "style_template_phrases" styleHabits 18)).
  simpl. lia.
Defined.

(** The scenario of the specification: uniform sentences, a template phrase
    and an unsupported claim give 15 + 18 + 12, and 18 more for three
    signals in three categories. *)
Example three_signals_score : paragraphRiskScore three_signals = 63.
Proof. vm_compute. reflexivity. Qed.

(** ** Rounding in binary64 *)

Lemma digits2_pos_succ p :
  Z.pos (digits2_pos (Pos.succ p)) <= Z.pos (digits2_pos p) + 1.
Proof. induction p; simpl; lia. Qed.

Lemma digits2_pos_iter_xO m k :
  Z.pos (digits2_pos (Pos.iter xO m k)) = Z.pos (digits2_pos m) + Z.pos k.
Proof.
  induction k using Pos.peano_ind.
  - simpl. lia.
  - rewrite Pos.iter_succ. simpl digits2_pos. lia.
Qed.

Lemma digits2_pos_bound m n :
  0 <= n -> Z.pos m < 2 ^ n -> Z.pos (digits2_pos m) <= n.
Proof.
  revert n. induction m as [m IH|m IH|]; intros n Hn H.
  - destruct (Z.eq_dec n 0) as [->|]; [simpl in H; lia|].
    replace n with (Z.succ (n - 1)) in H by lia. rewrite Z.pow_succ_r in H by lia.
    specialize (IH (n - 1) ltac:(lia) ltac:(lia)). simpl. lia.
  - destruct (Z.eq_dec n 0) as [->|]; [simpl in H; lia|].
    replace n with (Z.succ (n - 1)) in H by lia. rewrite Z.pow_succ_r in H by lia.
    specialize (IH (n - 1) ltac:(lia) ltac:(lia)). simpl. lia.
  - destruct (Z.eq_dec n 0) as [->|]; [simpl in H; lia|]. simpl. lia.
Qed.

Lemma Zdigits2_nonneg m : 0 <= Zdigits2 m.
Proof. destruct m; simpl; lia. Qed.

Lemma Zdigits2_succ m : 0 <= m -> Zdigits2 (m + 1) <= Zdigits2 m + 1.
Proof.
  destruct m as [|p|p]; intros H; [simpl; lia | | lia].
  replace (Z.pos p + 1) with (Z.pos (Pos.succ p)) by lia.
  simpl. apply digits2_pos_succ.
Qed.

Lemma shr_1_bounds r :
  0 <= shr_m r ->
  0 <= shr_m (shr_1 r) /\ Zdigits2 (shr_m (shr_1 r)) <= Zdigits2 (shr_m r).
Proof.
  destruct r as [m rb sb]. simpl. intros H.
  destruct m as [|[p|p|]|p]; simpl; lia.
Qed.

Lemma iter_shr_1_bounds p r :
  0 <= shr_m r ->
  0 <= shr_m (SpecFloat.iter_pos shr_1 p r) /\
  Zdigits2 (shr_m (SpecFloat.iter_pos shr_1 p r)) <= Zdigits2 (shr_m r).
Proof.
  revert r. induction p as [p IH|p IH|]; intros r H; simpl.
  - destruct (shr_1_bounds r H) as [H1 H2].
    destruct (IH _ H1) as [H3 H4]. destruct (IH _ H3) as [H5 H6]. lia.
  - destruct (IH _ H) as [H3 H4]. destruct (IH _ H3) as [H5 H6]. lia.
  - by apply shr_1_bounds.
Qed.

Lemma shr_record_of_loc_m m l : shr_m (shr_record_of_loc m l) = m.
Proof. by destruct l as [|[]]. Qed.

(** [shr_fexp] keeps a mantissa non-negative, does not lengthen it, and ends
    at the larger of the old exponent and [fexp]. *)
Lemma shr_fexp_bounds m e l :
  0 <= m ->
  let '(r, e') := shr_fexp prec emax m e l in
  0 <= shr_m r /\ Zdigits2 (shr_m r) <= Zdigits2 m /\
  e' = Z.max e (fexp prec emax (Zdigits2 m + e)).
Proof.
  intros H. unfold shr_fexp, shr.
  destruct (fexp prec emax (Zdigits2 m + e) - e) as [|p|p] eqn:E.
  - rewrite shr_record_of_loc_m. lia.
  - destruct (iter_shr_1_bounds p (shr_record_of_loc m l)) as [H1 H2];
      rewrite ?shr_record_of_loc_m in *; [done|]. lia.
  - rewrite shr_record_of_loc_m. lia.
Qed.

Lemma round_nearest_even_bounds m l :
  0 <= m ->
  0 <= round_nearest_even m l /\ Zdigits2 (round_nearest_even m l) <= Zdigits2 m + 1.
Proof.
  intros H. pose proof (Zdigits2_succ m H).
  destruct l as [|[]]; simpl; try destruct (Z.even m); lia.
Qed.

(** Rounding a non-negative mantissa never gives [NaN] and keeps the sign. *)
Lemma binary_round_aux_class sx mx ex lx :
  0 <= mx ->
  match binary_round_aux prec emax sx mx ex lx with
  | S754_zero s | S754_infinity s | S754_finite s _ _ => s = sx
  | S754_nan => False
  end.
Proof.
  intros H. unfold binary_round_aux.
  pose proof (shr_fexp_bounds mx ex lx H) as B1.
  destruct (shr_fexp prec emax mx ex lx) as [r1 e1]. destruct B1 as (N1 & _ & _).
  destruct (round_nearest_even_bounds (shr_m r1) (loc_of_shr_record r1) N1) as [N2 _].
  pose proof (shr_fexp_bounds _ e1 loc_Exact N2) as B2.
  destruct (shr_fexp prec emax _ e1 loc_Exact) as [r2 e2]. destruct B2 as (N3 & _ & _).
  destruct (shr_m r2); [done | | lia].
  by destruct (e2 <=? emax - prec).
Qed.

(** A mantissa of at most 64 bits with an exponent that is not positive
    rounds to a finite number. *)
Lemma binary_round_aux_finite sx mx ex lx :
  0 <= mx -> Zdigits2 mx <= 64 -> ex <= 0 ->
  match binary_round_aux prec emax sx mx ex lx with
  | S754_zero s | S754_finite s _ _ => s = sx
  | _ => False
  end.
Proof.
  intros H HD HE. unfold binary_round_aux.
  pose proof (shr_fexp_bounds mx ex lx H) as B1.
  destruct (shr_fexp prec emax mx ex lx) as [r1 e1]. destruct B1 as (N1 & D1 & E1).
  destruct (round_nearest_even_bounds (shr_m r1) (loc_of_shr_record r1) N1) as [N2 D2].
  pose proof (shr_fexp_bounds _ e1 loc_Exact N2) as B2.
  destruct (shr_fexp prec emax _ e1 loc_Exact) as [r2 e2]. destruct B2 as (N3 & D3 & E2).
  pose proof (Zdigits2_nonneg mx).
  destruct (shr_m r2); [done | | lia].
  destruct (Z.leb_spec e2 (emax - prec)) as [|Hgt]; [done|].
  revert E1 E2 Hgt. unfold fexp, SpecFloat.emin, emax, prec. lia.
Qed.

Lemma binary_round_class sx m e :
  match binary_round prec emax sx m e with
  | S754_zero s | S754_infinity s | S754_finite s _ _ => s = sx
  | S754_nan => False
  end.
Proof.
  unfold binary_round. destruct (shl_align _ _ _) as [mz ez].
  by apply binary_round_aux_class.
Qed.

(** An integer below [2^63] converts to a finite double that is not
    negative. *)
Lemma binary_normalize_small z :
  0 <= z < 2 ^ 63 ->
  finite_nonneg_sf (binary_normalize prec emax z 0 false) = true.
Proof.
  intros [Hz Hlt]. destruct z as [|m|m]; [done| |lia].
  cbn [binary_normalize]. unfold binary_round.
  pose proof (digits2_pos_bound m 63 ltac:(lia) Hlt) as Hd.
  unfold shl_align.
  destruct (fexp prec emax (Z.pos (digits2_pos m) + 0) - 0) as [|d|d] eqn:E.
  - pose proof (binary_round_aux_finite false (Z.pos m) 0 loc_Exact
                  ltac:(lia) ltac:(simpl; lia) ltac:(lia)) as C.
    by destruct (binary_round_aux _ _ _ _ _ _) as [[]|[]| |[] ? ?].
  - pose proof (binary_round_aux_finite false (Z.pos m) 0 loc_Exact
                  ltac:(lia) ltac:(simpl; lia) ltac:(lia)) as C.
    by destruct (binary_round_aux _ _ _ _ _ _) as [[]|[]| |[] ? ?].
  - assert (HD : Zdigits2 (Z.pos (Pos.iter xO m d)) <= 64).
    { simpl. rewrite digits2_pos_iter_xO.
      revert E. unfold fexp, SpecFloat.emin, emax, prec. lia. }
    assert (HE : fexp prec emax (Z.pos (digits2_pos m) + 0) <= 0) by lia.
    pose proof (binary_round_aux_finite false (Z.pos (Pos.iter xO m d))
                  (fexp prec emax (Z.pos (digits2_pos m) + 0)) loc_Exact
                  ltac:(lia) HD HE) as C.
    by destruct (binary_round_aux _ _ _ _ _ _) as [[]|[]| |[] ? ?].
Qed.

(** ** Sums, products and quotients of doubles that are not negative *)

Lemma SFadd_nonneg x y :
  nonneg_sf x = true -> nonneg_sf y = true -> nonneg_sf (SF64add x y) = true.
Proof.
  destruct x as [[]|[]| |[] mx ex], y as [[]|[]| |[] my ey]; try done.
  intros _ _. unfold SF64add, SFadd. cbn [cond_Zopp].
  destruct (shl_align mx ex _) as [a ?], (shl_align my ey _) as [b ?]. cbn [fst].
  change (Z.pos a + Z.pos b) with (Z.pos (a + b)). cbn [binary_normalize].
  pose proof (binary_round_class false (a + b) (Z.min ex ey)) as C.
  by destruct (binary_round _ _ _ _ _) as [[]|[]| |[] ? ?].
Qed.

Lemma SFmul_nonneg x y :
  nonneg_sf x = true -> pos_finite_sf y = true -> nonneg_sf (SF64mul x y) = true.
Proof.
  destruct x as [[]|[]| |[] mx ex], y as [[]|[]| |[] my ey]; try done.
  intros _ _. unfold SF64mul, SFmul. cbn [xorb].
  pose proof (binary_round_aux_class false (Z.pos (mx * my)) (ex + ey) loc_Exact
                ltac:(lia)) as C.
  by destruct (binary_round_aux _ _ _ _ _ _) as [[]|[]| |[] ? ?].
Qed.

Lemma SFdiv_core_nonneg mx ex my ey :
  0 <= fst (fst (SFdiv_core_binary prec emax (Z.pos mx) ex (Z.pos my) ey)).
Proof.
  unfold SFdiv_core_binary.
  set (s := _ - _ - _). set (m' := match s with Z0 => _ | Z.pos _ => _ | Z.neg _ => _ end).
  assert (Hm : 0 <= m').
  { subst m'. destruct s; [lia | | lia]. apply Z.shiftl_nonneg. lia. }
  pose proof (Z_div_mod m' (Z.pos my) ltac:(lia)) as D.
  destruct (Z.div_eucl m' (Z.pos my)) as [q r]. cbn [fst]. nia.
Qed.

Lemma SFdiv_nonneg x y :
  nonneg_sf x = true -> pos_finite_sf y = true -> nonneg_sf (SF64div x y) = true.
Proof.
  destruct x as [[]|[]| |[] mx ex], y as [[]|[]| |[] my ey]; try done.
  intros _ _. unfold SF64div, SFdiv. cbn [xorb].
  pose proof (SFdiv_core_nonneg mx ex my ey) as N.
  destruct (SFdiv_core_binary _ _ _ _ _ _) as [[mz ez] lz]. cbn [fst] in N.
  pose proof (binary_round_aux_class false mz ez lz N) as C.
  by destruct (binary_round_aux _ _ _ _ _ _) as [[]|[]| |[] ? ?].
Qed.

Lemma finite_nonneg_is_nonneg x : finite_nonneg_sf x = true -> nonneg_sf x = true.
Proof. by destruct x as [[]|[]| |[] ? ?]. Qed.

Lemma SFcompare_antisym x y :
  SFcompare y x = option_map CompOpp (SFcompare x y).
Proof.
  destruct x as [[]|[]| |[] mx ex], y as [[]|[]| |[] my ey]; try done; simpl;
    rewrite (Z.compare_antisym ex ey); destruct (ex ?= ey); simpl; try done;
    rewrite <- (Pos.compare_cont_antisym _ _ Eq); simpl;
    by destruct (Pos.compare_cont Eq mx my).
Qed.

Lemma SFcompare_refl x : nonneg_sf x = true -> SFcompare x x = Some Eq.
Proof.
  destruct x as [[]|[]| |[] m e]; try done. intros _. simpl.
  by rewrite Z.compare_refl, Pos.compare_cont_refl.
Qed.

Lemma SFcompare_nonneg x y :
  nonneg_sf x = true -> nonneg_sf y = true -> exists c, SFcompare x y = Some c.
Proof.
  destruct x as [[]|[]| |[] ? ?], y as [[]|[]| |[] ? ?]; try done; simpl; eauto.
Qed.

Lemma float_of_Z_finite z : finite_nonneg_sf (Prim2SF (float_of_Z z)) = true.
Proof.
  unfold float_of_Z. rewrite of_uint63_spec. apply binary_normalize_small.
  pose proof (Uint63.to_Z_bounded (Uint63.of_Z z)) as B.
  change wB with (2 ^ 63) in B. lia.
Qed.

Lemma float_of_Z_nonneg z : nonneg (float_of_Z z).
Proof. apply finite_nonneg_is_nonneg, float_of_Z_finite. Qed.

Lemma add_nonneg x y : nonneg x -> nonneg y -> nonneg (x + y).
Proof. unfold nonneg. rewrite FloatAxioms.add_spec. apply SFadd_nonneg. Qed.

Lemma mul_nonneg x y :
  nonneg x -> pos_finite_sf (Prim2SF y) = true -> nonneg (x * y).
Proof. unfold nonneg. rewrite FloatAxioms.mul_spec. apply SFmul_nonneg. Qed.

Lemma div_nonneg x y :
  nonneg x -> pos_finite_sf (Prim2SF y) = true -> nonneg (x / y).
Proof. unfold nonneg. rewrite FloatAxioms.div_spec. apply SFdiv_nonneg. Qed.

Lemma is_nan_nonneg x : nonneg x -> PrimFloat.is_nan x = false.
Proof.
  unfold nonneg, PrimFloat.is_nan. intros H.
  by rewrite FloatAxioms.eqb_spec; unfold SFeqb; rewrite SFcompare_refl.
Qed.

Lemma sign_bit_nonneg x : nonneg x -> sign_bit x = false.
Proof. unfold nonneg, sign_bit. by destruct (Prim2SF x) as [[]|[]| |[] ? ?]. Qed.

Lemma zero_leb_nonneg x : nonneg x -> (0 <=? x)%float = true.
Proof.
  unfold nonneg. rewrite FloatAxioms.leb_spec.
  change (Prim2SF 0) with (S754_zero false).
  by destruct (Prim2SF x) as [[]|[]| |[] ? ?].
Qed.

Lemma ltb_zero_nonneg x : nonneg x -> (x <? 0)%float = false.
Proof.
  unfold nonneg. rewrite FloatAxioms.ltb_spec.
  change (Prim2SF 0) with (S754_zero false).
  by destruct (Prim2SF x) as [[]|[]| |[] ? ?].
Qed.

Lemma ltb_leb x y : (x <? y)%float = true -> (x <=? y)%float = true.
Proof.
  rewrite FloatAxioms.ltb_spec, FloatAxioms.leb_spec. unfold SFltb, SFleb.
  by destruct (SFcompare _ _) as [[]|].
Qed.

Lemma ltb_not_leb x y : (x <? y)%float = true -> (y <=? x)%float = false.
Proof.
  rewrite FloatAxioms.ltb_spec, FloatAxioms.leb_spec. unfold SFltb, SFleb.
  rewrite (SFcompare_antisym (Prim2SF x) (Prim2SF y)).
  by destruct (SFcompare _ _) as [[]|].
Qed.

Lemma not_ltb_leb x y :
  nonneg x -> nonneg y ->
  (x <? y)%float = false -> (y <? x)%float = false -> (y <=? x)%float = true.
Proof.
  unfold nonneg. intros Hx Hy.
  rewrite !FloatAxioms.ltb_spec, FloatAxioms.leb_spec.
  unfold SFltb, SFleb. rewrite (SFcompare_antisym (Prim2SF x) (Prim2SF y)).
  destruct (SFcompare_nonneg _ _ Hx Hy) as [c ->]. by destruct c.
Qed.

(** A score below 35 is below 70 as well. *)
Lemma ltb_35_not_leb_70 x : (x <? 35)%float = true -> (70 <=? x)%float = false.
Proof.
  rewrite FloatAxioms.ltb_spec, FloatAxioms.leb_spec.
  change (Prim2SF 35) with (S754_finite false 4925812092436480 (-47)).
  change (Prim2SF 70) with (S754_finite false 4925812092436480 (-46)).
  unfold SFltb, SFleb.
  destruct (Prim2SF x) as [[]|[]| |[] m e]; try done.
  cbn [SFcompare].
  destruct (Z.compare_spec e (-47)) as [->| |]; [done| |done].
  intros _. by destruct (Z.compare_spec (-46) e); [lia|lia|].
Qed.

(** ** [clamp] and [Math.round] on doubles *)

Lemma Math_max_zero x : nonneg x -> Math_max 0 x = x \/ Math_max 0 x = 0%float.
Proof.
  intros H. unfold Math_max.
  rewrite (is_nan_nonneg x H), (is_nan_nonneg 0) by done.
  rewrite (ltb_zero_nonneg x H). cbn [orb].
  destruct (0 <? x)%float; [by left|].
  rewrite sign_bit_nonneg by done. by right.
Qed.

Lemma Math_max_zero_nonneg x : nonneg x -> nonneg (Math_max 0 x).
Proof. intros H. by destruct (Math_max_zero x H) as [-> | ->]. Qed.

(** [clamp(n, 0, 100)] of a number that is not negative lies in the range. *)
Lemma clamp_float_range n :
  nonneg n ->
  (0 <=? clamp_float n 0 100)%float = true /\
  (clamp_float n 0 100 <=? 100)%float = true.
Proof.
  intros H. unfold clamp_float.
  pose proof (Math_max_zero_nonneg n H) as Hy. set (y := Math_max 0 n) in *.
  unfold Math_min. rewrite (is_nan_nonneg y Hy), (is_nan_nonneg 100) by done.
  cbn [orb].
  destruct (100 <? y)%float eqn:E1; [done|].
  destruct (y <? 100)%float eqn:E2.
  - split; [by apply zero_leb_nonneg | by apply ltb_leb].
  - rewrite sign_bit_nonneg by done.
    split; [by apply zero_leb_nonneg | by apply not_ltb_leb].
Qed.

Lemma Math_round_nonneg x : nonneg x -> nonneg (Math_round x).
Proof.
  unfold nonneg, Math_round. intros H.
  destruct (Prim2SF x) as [[]|[]| |[] m e] eqn:E; try done; try by rewrite E.
  destruct (0 <=? e) eqn:He; [by rewrite E|].
  set (z := (2 * Z.pos m + 2 ^ (- e)) / (2 * 2 ^ (- e))).
  destruct (z =? 0); [done|].
  assert (0 <= z).
  { apply Z.div_pos; [|apply Z.mul_pos_pos; [lia|]];
      pose proof (Z.pow_pos_nonneg 2 (- e)); lia. }
  destruct (Z.ltb_spec z 0); [lia|]. apply float_of_Z_nonneg.
Qed.

(** ** The document score *)

Lemma score_ratio_pos_finite s :
  35 <= s <= 100 -> pos_finite_sf (Prim2SF (float_of_Z s / 100)) = true.
Proof.
  intros H.
  assert (A : forallb (fun n => pos_finite_sf (Prim2SF (float_of_Z (Z.of_nat n) / 100)))
                (seq 35 66) = true) by (vm_compute; reflexivity).
  rewrite forallb_forall in A.
  specialize (A (Z.to_nat s)). rewrite Z2Nat.id in A by lia.
  apply A, in_seq. lia.
Qed.

Lemma aiCharCount_step_nonneg ai r :
  nonneg ai -> score_in_range r -> nonneg (aiCharCount_step ai r).
Proof.
  intros Hai Hr. unfold aiCharCount_step.
  destruct (Z.leb_spec 35 (report.riskScore r)); [|done].
  apply add_nonneg; [done|].
  apply mul_nonneg; [apply float_of_Z_nonneg|].
  apply score_ratio_pos_finite. unfold score_in_range in Hr. lia.
Qed.

Lemma fold_aiCharCount_nonneg reports ai :
  nonneg ai -> Forall score_in_range reports ->
  nonneg (fold_left aiCharCount_step reports ai).
Proof.
  revert ai. induction reports as [|r reports IH]; intros ai Hai Hall; [done|].
  inversion Hall; subst. cbn [fold_left]. apply IH; [|done].
  by apply aiCharCount_step_nonneg.
Qed.

Lemma fold_aiCharCount_low reports ai :
  Forall (fun r => report.riskScore r < 35) reports ->
  fold_left aiCharCount_step reports ai = ai.
Proof.
  revert ai. induction reports as [|r reports IH]; intros ai Hall; [done|].
  inversion Hall; subst. cbn [fold_left]. rewrite IH by done.
  unfold aiCharCount_step. by destruct (Z.leb_spec 35 (report.riskScore r)); [lia|].
Qed.

(** The loop with its test adds, from left to right, the terms of the
    paragraphs that score 35 or more. *)
Lemma fold_aiCharCount_filter reports ai :
  fold_left aiCharCount_step reports ai
  = fold_left (fun a r => (a + float_of_Z (charLen r)
                               * (float_of_Z (report.riskScore r) / 100))%float)
              (List.filter counted reports) ai.
Proof.
  revert ai. induction reports as [|r reports IH]; intros ai; [done|].
  cbn [fold_left List.filter]. rewrite IH.
  unfold aiCharCount_step, counted, charLen.
  by destruct (35 <=? report.riskScore r).
Qed.

Lemma fold_total_foldr reports a :
  fold_left (fun total r => total + Z.of_nat (length (report.text r))) reports a
  = a + foldr (fun r a => charLen r + a) 0 reports.
Proof.
  revert a. induction reports as [|r reports IH]; intros a; simpl; [lia|].
  rewrite IH. unfold charLen. lia.
Qed.

Lemma ltb_zero_pos_finite x :
  finite_nonneg_sf (Prim2SF x) = true -> (0 <? x)%float = true ->
  pos_finite_sf (Prim2SF x) = true.
Proof.
  rewrite FloatAxioms.ltb_spec. change (Prim2SF 0) with (S754_zero false).
  by destruct (Prim2SF x) as [[]|[]| |[] ? ?].
Qed.

Lemma zero_div_mul x :
  pos_finite_sf (Prim2SF x) = true -> (0 / x * 100)%float = 0%float.
Proof.
  intros H. apply Prim2SF_inj.
  rewrite FloatAxioms.mul_spec, FloatAxioms.div_spec.
  change (Prim2SF 0) with (S754_zero false).
  by destruct (Prim2SF x) as [[]|[]| |[] ? ?].
Qed.

Lemma overallRiskScore_of_range reports :
  Forall score_in_range reports ->
  (0 <=? overallRiskScore_of reports)%float = true /\
  (overallRiskScore_of reports <=? 100)%float = true.
Proof.
  intros Hall. unfold overallRiskScore_of.
  destruct (0 <? float_of_Z (totalCharCount_of reports))%float eqn:Hpos; [|done].
  apply clamp_float_range, Math_round_nonneg.
  apply mul_nonneg; [|done].
  apply div_nonneg.
  - by apply fold_aiCharCount_nonneg.
  - apply ltb_zero_pos_finite; [apply float_of_Z_finite | done].
Qed.

Lemma overallRiskScore_of_no_text reports :
  totalCharCount_of reports = 0 -> overallRiskScore_of reports = 0%float.
Proof. intros H. unfold overallRiskScore_of. by rewrite H. Qed.

Lemma overallRiskScore_of_low reports :
  Forall (fun r => report.riskScore r < 35) reports ->
  overallRiskScore_of reports = 0%float.
Proof.
  intros Hall. unfold overallRiskScore_of, aiCharCount_of.
  rewrite fold_aiCharCount_low by done.
  destruct (0 <? float_of_Z (totalCharCount_of reports))%float eqn:Hpos; [|done].
  rewrite zero_div_mul; [done|].
  apply ltb_zero_pos_finite; [apply float_of_Z_finite | done].
Qed.

(** The three tiers of a document score. *)
Lemma riskLevel_float_tiers s :
  ((s <? 35)%float = true -> riskLevel_float s = low) /\
  ((35 <=? s)%float = true -> (s <? 70)%float = true -> riskLevel_float s = medium) /\
  ((70 <=? s)%float = true -> riskLevel_float s = high).
Proof.
  unfold riskLevel_float. split; [|split].
  - intros H. by rewrite (ltb_35_not_leb_70 s H), (ltb_not_leb s 35 H).
  - intros H1 H2. by rewrite (ltb_not_leb s 70 H2), H1.
  - by intros ->.
Qed.

Section DocumentScore.
Variable nodejieba_cut : jsstring -> option (list jsstring).
Variable extractFeatures : jsstring -> ParagraphFeatures.

(** C1, as amended: the document score is computed from the paragraph
    reports alone, in binary64: the terms [len * (score / 100)] of the
    paragraphs scoring 35 or more are added from left to right, the sum is
    divided by the total length, multiplied by 100, rounded by [Math.round]
    and clamped.  It lies between 0 and 100, it is 0 when the total length
    is 0 and when every paragraph scores below 35, and the document tier is
    the tier of this score with the thresholds 35 and 70. *)
Theorem document_score_contract (now : Z) (paragraphs : list DocxParagraph) :
  let r := detectAigcRisk nodejieba_cut extractFeatures now paragraphs in
  let reports := report.paragraphReports r in
  let total := float_of_Z (foldr (fun p a => charLen p + a) 0 reports) in
  let s := report.overallRiskScore r in
  s = (if (0 <? total)%float
       then clamp_float
              (Math_round (weighted_sum_double reports / total * 100)%float) 0 100
       else 0%float)
  /\ (0 <=? s)%float = true /\ (s <=? 100)%float = true
  /\ (foldr (fun p a => charLen p + a) 0 reports = 0 -> s = 0%float)
  /\ (Forall (fun p => report.riskScore p < 35) reports -> s = 0%float)
  /\ report.overallRiskLevel r = riskLevel_float s
  /\ ((s <? 35)%float = true -> report.overallRiskLevel r = low)
  /\ ((35 <=? s)%float = true -> (s <? 70)%float = true ->
      report.overallRiskLevel r = medium)
  /\ ((70 <=? s)%float = true -> report.overallRiskLevel r = high).
Proof.
  intros r reports total s.
  assert (Es : s = overallRiskScore_of reports) by reflexivity.
  assert (Et : totalCharCount_of reports = foldr (fun p a => charLen p + a) 0 reports).
  { unfold totalCharCount_of. by rewrite fold_total_foldr. }
  assert (El : report.overallRiskLevel r = riskLevel_float s) by reflexivity.
  destruct (riskLevel_float_tiers s) as (T1 & T2 & T3).
  destruct (overallRiskScore_of_range reports) as [R1 R2];
    [apply paragraphReports_in_range|].
  split; [|split; [|split; [|split; [|split; [|split; [|split; [|split]]]]]]].
  - rewrite Es. unfold overallRiskScore_of, aiCharCount_of, weighted_sum_double, total.
    by rewrite fold_aiCharCount_filter, Et.
  - by rewrite Es.
  - by rewrite Es.
  - intros H. rewrite Es. apply overallRiskScore_of_no_text. by rewrite Et.
  - intros H. rewrite Es. by apply overallRiskScore_of_low.
  - exact El.
  - intros H. rewrite El. by apply T1.
  - intros H1 H2. rewrite El. by apply T2.
  - intros H. rewrite El. by apply T3.
Qed.

End DocumentScore.

Lemma document_score_witness :
  let r := detectAigcRisk failing_cut length_features 0 lonely_blocks in
  let r0 := detectAigcRisk failing_cut length_features 0 [block 0 []] in
  Forall (fun p => report.riskScore p < 35) (report.paragraphReports r) /\
  report.overallRiskScore r = 0%float /\
  foldr (fun p a => charLen p + a) 0 (report.paragraphReports r0) = 0 /\
  report.overallRiskScore r0 = 0%float /\
  (report.overallRiskScore r <? 35)%float = true /\
  report.overallRiskLevel r = low.
Proof.
  intros r r0.
  assert (L : Forall (fun p => report.riskScore p < 35) (report.paragraphReports r))
    by (repeat constructor).
  assert (T : foldr (fun p a => charLen p + a) 0 (report.paragraphReports r0) = 0)
    by reflexivity.
  destruct (document_score_contract failing_cut length_features 0 lonely_blocks)
    as (_ & _ & _ & _ & Hlow & _ & Htier & _).
  destruct (document_score_contract failing_cut length_features 0 [block 0 []])
    as (_ & _ & _ & Hzero & _).
  split; [exact L|]. split; [exact (Hlow L)|]. split; [exact T|].
  split; [exact (Hzero T)|].
  assert (S : (report.overallRiskScore r <? 35)%float = true) by (vm_compute; reflexivity).
  split; [exact S | exact (Htier S)].
Defined.

(** C1, as the claim states it, fails on [tie_reports]: the exact value is
    71/2, which rounds to 36 (a tie going up, and to the even integer
    alike), but the double that reaches [Math.round] is 35.499999999999993,
    so the code returns 35. *)
Lemma exact_rounding_counterexample :
  Qeq (exactQuotient tie_reports) (Qmake 71 2) /\
  overallRiskScore_exact tie_reports = 36 /\
  weighted_sum_double tie_reports = 42.599999999999994%float /\
  (weighted_sum_double tie_reports / 120 * 100 = 35.499999999999993)%float /\
  overallRiskScore_of tie_reports = 35%float /\
  overallRiskScore_of tie_reports <> float_of_Z (overallRiskScore_exact tie_reports).
Proof.
  split; [|split; [|split; [|split; [|split]]]]; try (vm_compute; reflexivity).
  intros H. apply (f_equal (fun x => (x =? 35)%float)) in H.
  vm_compute in H. discriminate H.
Qed.

(** On two blocks of 99 characters scored 69 and 0 the same effect changes
    the tier: 34.5 rounds to 35, which is medium, and the code returns 34,
    which is low. *)
Example exact_rounding_changes_tier :
  overallRiskScore_exact [scored 99 69; scored 99 0] = 35 /\
  overallRiskScore_of [scored 99 69; scored 99 0] = 34%float /\
  riskLevel_float (overallRiskScore_of [scored 99 69; scored 99 0]) = low.
Proof. split; [|split]; vm_compute; reflexivity. Qed.

(** ** Detection as a function of the blocks *)

Section Detection.
Variable nodejieba_cut : jsstring -> option (list jsstring).
Variable extractFeatures : jsstring -> ParagraphFeatures.

Lemma paragraphTokens_fields p q :
  block_fields p = block_fields q ->
  paragraphTokens nodejieba_cut p = paragraphTokens nodejieba_cut q.
Proof. unfold block_fields, paragraphTokens. by intros [= _ _ _ ->]. Qed.

Lemma paragraphReport_fields perParaTokens isomorphicSet i p q :
  block_fields p = block_fields q ->
  paragraphReport extractFeatures perParaTokens isomorphicSet i p =
  paragraphReport extractFeatures perParaTokens isomorphicSet i q.
Proof.
  unfold block_fields, paragraphReport, paragraphSignals.
  by intros [= -> -> -> ->].
Qed.

Lemma map_fields {B} (f : DocxParagraph -> B) ps qs :
  (forall p q, block_fields p = block_fields q -> f p = f q) ->
  List.map block_fields ps = List.map block_fields qs ->
  List.map f ps = List.map f qs.
Proof.
  intros Hf. revert qs. induction ps as [|p ps IH]; intros [|q qs] H; try done.
  cbn [List.map] in H.
  assert (H1 : block_fields p = block_fields q) by congruence.
  assert (H2 : List.map block_fields ps = List.map block_fields qs) by congruence.
  cbn [List.map]. f_equal; [by apply Hf | by apply IH].
Qed.

Lemma imap_fields {B} (f : nat -> DocxParagraph -> B) ps qs :
  (forall i p q, block_fields p = block_fields q -> f i p = f i q) ->
  List.map block_fields ps = List.map block_fields qs ->
  imap f ps = imap f qs.
Proof.
  intros Hf. revert f Hf qs.
  induction ps as [|p ps IH]; intros f Hf [|q qs] H; try done.
  cbn [List.map] in H.
  assert (H1 : block_fields p = block_fields q) by congruence.
  assert (H2 : List.map block_fields ps = List.map block_fields qs) by congruence.
  cbn [imap]. f_equal; [by apply Hf|].
  apply IH; [|done]. intros i p' q'. apply Hf.
Qed.

Lemma paragraphReports_fields now1 now2 ps qs :
  List.map block_fields ps = List.map block_fields qs ->
  report.paragraphReports (detectAigcRisk nodejieba_cut extractFeatures now1 ps)
  = report.paragraphReports (detectAigcRisk nodejieba_cut extractFeatures now2 qs).
Proof.
  intros H. unfold detectAigcRisk. cbn [report.paragraphReports].
  rewrite (map_fields (paragraphTokens nodejieba_cut) ps qs paragraphTokens_fields H).
  rewrite (map_fields (fun p => (text p, index p)) ps qs);
    [|by intros p q [= _ -> _ ->]| done].
  apply imap_fields; [|done]. intros i p q. apply paragraphReport_fields.
Qed.

(** C7, as amended: two runs on block lists with the same [id], [index],
    [kind] and [text] agree on the score, the tier, the paragraph reports and
    the limitations; [generatedAt] is the reading of the clock during each
    run and nothing else in the report depends on it. *)
Theorem detect_deterministic_but_for_clock
    (now1 now2 : Z) (blocks1 blocks2 : list DocxParagraph) :
  List.map block_fields blocks1 = List.map block_fields blocks2 ->
  let r1 := detectAigcRisk nodejieba_cut extractFeatures now1 blocks1 in
  let r2 := detectAigcRisk nodejieba_cut extractFeatures now2 blocks2 in
  report.overallRiskScore r1 = report.overallRiskScore r2 /\
  report.overallRiskLevel r1 = report.overallRiskLevel r2 /\
  report.paragraphReports r1 = report.paragraphReports r2 /\
  report.limitations r1 = report.limitations r2 /\
  report.generatedAt r1 = now1 /\
  report.generatedAt r2 = now2.
Proof.
  intros H r1 r2.
  pose proof (paragraphReports_fields now1 now2 blocks1 blocks2 H) as R.
  subst r1 r2. unfold detectAigcRisk in *. cbn [report.paragraphReports] in R.
  cbn [report.overallRiskScore report.overallRiskLevel report.paragraphReports
       report.limitations report.generatedAt].
  by rewrite R.
Qed.

(** C9: [detectAigcRisk] returns a report for every block list, with one
    paragraph report per block, also when the segmenter throws; on the empty
    list the score is 0, the tier is low and there is no paragraph report. *)
Theorem detect_total (now : Z) :
  (forall blocks,
     length (report.paragraphReports
               (detectAigcRisk nodejieba_cut extractFeatures now blocks))
     = length blocks) /\
  detectAigcRisk nodejieba_cut extractFeatures now []
  = {| report.generatedAt := now;
       report.overallRiskScore := 0;
       report.overallRiskLevel := low;
       report.paragraphReports := [];
       report.limitations := limitations_text |}.
Proof.
  split; [|reflexivity].
  intros blocks. unfold detectAigcRisk. cbn [report.paragraphReports].
  apply length_imap.
Qed.

(** ** Neighbour similarity *)

Lemma jaccard_empty_l b : jaccard ∅ b = 0%float.
Proof. reflexivity. Qed.

Lemma jaccard_empty_r a : jaccard a ∅ = 0%float.
Proof. unfold jaccard. rewrite size_empty. by rewrite orb_true_r. Qed.

Lemma paragraphTokens_empty_text p :
  text p = [] -> paragraphTokens nodejieba_cut p = ∅.
Proof. unfold paragraphTokens. by intros ->. Qed.

(** The weak-adjacency rule is the only one that pushes [topic_shift]. *)
Lemma topic_shift_in perParaTokens isomorphicSet i p :
  topic_shift ∈ paragraphSignals extractFeatures perParaTokens isomorphicSet i p <->
  (50 <=? charCount (extractFeatures (text p))) &&
  (minSim perParaTokens i <? 0.08)%float = true.
Proof.
  unfold paragraphSignals, when.
  set (c := (50 <=? charCount (extractFeatures (text p))) &&
            (minSim perParaTokens i <? 0.08)%float).
  rewrite !elem_of_app.
  split.
  - intros H. destruct c; [done|]. exfalso.
    repeat match type of H with
           | _ \/ _ => destruct H as [H|H]
           | _ ∈ (if ?b then _ else _) => destruct b
           | _ ∈ [_] => apply list_elem_of_singleton in H; discriminate H
           | _ ∈ [] => by apply not_elem_of_nil in H
           end.
  - intros ->. do 7 right. left. by apply list_elem_of_singleton.
Qed.

Lemma minSim_both_empty perParaTokens i cur :
  perParaTokens !! i = Some ∅ ->
  perParaTokens !! S i = Some cur ->
  perParaTokens !! S (S i) = Some ∅ ->
  minSim perParaTokens (S i) = 0%float.
Proof.
  intros Hp Hc Hn. unfold minSim. cbn [Nat.ltb Nat.leb].
  replace (S i - 1)%nat with i by lia. replace (S i + 1)%nat with (S (S i)) by lia.
  rewrite Hp, Hc, Hn. cbn [default]. by rewrite jaccard_empty_l, jaccard_empty_r.
Qed.

(** C10: the similarity is 0 as soon as one token set is empty; a block of
    at least 50 characters whose two neighbours have empty token sets (as a
    neighbour with empty text has) has the minimum similarity 0 and gets the
    weak-adjacency signal; a block without neighbours has the minimum
    similarity 1 and does not get it, and at the first block the missing
    predecessor counts as 1. *)
Theorem empty_neighbours_topic_shift
    (now : Z) (blocks : list DocxParagraph) (i : nat) (prev p next : DocxParagraph) :
  (forall t, charCount (extractFeatures t) = Z.of_nat (length t)) ->
  blocks !! i = Some prev -> blocks !! S i = Some p -> blocks !! S (S i) = Some next ->
  paragraphTokens nodejieba_cut prev = ∅ ->
  paragraphTokens nodejieba_cut next = ∅ ->
  (50 <= length (text p))%nat ->
  (forall a b, jaccard ∅ b = 0%float /\ jaccard a ∅ = 0%float) /\
  (forall q, text q = [] -> paragraphTokens nodejieba_cut q = ∅) /\
  minSim (List.map (paragraphTokens nodejieba_cut) blocks) (S i) = 0%float /\
  (exists r,
     report.paragraphReports (detectAigcRisk nodejieba_cut extractFeatures now blocks)
       !! S i = Some r /\
     topic_shift ∈ report.signals r) /\
  (forall q,
     minSim (List.map (paragraphTokens nodejieba_cut) [q]) 0 = 1%float /\
     Forall (fun r => topic_shift ∉ report.signals r)
       (report.paragraphReports
          (detectAigcRisk nodejieba_cut extractFeatures now [q]))) /\
  (forall tokens,
     minSim tokens 0
     = Math_min 1 (match tokens !! 1%nat with
                   | Some s => jaccard (default ∅ (tokens !! 0%nat)) s
                   | None => 1%float
                   end)).
Proof.
  intros Hchar Hprev Hp Hnext Eprev Enext Hlen.
  assert (M : minSim (List.map (paragraphTokens nodejieba_cut) blocks) (S i) = 0%float).
  { apply (minSim_both_empty _ i (paragraphTokens nodejieba_cut p)).
    - change (List.map ?f ?l) with (f <$> l). by rewrite list_lookup_fmap, Hprev, <- Eprev.
    - change (List.map ?f ?l) with (f <$> l). by rewrite list_lookup_fmap, Hp.
    - change (List.map ?f ?l) with (f <$> l). by rewrite list_lookup_fmap, Hnext, <- Enext. }
  split; [intros a b; split; [apply jaccard_empty_l | apply jaccard_empty_r]|].
  split; [apply paragraphTokens_empty_text|].
  split; [exact M|].
  split; [|split].
  - eexists. split.
    + unfold detectAigcRisk. cbn [report.paragraphReports].
      rewrite list_lookup_imap, Hp. reflexivity.
    + unfold paragraphReport. cbn [report.signals].
      apply topic_shift_in. rewrite M, Hchar.
      apply andb_true_iff. split; [apply Z.leb_le; lia | reflexivity].
  - intros q. split; [reflexivity|].
    unfold detectAigcRisk. cbn [report.paragraphReports imap].
    constructor; [|constructor].
    unfold paragraphReport. cbn [report.signals]. rewrite topic_shift_in.
    change (minSim (List.map (paragraphTokens nodejieba_cut) [q]) 0) with 1%float.
    rewrite andb_false_r. done.
  - intros tokens. reflexivity.
Qed.

End Detection.

(** C7, as the claim states it, fails: two runs on the same (empty) block
    list at two readings of the clock return two different reports. *)
Lemma clock_counterexample :
  detectAigcRisk failing_cut length_features 1700000000000 []
  <> detectAigcRisk failing_cut length_features 1700000000001 [].
Proof. intros H. apply (f_equal report.generatedAt) in H. discriminate H. Qed.

Lemma detect_deterministic_witness :
  List.map block_fields [block 0 (js "abc")]
  = List.map block_fields
      [{| id := js "p-0"; index := 0; kind := paragraph; text := js "abc";
          xml := js "<w:p><w:r><w:t>abc</w:t></w:r></w:p>" |}] /\
  (let r1 := detectAigcRisk failing_cut length_features 1
               [block 0 (js "abc")] in
   let r2 := detectAigcRisk failing_cut length_features 2
               [{| id := js "p-0"; index := 0; kind := paragraph; text := js "abc";
                   xml := js "<w:p><w:r><w:t>abc</w:t></w:r></w:p>" |}] in
   report.overallRiskScore r1 = report.overallRiskScore r2 /\
   report.overallRiskLevel r1 = report.overallRiskLevel r2 /\
   report.paragraphReports r1 = report.paragraphReports r2 /\
   report.limitations r1 = report.limitations r2 /\
   report.generatedAt r1 = 1 /\
   report.generatedAt r2 = 2).
Proof.
  split; [reflexivity|].
  apply (detect_deterministic_but_for_clock failing_cut length_features 1 2
           [block 0 (js "abc")]
           [{| id := js "p-0"; index := 0; kind := paragraph; text := js "abc";
               xml := js "<w:p><w:r><w:t>abc</w:t></w:r></w:p>" |}]).
  reflexivity.
Defined.

Lemma empty_neighbours_witness :
  (forall t, charCount (length_features t) = Z.of_nat (length t)) /\
  lonely_blocks !! 0%nat = Some (block 0 []) /\
  lonely_blocks !! 1%nat = Some (block 1 (repeat 97%N 50 ++ js " bb cc")) /\
  lonely_blocks !! 2%nat = Some (block 2 (js "  ")) /\
  paragraphTokens failing_cut (block 0 []) = ∅ /\
  paragraphTokens failing_cut (block 2 (js "  ")) = ∅ /\
  (50 <= length (text (block 1 (repeat 97%N 50 ++ js " bb cc"))))%nat /\
  minSim (List.map (paragraphTokens failing_cut) lonely_blocks) 1 = 0%float /\
  (exists r,
     report.paragraphReports (detectAigcRisk failing_cut length_features 0 lonely_blocks)
       !! 1%nat = Some r /\
     topic_shift ∈ report.signals r).
Proof.
  assert (H1 : forall t, charCount (length_features t) = Z.of_nat (length t))
    by reflexivity.
  assert (H2 : (50 <= length (text (block 1 (repeat 97%N 50 ++ js " bb cc"))))%nat)
    by (vm_compute; lia).
  pose proof (empty_neighbours_topic_shift failing_cut length_features 0 lonely_blocks
                0 (block 0 []) (block 1 (repeat 97%N 50 ++ js " bb cc"))
                (block 2 (js "  ")) H1 eq_refl eq_refl eq_refl eq_refl eq_refl H2)
    as (_ & _ & M & R & _).
  repeat (split; [reflexivity|]).
  split; [exact H2|]. split; [exact M | exact R].
Defined.

(* ================================================================= *)
(** * Further properties of the code *)

Lemma rendered_markup_free c :
  forallb (fun d => negb (markup d)) (rendered [38; 60; 62; 34; 39]%N c) = true.
Proof.
  reserved_cases c; try reflexivity.
  unfold rendered, entity_of, markup. cbn [existsb].
  rewrite !(proj2 (N.eqb_neq c _)) by done. cbn [orb forallb].
  rewrite !(proj2 (N.eqb_neq c _)) by done. reflexivity.
Qed.

Lemma forallb_flat_map {A B} (P : B -> bool) (f : A -> list B) l :
  (forall a, forallb P (f a) = true) -> forallb P (flat_map f l) = true.
Proof.
  intros H. induction l as [|a l IH]; [done|]. cbn [flat_map].
  rewrite forallb_app, H, IH. done.
Qed.

Lemma encode_no_markup (s : jsstring) :
  forallb (fun c => negb (markup c)) (encodeXmlText s) = true.
Proof. rewrite encode_flat_map. apply forallb_flat_map, rendered_markup_free. Qed.

(** X1: whatever the text, what [encodeXmlText] returns
    holds none of the characters [<], [>], the double quote and the
    apostrophe, so it can stand inside a [w:t] element or an attribute
    value. *)
Theorem encode_markup_free (s : jsstring) :
  forallb (fun c => negb (markup c)) (encodeXmlText s) = true.
Proof. apply encode_no_markup. Qed.

(** X2: [encodeXmlText] works one code unit at a time: the
    encoding of a concatenation is the concatenation of the encodings, the
    five passes never matching across the seam. *)
Theorem encode_concat (a b : jsstring) :
  encodeXmlText (a ++ b) = encodeXmlText a ++ encodeXmlText b.
Proof. rewrite !encode_flat_map. apply flat_map_app. Qed.

(** a pass whose pattern starts with a character that the text lacks *)
Lemma starts_with_absent c pat s :
  c ∉ s -> starts_with (c :: pat) s = false.
Proof.
  destruct s as [|d s]; [done|]. intros H. simpl.
  destruct (N.eqb_spec c d) as [->|]; [|done]. exfalso. apply H. left.
Qed.

Lemma replaceAll_absent c pat rep s :
  c ∉ s -> replaceAll (c :: pat) rep s = s.
Proof.
  induction s as [|d s IH]; [done|]. intros H.
  rewrite replaceAll_pass by (by apply starts_with_absent).
  f_equal. apply IH. intros X. apply H. by right.
Qed.

(** X3: a text without an ampersand is left as it is by
    [decodeXmlText], and by [encodeXmlText] too when it holds none of the
    four other reserved characters. *)
Theorem plain_text_unchanged (s : jsstring) :
  38%N ∉ s ->
  decodeXmlText s = s /\
  (forallb (fun c => negb (markup c)) s = true -> encodeXmlText s = s).
Proof.
  intros H. split.
  - unfold decodeXmlText, lt_entity, gt_entity, quot_entity, apos_entity, amp_entity.
    rewrite !(replaceAll_absent 38 _ _ s) by done. done.
  - intros M. rewrite encode_flat_map.
    induction s as [|c s IH]; [done|]. cbn [flat_map].
    cbn [forallb] in M. apply andb_true_iff in M as [Mc M].
    rewrite IH; [|intros X; apply H; by right|done].
    assert (c <> 38%N) by (intros ->; apply H; left).
    unfold rendered. cbn [existsb]. unfold markup in Mc.
    rewrite (proj2 (N.eqb_neq c 38)) by done.
    by destruct (N.eqb c 60), (N.eqb c 62), (N.eqb c 34), (N.eqb c 39).
Qed.

Lemma plain_text_witness :
(38%N ∉ js "plain text") /\
  decodeXmlText (js "plain text") = js "plain text" /\
  encodeXmlText (js "plain text") = js "plain text".
Proof.
  assert (H : 38%N ∉ js "plain text").
  { rewrite list_elem_of_In. cbn. intuition discriminate. }
  split; [exact H|].
  destruct (plain_text_unchanged (js "plain text") H) as [D E].
  split; [exact D|]. apply E. reflexivity.
Defined.

Lemma js_inj a b : js a = js b -> a = b.
Proof.
  unfold js. intros H.
  rewrite <- (string_of_list_ascii_of_string a), <- (string_of_list_ascii_of_string b).
  f_equal. revert H. generalize (list_ascii_of_string a) (list_ascii_of_string b).
  intros l. induction l as [|x l IH]; intros [|y l'] H; try done.
  simpl in H. injection H as H1 H2. f_equal; [|by apply IH].
  rewrite <- (ascii_N_embedding x), <- (ascii_N_embedding y). by rewrite H1.
Qed.

Lemma decimal_inj a b : decimal a = decimal b -> a = b.
Proof.
  unfold decimal. intros H. apply js_inj in H.
  apply (f_equal NilEmpty.uint_of_string) in H. rewrite !NilEmpty.usu in H.
  injection H as H. by apply DecimalNat.Unsigned.to_uint_inj.
Qed.

Lemma paragraph_id_inj a b : paragraph_id a = paragraph_id b -> a = b.
Proof. unfold paragraph_id. intros H. apply app_inv_head in H. by apply decimal_inj. Qed.

Lemma paragraphs_of_app l1 l2 : paragraphs_of (l1 ++ l2) = paragraphs_of l1 ++ paragraphs_of l2.
Proof. unfold paragraphs_of. apply flat_map_app. Qed.

Lemma paragraphs_of_chunk_opt (before : jsstring) parts :
  paragraphs_of (match before with [] => [] | _ :: _ => [PChunk before] end ++ parts)
  = paragraphs_of parts.
Proof. by destruct before. Qed.

Lemma split_loop_numbered fuel rest paraIndex tcDepth :
  List.map (fun p => (index p, id p)) (paragraphs_of (split_loop fuel rest paraIndex tcDepth))
  = List.map (fun i => (i, paragraph_id i))
      (seq paraIndex (length (paragraphs_of (split_loop fuel rest paraIndex tcDepth)))).
Proof.
  revert rest paraIndex tcDepth.
  induction fuel as [|fuel IH]; intros rest paraIndex tcDepth; [done|].
  cbn [split_loop].
  destruct (exec_from match_paragraphRe rest) as [[[before paraXml] after]|] eqn:E.
  - rewrite paragraphs_of_chunk_opt.
    change (paragraphs_of (PParagraph ?p :: ?l)) with (p :: paragraphs_of l).
    cbn [List.map length seq index id]. f_equal. apply IH.
  - by destruct rest.
Qed.

(** X4: the paragraphs that [splitDocumentXmlIntoParts]
    returns are numbered from 0 in the order of the document: the one at
    position [i] has index [i] and id [p-i], so no two share an id. *)
Theorem paragraphs_numbered (documentXml : jsstring) :
  let paragraphs := snd (splitDocumentXmlIntoParts documentXml) in
  (forall i p, paragraphs !! i = Some p -> index p = i /\ id p = paragraph_id i) /\
  NoDup (List.map id paragraphs).
Proof.
  cbn zeta. unfold splitDocumentXmlIntoParts. cbn [snd].
  pose proof (split_loop_numbered (S (length documentXml)) documentXml 0 0) as H.
  set (ps := paragraphs_of _) in *. split.
  - intros i p Hp.
    assert (L : List.map (fun p => (index p, id p)) ps !! i = Some (index p, id p))
      by (by rewrite list_lookup_fmap, Hp).
    rewrite H in L. rewrite list_lookup_fmap in L.
    destruct (seq 0 (length ps) !! i) as [j|] eqn:S; [|done].
    apply lookup_seq in S as [-> _]. simpl in L. by injection L as -> ->.
  - assert (E : List.map id ps = List.map paragraph_id (seq 0 (length ps))).
    { apply (f_equal (List.map snd)) in H. rewrite !List.map_map in H. exact H. }
    rewrite E. apply NoDup_fmap_2; [|apply NoDup_seq].
    intros a b. apply paragraph_id_inj.
Qed.

(** [exec] finds the leftmost position at which the pattern matches. *)
Lemma exec_from_Some {A} (m : jsstring -> option (A * jsstring)) s before a rest :
  exec_from m s = Some (before, a, rest) ->
  exists s', s = before ++ s' /\ m s' = Some (a, rest) /\
             forall pre post, before = pre ++ post -> post <> [] -> m (post ++ s') = None.
Proof.
  revert before. induction s as [|c s IH]; intros before H; [done|].
  cbn [exec_from] in H. destruct (m (c :: s)) as [[x r]|] eqn:M.
  - injection H as <- <- <-. exists (c :: s). split; [done|]. split; [done|].
    intros pre post E. by destruct pre, post.
  - destruct (exec_from m s) as [[[b x] r]|] eqn:E; [|done].
    injection H as <- <- <-. destruct (IH _ eq_refl) as (s' & -> & Hm & Hn).
    exists s'. split; [done|]. split; [done|].
    intros pre post E' Hp. destruct pre as [|c' pre].
    + simpl in E'. subst post. exact M.
    + injection E' as <- ->. by apply (Hn pre post).
Qed.

Lemma exec_from_None {A} (m : jsstring -> option (A * jsstring)) s :
  exec_from m s = None <-> forall pre post, s = pre ++ post -> post <> [] -> m post = None.
Proof.
  split.
  - induction s as [|c s IH]; intros H pre post E Hp.
    + by destruct pre, post.
    + cbn [exec_from] in H. destruct (m (c :: s)) as [[x r]|] eqn:M; [done|].
      destruct (exec_from m s) as [[[b x] r]|] eqn:E'; [done|].
      destruct pre as [|c' pre]; simpl in E.
      * by subst post.
      * injection E as <- ->. by apply (IH eq_refl pre).
  - induction s as [|c s IH]; intros H; [done|].
    cbn [exec_from]. rewrite (H [] (c :: s) eq_refl) by done.
    rewrite IH; [done|]. intros pre post -> Hp. by apply (H (c :: pre)).
Qed.

Lemma starts_with_app_l pat s t :
  starts_with pat s = true -> starts_with pat (s ++ t) = true.
Proof.
  revert s. induction pat as [|a pat IH]; intros s H; [done|].
  destruct s as [|b s]; [done|]. simpl in *.
  apply andb_true_iff in H as [-> H]. by apply IH.
Qed.

Lemma starts_with_app_inv pat u t :
  starts_with pat (u ++ t) = true -> (length pat <= length u)%nat ->
  starts_with pat u = true.
Proof.
  revert u. induction pat as [|a pat IH]; intros u H L; [done|].
  destruct u as [|d u]; [simpl in L; lia|]. simpl in *.
  apply andb_true_iff in H as [-> H]. apply IH; [done|lia].
Qed.

Lemma until_literal_app_l close s t body rest :
  until_literal close s = Some (body, rest) ->
  until_literal close (s ++ t) = Some (body, rest ++ t).
Proof.
  revert body rest. induction s as [|c s IH]; intros body rest H.
  - simpl in H. destruct close; [|done]. injection H as <- <-. by destruct t.
  - cbn [until_literal] in H. destruct (starts_with close (c :: s)) eqn:E.
    + injection H as <- <-. change ((c :: s) ++ t) with (c :: (s ++ t)).
      cbn [until_literal]. change (c :: (s ++ t)) with ((c :: s) ++ t).
      rewrite (starts_with_app_l _ _ _ E). f_equal. f_equal.
      rewrite skipn_app.
      assert (length close <= length (c :: s))%nat.
      { apply starts_with_skipn in E. apply (f_equal length) in E.
        rewrite length_app in E. lia. }
      replace (length close - length (c :: s))%nat with 0%nat by lia. done.
    + destruct (until_literal close s) as [[b r]|] eqn:U; [|done].
      injection H as <- <-. change ((c :: s) ++ t) with (c :: (s ++ t)).
      cbn [until_literal]. rewrite (IH _ _ eq_refl).
      destruct (starts_with close (c :: s ++ t)) eqn:E'; [|done].
      exfalso. apply until_literal_length in U.
      change (c :: s ++ t) with ((c :: s) ++ t) in E'.
      apply starts_with_app_inv in E'; [congruence|]. simpl. lia.
Qed.

Lemma tag_at_app_l name s t :
  tag_at name s = true -> (length name < length s)%nat -> tag_at name (s ++ t) = true.
Proof.
  unfold tag_at. intros H L. apply andb_true_iff in H as [H1 H2].
  rewrite (starts_with_app_l _ _ _ H1). simpl.
  rewrite skipn_app. destruct (skipn (length name) s) as [|c u] eqn:E.
  - apply (f_equal length) in E. rewrite length_skipn in E. simpl in E. lia.
  - done.
Qed.

Lemma match_paragraphRe_app_l s t paraXml rest :
  match_paragraphRe s = Some (paraXml, rest) ->
  match_paragraphRe (s ++ t) = Some (paraXml, rest ++ t).
Proof.
  unfold match_paragraphRe. destruct (tag_at tag_p s) eqn:T; [|done].
  destruct (until_literal close_p (skipn 4 s)) as [[body r]|] eqn:U; [|done].
  intros [= <- <-].
  assert (L : (4 < length s)%nat).
  { apply until_literal_length in U. rewrite length_skipn in U.
    change (length close_p) with 6%nat in U. lia. }
  rewrite tag_at_app_l by done.
  rewrite skipn_app. replace (4 - length s)%nat with 0%nat by lia.
  change (skipn 0 t) with t.
  by rewrite (until_literal_app_l _ _ _ _ _ U).
Qed.

(** The first occurrence is the leftmost one. *)
Lemma until_literal_leftmost close s body rest pre post :
  until_literal close s = Some (body, rest) -> s = pre ++ close ++ post ->
  (length body <= length pre)%nat.
Proof.
  revert s body rest. induction pre as [|c pre IH]; intros s body rest H E.
  - subst s. simpl in H. destruct (close ++ post) as [|d u] eqn:X.
    + simpl in H. destruct (starts_with close []); [|done]. by injection H as <- <-.
    + cbn [until_literal] in H. rewrite <- X, starts_with_app in H.
      by injection H as <- <-.
  - subst s. change ((c :: pre) ++ close ++ post) with (c :: (pre ++ close ++ post)) in H.
    cbn [until_literal] in H.
    destruct (starts_with close (c :: pre ++ close ++ post)).
    + injection H as <- <-. simpl. lia.
    + destruct (until_literal close (pre ++ close ++ post)) as [[b r]|] eqn:U; [|done].
      injection H as <- <-. simpl. specialize (IH _ _ _ U eq_refl). lia.
Qed.


Lemma match_paragraphRe_shape s paraXml rest :
  match_paragraphRe s = Some (paraXml, rest) ->
  tag_at tag_p paraXml = true /\
  (exists body, paraXml = tag_p ++ body ++ close_p) /\
  (forall pre post, paraXml = pre ++ close_p ++ post -> post = []).
Proof.
  unfold match_paragraphRe. destruct (tag_at tag_p s) eqn:T; [|done].
  destruct (until_literal close_p (skipn 4 s)) as [[body r]|] eqn:U; [|done].
  intros [= <- <-]. split; [|split].
  - pose proof (tag_at_skipn _ _ T) as E. change (length tag_p) with 4%nat in E.
    rewrite (until_literal_app _ _ _ _ U) in E. rewrite E in T.
    destruct body as [|c body]; [reflexivity|exact T].
  - by exists body.
  - intros pre post E.
    destruct pre as [|c0 [|c1 [|c2 [|c3 pre]]]]; try discriminate E.
    injection E as <- <- <- <- E.
    assert (X : skipn 4 s = pre ++ close_p ++ (post ++ r)).
    { apply until_literal_app in U. rewrite U.
      rewrite (app_assoc body), E. by rewrite <- !app_assoc. }
    pose proof (until_literal_leftmost _ _ _ _ _ _ U X) as L.
    apply (f_equal length) in E. rewrite !length_app in E.
    destruct post; [done|]. simpl in E. lia.
Qed.

Lemma split_loop_shape fuel rest paraIndex tcDepth :
  (length rest < fuel)%nat ->
  Forall fragment_shape (split_loop fuel rest paraIndex tcDepth).
Proof.
  revert rest paraIndex tcDepth.
  induction fuel as [|fuel IH]; intros rest paraIndex tcDepth Hf; [lia|].
  cbn [split_loop].
  destruct (exec_from match_paragraphRe rest) as [[[before paraXml] after]|] eqn:E.
  - pose proof (exec_paragraphRe_app _ _ _ _ E) as [_ L].
    apply exec_from_Some in E as (s' & -> & M & N).
    apply Forall_app. split.
    + destruct before as [|b before]; [constructor|].
      constructor; [|constructor]. split; [done|].
      apply exec_from_None. intros pre post E Hp.
      specialize (N pre post E Hp).
      destruct (match_paragraphRe post) as [[x r]|] eqn:M'; [|done].
      apply (match_paragraphRe_app_l _ s') in M'. congruence.
    + constructor.
      * simpl. by apply match_paragraphRe_shape in M.
      * apply IH. lia.
  - destruct rest as [|c rest]; constructor; [|constructor]. by split.
Qed.

(** X5: every part of a document is a fragment of the
    kind it is tagged with.  A paragraph part starts with [<w:p] at a word
    boundary and ends with the first [</w:p>] after it; a chunk is not empty
    and the paragraph pattern matches nowhere in it, so no paragraph is left
    inside a chunk. *)
Theorem parts_are_fragments (documentXml : jsstring) :
  Forall fragment_shape (fst (splitDocumentXmlIntoParts documentXml)).
Proof. unfold splitDocumentXmlIntoParts. cbn [fst]. apply split_loop_shape. lia. Qed.

(** ** Trailing white space *)

Lemma drop_spaces_head s c u : drop_spaces s = c :: u -> is_space c = false.
Proof.
  induction s as [|d s IH]; [done|]. simpl.
  destruct (is_space d) eqn:E; [done|]. by intros [= <- <-].
Qed.

Lemma drop_spaces_split s :
  exists ws, s = ws ++ drop_spaces s /\ forallb is_space ws = true.
Proof.
  induction s as [|d s (ws & E & F)]; [by exists []|]. simpl.
  destruct (is_space d) eqn:S.
  - exists (d :: ws). split; [simpl; by f_equal|]. simpl. by rewrite S.
  - by exists [].
Qed.

Lemma trimEnd_spec s :
  (exists ws, s = trimEnd s ++ ws /\ forallb is_space ws = true) /\
  (forall c, last (trimEnd s) = Some c -> is_space c = false).
Proof.
  unfold trimEnd. split.
  - destruct (drop_spaces_split (rev s)) as (ws & E & F).
    exists (rev ws). split.
    + rewrite <- rev_app_distr, <- E. by rewrite rev_involutive.
    + rewrite forallb_forall in *. intros x Hx. apply F. by apply in_rev.
  - intros c H. destruct (drop_spaces (rev s)) as [|d u] eqn:E; [done|].
    simpl in H. rewrite last_snoc in H. injection H as <-.
    by apply drop_spaces_head in E.
Qed.

(** X7: the text of a paragraph is the text of its
    tokens with the white space at the end, and nothing else, taken off: it
    never ends with white space. *)
Theorem extracted_text_trimmed (paragraphXml : jsstring) :
  let raw := concat (List.map token_text (matchAll match_tokenRe paragraphXml)) in
  (exists ws, raw = extractParagraphText paragraphXml ++ ws /\ forallb is_space ws = true) /\
  (forall c, last (extractParagraphText paragraphXml) = Some c -> is_space c = false).
Proof. apply trimEnd_spec. Qed.

(** ** Table cells *)


Lemma occurs_app_l pat s t : occurs pat s -> occurs pat (s ++ t).
Proof. intros (pre & post & ->). exists pre, (post ++ t). by rewrite <- !app_assoc. Qed.

Lemma occurs_app_r pat s t : occurs pat t -> occurs pat (s ++ t).
Proof. intros (pre & post & ->). exists (s ++ pre), post. by rewrite <- !app_assoc. Qed.

Lemma exec_openRe_occurs s before a rest :
  exec_from match_openRe s = Some (before, a, rest) -> occurs tag_tc s.
Proof.
  revert before. induction s as [|c s IH]; intros before H; [done|].
  cbn [exec_from] in H. destruct (match_openRe (c :: s)) as [[x r]|] eqn:M.
  - unfold match_openRe in M. destruct (tag_at tag_tc (c :: s)) eqn:T; [|done].
    apply tag_at_skipn in T. exists [], (skipn (length tag_tc) (c :: s)). by rewrite <- T.
  - destruct (exec_from match_openRe s) as [[[b x] r]|] eqn:E; [|done].
    injection H as <- <- <-.
    destruct (IH _ eq_refl) as (pre & post & ->). by exists (c :: pre), post.
Qed.

Lemma opens_occurs fragment : 0 < opens fragment -> occurs tag_tc fragment.
Proof.
  unfold opens, matchAll. destruct (length fragment) as [|fuel]; [simpl; lia|].
  cbn [matchAll_go].
  destruct (exec_from match_openRe fragment) as [[[b x] r]|] eqn:E; [|simpl; lia].
  intros _. by apply exec_openRe_occurs in E.
Qed.

Lemma fragment_depth_source fragment d :
  0 <= d -> 0 < fragment_depth fragment d -> 0 < d \/ occurs tag_tc fragment.
Proof.
  unfold fragment_depth. intros Hd H.
  destruct (Z.ltb_spec 0 (opens fragment)); [right; by apply opens_occurs|].
  left. unfold closes in H. lia.
Qed.

Lemma depths_app l1 l2 d :
  depths (l1 ++ l2) d
  = depths l1 d ++ depths l2 (fold_left (fun d part => fragment_depth (part_xml part) d) l1 d).
Proof. revert d. induction l1 as [|x l1 IH]; intros d; [done|]. simpl. by rewrite IH. Qed.

Lemma depth_source before d :
  0 <= d ->
  0 < fold_left (fun d part => fragment_depth (part_xml part) d) before d ->
  0 < d \/ occurs tag_tc (join before).
Proof.
  revert d. induction before as [|x before IH]; intros d Hd H; [by left|].
  cbn [fold_left] in H.
  destruct (IH _ (fragment_depth_nonneg _ _) H) as [H1|H1].
  - destruct (fragment_depth_source _ _ Hd H1) as [?|O]; [by left|].
    right. unfold join. cbn [List.map concat]. by apply occurs_app_l.
  - right. unfold join. cbn [List.map concat]. by apply occurs_app_r.
Qed.

(** X6: a paragraph is classified as a table-cell
    paragraph only if [<w:tc] occurs in the document before it. *)
Theorem table_cell_needs_open_tag (documentXml : jsstring)
    (before after : list DocumentXmlParts) (p : DocxParagraph) :
  fst (splitDocumentXmlIntoParts documentXml) = before ++ PParagraph p :: after ->
  kind p = tableCellParagraph ->
  occurs tag_tc (join before).
Proof.
  intros E K.
  pose proof (split_loop_classified (S (length documentXml)) documentXml 0 0 (Z.le_refl 0)) as C.
  unfold splitDocumentXmlIntoParts in E. cbn [fst] in E. rewrite E in C.
  rewrite depths_app in C. apply Forall2_app_inv_l in C as (k1 & k2 & C1 & C2 & Ek).
  assert (L : length (depths before 0) = length k1).
  { apply Forall2_length in C1. rewrite <- C1. clear. generalize 0.
    induction before as [|x l IH]; intros d; [done|]. simpl. by rewrite IH. }
  apply app_inj_1 in Ek as [_ <-]; [|done].
  cbn [depths] in C2. apply Forall2_cons_1 in C2 as [[C2 _] _].
  apply C2 in K. apply depth_source in K as [K|K]; [lia|done|lia].
Qed.


Lemma table_cell_witness :
  fst (splitDocumentXmlIntoParts cell_document)
  = [PChunk (js "<w:tc>")] ++ PParagraph cell_paragraph :: [PChunk (js "</w:tc>")] /\
  kind cell_paragraph = tableCellParagraph /\
  occurs tag_tc (join [PChunk (js "<w:tc>")]).
Proof.
  assert (E : fst (splitDocumentXmlIntoParts cell_document)
              = [PChunk (js "<w:tc>")] ++ PParagraph cell_paragraph
                :: [PChunk (js "</w:tc>")]) by (vm_compute; reflexivity).
  split; [exact E|]. split; [reflexivity|].
  exact (table_cell_needs_open_tag cell_document _ _ _ E eq_refl).
Defined.














Lemma lacks_app c s t : lacks c (s ++ t) = lacks c s && lacks c t.
Proof. apply forallb_app. Qed.

Lemma lacks_cons c d s : lacks c (d :: s) = negb (N.eqb d c) && lacks c s.
Proof. done. Qed.


Lemma starts_with_straddle pat post u :
  lacks 60 pat = true -> opens_tag u ->
  starts_with pat (post ++ u) = true -> starts_with pat post = true.
Proof.
  revert post. induction pat as [|a pat IH]; intros post Hp Hu H; [done|].
  rewrite lacks_cons in Hp. apply andb_true_iff in Hp as [Ha Hp].
  destruct post as [|c post].
  - simpl in H. destruct Hu as [->|[u' ->]]; [done|].
    apply andb_true_iff in H as [H _]. apply N.eqb_eq in H as ->. done.
  - simpl in *. apply andb_true_iff in H as [-> H]. by apply IH.
Qed.

Lemma tag_at_straddle name post u :
  lacks 60 name = true -> opens_tag u -> post <> [] ->
  tag_at (60%N :: name) post = false -> tag_at (60%N :: name) (post ++ u) = false.
Proof.
  intros Hn Hu Hp H. destruct post as [|c post]; [done|].
  unfold tag_at in *. cbn [starts_with length skipn app] in *.
  destruct (N.eqb 60 c); [|done]. cbn [andb] in *.
  destruct (starts_with name (post ++ u)) eqn:S; [|done].
  apply starts_with_straddle in S; [|done..]. rewrite S in H. cbn [andb] in *.
  rewrite skipn_app.
  destruct (skipn (length name) post) as [|d v]; [done|]. exact H.
Qed.

Lemma token_start_straddle post u :
  opens_tag u -> post <> [] -> token_start post = false -> token_start (post ++ u) = false.
Proof.
  intros Hu Hp H. unfold token_start in *.
  apply orb_false_iff in H as [H H4]. apply orb_false_iff in H as [H H3].
  apply orb_false_iff in H as [H1 H2].
  pose proof (tag_at_straddle (js "w:t") post u eq_refl Hu Hp H1) as X1.
  pose proof (tag_at_straddle (js "w:tab") post u eq_refl Hu Hp H2) as X2.
  pose proof (tag_at_straddle (js "w:br") post u eq_refl Hu Hp H3) as X3.
  pose proof (tag_at_straddle (js "w:cr") post u eq_refl Hu Hp H4) as X4.
  change (tag_at tag_t (post ++ u) = false) in X1.
  change (tag_at tag_tab (post ++ u) = false) in X2.
  change (tag_at tag_br (post ++ u) = false) in X3.
  change (tag_at tag_cr (post ++ u) = false) in X4.
  by rewrite X1, X2, X3, X4.
Qed.

Lemma quiet_suffix pre post : quiet (pre ++ post) = true -> quiet post = true.
Proof.
  induction pre as [|c pre IH]; [done|]. simpl. intros H.
  apply andb_true_iff in H as [_ H]. by apply IH.
Qed.

Lemma quiet_token_start post : quiet post = true -> post <> [] -> token_start post = false.
Proof.
  destruct post as [|c post]; [done|]. simpl. intros H _.
  apply andb_true_iff in H as [H _]. by apply negb_true_iff in H.
Qed.

(** In quiet markup followed by a tag, or by nothing, no token starts. *)
Lemma quiet_no_token b pre post u :
  quiet b = true -> b = pre ++ post -> post <> [] -> opens_tag u ->
  token_start (post ++ u) = false.
Proof.
  intros Q -> Hp Hu. apply token_start_straddle; [done..|].
  apply quiet_token_start; [|done]. by apply quiet_suffix in Q.
Qed.

Lemma is_space_not_word c : is_space c = true -> is_word c = false.
Proof.
  intros H. apply not_true_is_false. intros W.
  unfold is_space in H. unfold is_word in W.
  rewrite !orb_true_iff, !andb_true_iff, !N.leb_le, !N.eqb_eq in H.
  rewrite !orb_true_iff, !andb_true_iff, !N.leb_le, !N.eqb_eq in W. lia.
Qed.

Lemma match_empty_tag_tag_at name s rest :
  match_empty_tag name s = Some rest -> tag_at name s = true.
Proof.
  unfold match_empty_tag, tag_at. destruct (starts_with name s); [|done]. cbn [andb].
  destruct (skipn (length name) s) as [|d v]; [done|]. cbn [drop_spaces].
  destruct (is_space d) eqn:S.
  - intros _. by rewrite is_space_not_word.
  - destruct (starts_with slash_gt (d :: v)) eqn:E; [|done]. intros _.
    unfold slash_gt in E. cbn [starts_with] in E.
    apply andb_true_iff in E as [E _]. by apply N.eqb_eq in E as <-.
Qed.

Lemma no_token_start s :
  token_start s = false -> match_tokenRe s = None /\ match_tRe s = None.
Proof.
  unfold token_start. intros H.
  apply orb_false_iff in H as [H H4]. apply orb_false_iff in H as [H H3].
  apply orb_false_iff in H as [H1 H2].
  assert (L : match_leaf s = None) by (unfold match_leaf; by rewrite H1).
  split; [|unfold match_tRe; by rewrite L].
  unfold match_tokenRe. rewrite L.
  destruct (match_empty_tag tag_tab s) eqn:E1.
  { apply match_empty_tag_tag_at in E1. congruence. }
  assert (B : match_br s = None) by (unfold match_br; by rewrite H3). rewrite B.
  destruct (match_empty_tag tag_cr s) eqn:E2; [|done].
  apply match_empty_tag_tag_at in E2. congruence.
Qed.

Lemma until_literal_here close s :
  starts_with close s = true -> until_literal close s = Some ([], skipn (length close) s).
Proof. intros H. destruct s; cbn [until_literal]; by rewrite H. Qed.

Lemma until_literal_later close b s :
  starts_with close (b :: s) = false ->
  until_literal close (b :: s)
  = match until_literal close s with
    | Some (body, rest) => Some (b :: body, rest)
    | None => None
    end.
Proof. intros H. cbn [until_literal]. by rewrite H. Qed.

Lemma until_literal_found close rest :
  until_literal close (close ++ rest) = Some ([], rest).
Proof.
  rewrite until_literal_here by apply starts_with_app.
  by rewrite drop_app_length.
Qed.

Lemma until_literal_absent c close body rest :
  lacks c body = true ->
  until_literal (c :: close) (body ++ (c :: close) ++ rest) = Some (body, rest).
Proof.
  intros H. induction body as [|b body IH]; [apply (until_literal_found (c :: close))|].
  rewrite lacks_cons in H. apply andb_true_iff in H as [Hb H].
  change ((b :: body) ++ ?x) with (b :: (body ++ x)).
  rewrite until_literal_later.
  - by rewrite IH.
  - simpl. apply negb_true_iff in Hb. by rewrite N.eqb_sym, Hb.
Qed.

Lemma match_leaf_leaf a c rest :
  plain_attr a = true -> lacks 60 c = true ->
  match_leaf (leaf a c ++ rest) = Some (a, c, rest).
Proof.
  intros Ha Hc. unfold plain_attr in Ha.
  apply andb_true_iff in Ha as [Ha Hw]. apply andb_true_iff in Ha as [Ha _].
  apply andb_true_iff in Ha as [_ Ha].
  unfold match_leaf, leaf.
  assert (T : tag_at tag_t ((tag_t ++ a ++ gt ++ c ++ close_t) ++ rest) = true).
  { destruct a as [|d a]; [reflexivity|]. unfold tag_at. simpl. exact Hw. }
  rewrite T. rewrite <- !app_assoc.
  change (skipn 4 (tag_t ++ ?x)) with x.
  rewrite (until_literal_absent 62 [] a) by done.
  change close_t with (60%N :: js "/w:t>").
  by rewrite (until_literal_absent 60 (js "/w:t>") c).
Qed.

Lemma exec_from_skip {A} (m : jsstring -> option (A * jsstring)) b s :
  (forall pre post, b = pre ++ post -> post <> [] -> m (post ++ s) = None) ->
  exec_from m (b ++ s)
  = match exec_from m s with
    | Some (x, a, r) => Some (b ++ x, a, r)
    | None => None
    end.
Proof.
  induction b as [|c b IH]; intros H.
  - simpl. by destruct (exec_from m s) as [[[x a] r]|].
  - change ((c :: b) ++ s) with (c :: (b ++ s)). cbn [exec_from].
    change (c :: (b ++ s)) with ((c :: b) ++ s).
    rewrite (H [] (c :: b) eq_refl) by done.
    rewrite IH; [by destruct (exec_from m s) as [[[x a] r]|]|].
    intros pre post -> Hp. by apply (H (c :: pre)).
Qed.

Lemma exec_from_here {A} (m : jsstring -> option (A * jsstring)) s a r :
  m s = Some (a, r) -> s <> [] -> exec_from m s = Some ([], a, r).
Proof. intros H Hs. destruct s; [done|]. cbn [exec_from]. by rewrite H. Qed.

Lemma matchAll_found {A} (m : jsstring -> option (A * jsstring)) s b a rest :
  consumes m -> exec_from m s = Some (b, a, rest) ->
  matchAll m s = a :: matchAll m rest.
Proof.
  intros Hm E. unfold matchAll. pose proof (exec_from_shorter m s b a rest Hm E) as L.
  destruct (length s) as [|n] eqn:Ls; [lia|]. cbn [matchAll_go]. rewrite E. f_equal.
  apply matchAll_go_fuel; [done|lia|lia].
Qed.

Lemma matchAll_none {A} (m : jsstring -> option (A * jsstring)) s :
  exec_from m s = None -> matchAll m s = [].
Proof.
  intros E. unfold matchAll. destruct (length s); [done|]. cbn [matchAll_go]. by rewrite E.
Qed.

(** The matches of a pattern that reads leaves and nothing that quiet markup
    holds: one per leaf, in order. *)
Lemma matchAll_runs {A} (m : jsstring -> option (A * jsstring))
    (f : jsstring -> jsstring -> A) b0 runs :
  consumes m ->
  (forall s, token_start s = false -> m s = None) ->
  (forall a c rest, plain_attr a = true -> lacks 60 c = true ->
                    m (leaf a c ++ rest) = Some (f a c, rest)) ->
  quiet b0 = true -> forallb plain_run runs = true ->
  matchAll m (b0 ++ runs_xml runs)
  = List.map (fun r => f (leaf_attr r) (leaf_content r)) runs.
Proof.
  intros Hm Hq Hl. revert b0. induction runs as [|r runs IH]; intros b0 Q P.
  - simpl. rewrite app_nil_r. apply matchAll_none. apply exec_from_None.
    intros pre post E Hp. apply Hq. 
    rewrite <- (app_nil_r post). by apply (quiet_no_token b0 pre); [| | |left].
  - cbn [forallb] in P. apply andb_true_iff in P as [Pr P].
    unfold plain_run in Pr. apply andb_true_iff in Pr as [Pr Pg].
    apply andb_true_iff in Pr as [Pa Pc].
    cbn [runs_xml flat_map]. unfold run_xml at 1. rewrite <- app_assoc.
    fold (runs_xml runs).
    rewrite (matchAll_found m _ b0 (f (leaf_attr r) (leaf_content r))
               (leaf_gap r ++ runs_xml runs) Hm).
    + cbn [List.map]. f_equal. by apply IH.
    + rewrite exec_from_skip.
      * rewrite (exec_from_here m _ (f (leaf_attr r) (leaf_content r))
                   (leaf_gap r ++ runs_xml runs)); [by rewrite app_nil_r|by apply Hl|done].
      * intros pre post E Hp. apply Hq. apply (quiet_no_token b0 pre); [done..|].
        right. by eexists.
Qed.

(** ** Replacement of a leaf *)

Lemma getSubstitution_plain matched before after captures template :
  lacks 36 template = true ->
  getSubstitution matched before after captures template = template.
Proof.
  induction template as [|c t IH]; [done|]. rewrite lacks_cons.
  intros H. apply andb_true_iff in H as [Hc H]. cbn [getSubstitution].
  replace (negb (N.eqb c 36)) with true. by rewrite IH.
Qed.

Lemma replace_string_plain str pat repl :
  lacks 36 repl = true ->
  replace_string str pat repl
  = match until_literal pat str with
    | Some (x, r) => x ++ repl ++ r
    | None => str
    end.
Proof.
  intros H. unfold replace_string.
  destruct (until_literal pat str) as [[x r]|]; [|done].
  by rewrite getSubstitution_plain.
Qed.

Lemma until_literal_skip pat b s :
  (forall pre post, b = pre ++ post -> post <> [] -> starts_with pat (post ++ s) = false) ->
  until_literal pat (b ++ s)
  = match until_literal pat s with
    | Some (x, r) => Some (b ++ x, r)
    | None => None
    end.
Proof.
  induction b as [|c b IH]; intros H.
  - simpl. by destruct (until_literal pat s) as [[x r]|].
  - change ((c :: b) ++ s) with (c :: (b ++ s)).
    rewrite until_literal_later by apply (H [] (c :: b) eq_refl ltac:(done)).
    rewrite IH; [by destruct (until_literal pat s) as [[x r]|]|].
    intros pre post -> Hp. by apply (H (c :: pre)).
Qed.

Lemma replace_string_skip b s pat repl :
  lacks 36 repl = true ->
  (forall pre post, b = pre ++ post -> post <> [] -> starts_with pat (post ++ s) = false) ->
  replace_string (b ++ s) pat repl = b ++ replace_string s pat repl.
Proof.
  intros Hr H. rewrite !replace_string_plain by done.
  rewrite until_literal_skip by done.
  destruct (until_literal pat s) as [[x r]|]; [|done]. by rewrite <- app_assoc.
Qed.

(** Where a leaf starts, a token starts. *)
Lemma starts_with_leaf_tag_at a c u :
  plain_attr a = true -> starts_with (leaf a c) u = true -> tag_at tag_t u = true.
Proof.
  intros Ha H. apply starts_with_skipn in H. rewrite H.
  unfold plain_attr in Ha. apply andb_true_iff in Ha as [_ Hw].
  unfold leaf. rewrite <- !app_assoc.
  destruct a as [|d a]; [reflexivity|]. unfold tag_at. simpl. exact Hw.
Qed.

Lemma quiet_inert b s a c :
  quiet b = true -> opens_tag s -> plain_attr a = true ->
  forall pre post, b = pre ++ post -> post <> [] -> starts_with (leaf a c) (post ++ s) = false.
Proof.
  intros Q Hs Ha pre post E Hp.
  destruct (starts_with (leaf a c) (post ++ s)) eqn:S; [|done].
  apply starts_with_leaf_tag_at in S; [|done].
  pose proof (quiet_no_token b pre post s Q E Hp Hs) as N.
  unfold token_start in N. rewrite S in N. done.
Qed.

(** Inside a leaf no tag opens, but for the close tag. *)
Lemma leaf_tail_inert u rest :
  lacks 60 u = true ->
  forall pre post, u ++ close_t = pre ++ post -> post <> [] ->
                   starts_with [60; 119]%N (post ++ rest) = false.
Proof.
  induction u as [|d u IH]; intros H pre post E Hp.
  - simpl in E.
    destruct pre as [|p0 [|p1 [|p2 [|p3 [|p4 [|p5 pre]]]]]];
      simpl in E; try (subst post; reflexivity);
      try (injection E as <- <- <- <- <- <- E; by destruct pre, post);
      try (injection E as <- E; subst post; reflexivity);
      try (injection E as <- <- E; subst post; reflexivity);
      try (injection E as <- <- <- E; subst post; reflexivity);
      try (injection E as <- <- <- <- E; subst post; reflexivity);
      try (injection E as <- <- <- <- <- E; subst post; reflexivity).
  - rewrite lacks_cons in H. apply andb_true_iff in H as [Hd H].
    destruct pre as [|p pre].
    + simpl in E. subst post. cbn [app starts_with]. apply negb_true_iff in Hd.
      by rewrite N.eqb_sym, Hd.
    + simpl in E. injection E as <- E. by apply (IH H pre).
Qed.

Lemma leaf_inert x y a c rest :
  lacks 60 x = true -> lacks 60 y = true ->
  forall pre post, leaf x y = pre ++ post -> pre <> [] -> post <> [] ->
                   starts_with (leaf a c) (post ++ rest) = false.
Proof.
  intros Hx Hy pre post E Hpre Hp.
  destruct pre as [|p pre]; [done|]. unfold leaf in E. unfold tag_t in E.
  simpl in E. injection E as <- E.
  assert (U : lacks 60 (js "w:t" ++ x ++ gt ++ y) = true).
  { rewrite !lacks_app, Hx, Hy. reflexivity. }
  pose proof (leaf_tail_inert (js "w:t" ++ x ++ gt ++ y) rest U pre post) as N.
  rewrite <- !app_assoc in N. specialize (N E Hp).
  unfold leaf, tag_t. cbn [app js List.map list_ascii_of_string] in *.
  destruct (post ++ rest) as [|q0 [|q1 v]]; [done| |].
  - simpl. by rewrite andb_false_r.
  - cbn [starts_with] in *. rewrite andb_true_r in N. rewrite andb_assoc, N. done.
Qed.

Lemma leaf_inj a c a' c' :
  lacks 62 a = true -> lacks 62 a' = true -> leaf a c = leaf a' c' -> a = a' /\ c = c'.
Proof.
  intros Ha Ha' E. unfold leaf in E. apply app_inv_head in E.
  assert (X : forall u v u' v', lacks 62 u = true -> lacks 62 u' = true ->
                u ++ gt ++ v = u' ++ gt ++ v' -> u = u' /\ v = v').
  { clear. induction u as [|d u IH]; intros v u' v' H H' E.
    - destruct u' as [|d' u']; [by injection E as ->|].
      simpl in E. injection E as <- E. by rewrite lacks_cons in H'.
    - destruct u' as [|d' u'].
      + simpl in E. injection E as -> E. by rewrite lacks_cons in H.
      + simpl in E. injection E as <- E. rewrite lacks_cons in H, H'.
        apply andb_true_iff in H as [_ H]. apply andb_true_iff in H' as [_ H'].
        destruct (IH _ _ _ H H' E) as [-> ->]. done. }
  destruct (X _ _ _ _ Ha Ha' E) as [-> E']. split; [done|].
  by apply app_inv_tail in E'.
Qed.

Lemma plain_attr_lacks a :
  plain_attr a = true -> lacks 60 a = true /\ lacks 62 a = true /\ lacks 36 a = true.
Proof.
  unfold plain_attr. intros H. apply andb_true_iff in H as [H _].
  apply andb_true_iff in H as [H H3]. by apply andb_true_iff in H as [H1 H2].
Qed.

Lemma starts_with_leaf_eq a c x y rest :
  plain_attr a = true -> lacks 60 c = true ->
  plain_attr x = true -> lacks 60 y = true ->
  starts_with (leaf a c) (leaf x y ++ rest) = true -> x = a /\ y = c.
Proof.
  intros Ha Hc Hx Hy S. apply starts_with_skipn in S.
  pose proof (match_leaf_leaf x y rest Hx Hy) as M1. rewrite S in M1.
  rewrite match_leaf_leaf in M1 by done. by injection M1 as -> -> _.
Qed.

Lemma replace_string_leaf a c x y rest repl :
  plain_attr a = true -> lacks 60 c = true ->
  plain_attr x = true -> lacks 60 y = true -> lacks 36 repl = true ->
  replace_string (leaf x y ++ rest) (leaf a c) repl
  = if bool_decide (x = a /\ y = c) then repl ++ rest
    else leaf x y ++ replace_string rest (leaf a c) repl.
Proof.
  intros Ha Hc Hx Hy Hr. case_bool_decide as D.
  - destruct D as [-> ->]. rewrite replace_string_plain by done.
    by rewrite until_literal_found.
  - apply replace_string_skip; [done|]. intros pre post E Hp.
    destruct pre as [|p pre].
    + simpl in E. subst post.
      destruct (starts_with (leaf a c) (leaf x y ++ rest)) eqn:S; [|done].
      by apply starts_with_leaf_eq in S.
    + apply (leaf_inert x y a c rest) with (pre := p :: pre); try done.
      * by apply plain_attr_lacks in Hx as [? _].
Qed.

Lemma replace_string_runs a c a' c' b0 runs :
  plain_attr a = true -> lacks 60 c = true -> lacks 36 (leaf a' c') = true ->
  quiet b0 = true -> forallb plain_run runs = true ->
  replace_string (b0 ++ runs_xml runs) (leaf a c) (leaf a' c')
  = b0 ++ runs_xml (subst_first a c a' c' runs).
Proof.
  intros Ha Hc Hr. revert b0. induction runs as [|r runs IH]; intros b0 Q P.
  - simpl. rewrite replace_string_skip; [|done|].
    + f_equal.
    + intros pre post E Hp. by apply (quiet_inert b0 [] a c Q ltac:(by left) Ha pre).
  - cbn [forallb] in P. apply andb_true_iff in P as [Pr P].
    unfold plain_run in Pr. apply andb_true_iff in Pr as [Pr Pg].
    apply andb_true_iff in Pr as [Pa Pc].
    rewrite replace_string_skip; [|done|].
    2:{ intros pre post E Hp.
        eapply (quiet_inert b0 _ a c Q); [|exact Ha|exact E|exact Hp].
        right. by eexists. }
    f_equal. cbn [runs_xml flat_map subst_first]. unfold run_xml at 1.
    rewrite <- app_assoc. rewrite replace_string_leaf by done.
    case_bool_decide as D.
    + cbn [flat_map]. unfold run_xml at 2. cbn [leaf_attr leaf_content leaf_gap].
      by rewrite <- app_assoc.
    + cbn [flat_map]. unfold run_xml at 2. rewrite <- app_assoc. f_equal.
      by apply IH.
Qed.

(** ** The write-back, run by run *)

Lemma subst_first_plain a c a' c' runs :
  plain_attr a' = true -> lacks 60 c' = true ->
  forallb plain_run runs = true -> forallb plain_run (subst_first a c a' c' runs) = true.
Proof.
  intros Ha Hc. induction runs as [|r runs IH]; [done|].
  cbn [forallb subst_first]. intros P. apply andb_true_iff in P as [Pr P].
  case_bool_decide as D.
  - cbn [forallb]. rewrite P, andb_true_r. unfold plain_run in *.
    cbn [leaf_attr leaf_content leaf_gap]. rewrite Ha, Hc.
    apply andb_true_iff in Pr as [_ ->]. done.
  - cbn [forallb]. by rewrite Pr, IH.
Qed.

Lemma first_attr_plain a : plain_attr a = true -> plain_attr (first_attr a) = true.
Proof.
  unfold first_attr. destruct (contains xml_space_eq a); [done|].
  intros H. pose proof (plain_attr_lacks a H) as (H1 & H2 & H3).
  unfold plain_attr in *. rewrite !lacks_app, H1, H2, H3.
  apply andb_true_iff in H as [_ H]. destruct a; [reflexivity|exact H].
Qed.

Lemma leaf_first_attr a E :
  (if contains xml_space_eq a then tag_t ++ a ++ gt else tag_t ++ a ++ preserve_attr ++ gt)
  ++ E ++ close_t = leaf (first_attr a) E.
Proof.
  unfold first_attr, leaf. destruct (contains xml_space_eq a); by rewrite <- !app_assoc.
Qed.

Lemma lacks_leaf a c :
  lacks 36 a = true -> lacks 36 c = true -> lacks 36 (leaf a c) = true.
Proof. intros Ha Hc. unfold leaf. rewrite !lacks_app, Ha, Hc. reflexivity. Qed.

Lemma encode_lacks_lt t : lacks 60 (encodeXmlText t) = true.
Proof.
  pose proof (encode_no_markup t) as H. unfold lacks.
  rewrite forallb_forall in *. intros c Hc. specialize (H c Hc).
  unfold markup in H. destruct (N.eqb c 60); [done|done].
Qed.

Lemma encode_lacks_dollar t : lacks 36 t = true -> lacks 36 (encodeXmlText t) = true.
Proof.
  intros H. rewrite encode_flat_map. induction t as [|c t IH]; [done|].
  rewrite lacks_cons in H. apply andb_true_iff in H as [Hc H].
  cbn [flat_map]. rewrite lacks_app, IH, andb_true_r by done.
  reserved_cases c; try reflexivity.
  unfold rendered, entity_of. cbn [existsb].
  rewrite !(proj2 (N.eqb_neq c _)) by done. cbn [orb]. by rewrite lacks_cons, Hc.
Qed.

Lemma fold_replace_runs b0 others S :
  quiet b0 = true -> forallb plain_run others = true -> forallb plain_run S = true ->
  fold_left (fun out (m : jsstring * jsstring) =>
               replace_string out (fst m) (tag_t ++ snd m ++ gt ++ close_t))
    (List.map (fun r => (leaf (leaf_attr r) (leaf_content r), leaf_attr r)) others)
    (b0 ++ runs_xml S)
  = b0 ++ runs_xml
            (fold_left (fun acc r => subst_first (leaf_attr r) (leaf_content r)
                                                 (leaf_attr r) [] acc) others S).
Proof.
  intros Q. revert S. induction others as [|r others IH]; intros S P PS; [done|].
  cbn [forallb] in P. apply andb_true_iff in P as [Pr P].
  unfold plain_run in Pr. apply andb_true_iff in Pr as [Pr Pg].
  apply andb_true_iff in Pr as [Pa Pc].
  pose proof (plain_attr_lacks _ Pa) as (H1 & H2 & H3).
  cbn [List.map fold_left fst snd].
  change (tag_t ++ leaf_attr r ++ gt ++ close_t) with (leaf (leaf_attr r) []).
  rewrite replace_string_runs; [|done|done|by apply lacks_leaf|done|done].
  apply IH; [done|]. by apply subst_first_plain.
Qed.

Lemma match_tRe_leaf a c rest :
  plain_attr a = true -> lacks 60 c = true ->
  match_tRe (leaf a c ++ rest) = Some ((leaf a c, a), rest).
Proof. intros Ha Hc. unfold match_tRe. by rewrite match_leaf_leaf. Qed.

Lemma match_tokenRe_leaf a c rest :
  plain_attr a = true -> lacks 60 c = true ->
  match_tokenRe (leaf a c ++ rest) = Some (TText c, rest).
Proof. intros Ha Hc. unfold match_tokenRe. by rewrite match_leaf_leaf. Qed.

Lemma replaceParagraph_runs b0 runs t :
  runs <> [] -> quiet b0 = true -> forallb plain_run runs = true -> lacks 36 t = true ->
  replaceParagraphTextInXml (b0 ++ runs_xml runs) t
  = b0 ++ runs_xml (patched_runs (encodeXmlText t) runs).
Proof.
  intros Hn Q P Ht. unfold replaceParagraphTextInXml.
  rewrite (matchAll_runs match_tRe (fun a c => (leaf a c, a)) b0 runs
             match_tRe_consumes (fun s H => proj2 (no_token_start s H)) match_tRe_leaf Q P).
  destruct runs as [|r1 others]; [done|]. cbn [List.map].
  cbn [forallb] in P. apply andb_true_iff in P as [Pr Po].
  pose proof Pr as Pr'.
  unfold plain_run in Pr. apply andb_true_iff in Pr as [Pr Pg].
  apply andb_true_iff in Pr as [Pa Pc].
  pose proof (plain_attr_lacks _ (first_attr_plain _ Pa)) as (H1 & H2 & H3).
  rewrite leaf_first_attr.
  rewrite replace_string_runs;
    [|done|done|apply lacks_leaf; [done|by apply encode_lacks_dollar]|done|
     cbn [forallb]; by rewrite Pr', Po].
  unfold patched_runs. apply fold_replace_runs; [done|done|].
  apply subst_first_plain; [by apply first_attr_plain|apply encode_lacks_lt|].
  cbn [forallb]. by rewrite Pr', Po.
Qed.

Lemma extract_runs b0 runs :
  quiet b0 = true -> forallb plain_run runs = true ->
  extractParagraphText (b0 ++ runs_xml runs)
  = trimEnd (concat (List.map (fun r => decodeXmlText (leaf_content r)) runs)).
Proof.
  intros Q P. unfold extractParagraphText.
  rewrite (matchAll_runs match_tokenRe (fun a c => TText c) b0 runs
             match_tokenRe_consumes (fun s H => proj1 (no_token_start s H))
             match_tokenRe_leaf Q P).
  by rewrite List.map_map.
Qed.

Lemma leaf_run_eta r :
  r = {| leaf_attr := leaf_attr r; leaf_content := leaf_content r; leaf_gap := leaf_gap r |}.
Proof. by destruct r. Qed.

(** Emptying a leaf among leaves that are empty already changes nothing. *)
Lemma subst_first_blank D a c X :
  blank D ->
  (subst_first a c a [] (D ++ X) = D ++ X /\ c = []) \/
  subst_first a c a [] (D ++ X) = D ++ subst_first a c a [] X.
Proof.
  induction D as [|r D IH]; intros B; [by right|].
  apply Forall_cons in B as [Br B]. cbn [app subst_first].
  case_bool_decide as Dc.
  - left. destruct Dc as [Ea Ec]. rewrite Br in Ec. subst c. split; [|done].
    f_equal. rewrite (leaf_run_eta r) at 2. by rewrite Ea, Br.
  - destruct (IH B) as [[-> ->]| ->]; [by left|by right].
Qed.

Lemma blank_app D1 D2 : blank D1 -> blank D2 -> blank (D1 ++ D2).
Proof. intros. by apply Forall_app. Qed.

Lemma holder_step E D a c g T :
  holder E D ->
  exists D', subst_first a c a [] (D ++ {| leaf_attr := a; leaf_content := c; leaf_gap := g |} :: T)
             = D' ++ T /\ holder E D'.
Proof.
  intros (D1 & r & D2 & -> & Er & B1 & B2).
  set (own := {| leaf_attr := a; leaf_content := c; leaf_gap := g |}).
  set (gone := {| leaf_attr := a; leaf_content := []; leaf_gap := g |}).
  assert (Own : subst_first a c a [] (own :: T) = gone :: T).
  { cbn [subst_first leaf_attr leaf_content leaf_gap]. by rewrite bool_decide_eq_true_2. }
  rewrite <- !app_assoc.
  destruct (subst_first_blank D1 a c ((r :: D2) ++ own :: T) B1) as [[-> ->]| ->].
  { exists ((D1 ++ r :: D2) ++ [own]). split; [by rewrite <- !app_assoc|].
    exists D1, r, (D2 ++ [own]). split; [by rewrite <- !app_assoc|].
    split; [done|]. split; [done|]. apply blank_app; [done|]. by repeat constructor. }
  cbn [app subst_first]. case_bool_decide as Dc.
  { destruct Dc as [Ea Ec].
    exists ((D1 ++ {| leaf_attr := a; leaf_content := []; leaf_gap := leaf_gap r |} :: D2)
            ++ [own]).
    split; [by rewrite <- !app_assoc|].
    exists (D1 ++ {| leaf_attr := a; leaf_content := []; leaf_gap := leaf_gap r |} :: D2),
           own, []. split; [done|]. split; [simpl; congruence|].
    split; [|constructor]. apply blank_app; [done|]. by constructor. }
  destruct (subst_first_blank D2 a c (own :: T) B2) as [[-> ->]| ->].
  { exists ((D1 ++ r :: D2) ++ [own]). split; [by rewrite <- !app_assoc|].
    exists D1, r, (D2 ++ [own]). split; [by rewrite <- !app_assoc|].
    split; [done|]. split; [done|]. apply blank_app; [done|]. by repeat constructor. }
  rewrite Own.
  exists ((D1 ++ r :: D2) ++ [gone]). split; [by rewrite <- !app_assoc|].
  exists D1, r, (D2 ++ [gone]). split; [by rewrite <- !app_assoc|].
  split; [done|]. split; [done|]. apply blank_app; [done|]. by repeat constructor.
Qed.

Lemma holder_fold E others D :
  holder E D ->
  holder E (fold_left (fun acc r => subst_first (leaf_attr r) (leaf_content r)
                                                (leaf_attr r) [] acc) others (D ++ others)).
Proof.
  revert D. induction others as [|r others IH]; intros D H.
  - by rewrite app_nil_r.
  - cbn [fold_left].
    destruct (holder_step E D (leaf_attr r) (leaf_content r) (leaf_gap r) others H)
      as (D' & X & H'). rewrite <- leaf_run_eta in X. rewrite X. by apply IH.
Qed.

Lemma holder_patched E runs : runs <> [] -> holder E (patched_runs E runs).
Proof.
  destruct runs as [|r1 others]; [done|]. intros _. unfold patched_runs.
  cbn [subst_first]. rewrite bool_decide_eq_true_2 by done.
  apply (holder_fold E others [_]).
  eexists [], _, []. split; [done|]. split; [done|]. split; constructor.
Qed.

Lemma blank_text D :
  blank D -> concat (List.map (fun r => decodeXmlText (leaf_content r)) D) = [].
Proof.
  induction 1 as [|r D Hr _ IH]; [done|]. cbn [List.map concat]. by rewrite Hr, IH.
Qed.

Lemma holder_text E D :
  holder E D ->
  concat (List.map (fun r => decodeXmlText (leaf_content r)) D) = decodeXmlText E.
Proof.
  intros (D1 & r & D2 & -> & <- & B1 & B2).
  rewrite List.map_app, concat_app. cbn [List.map concat].
  by rewrite !blank_text, app_nil_r.
Qed.

Lemma patched_runs_plain E runs :
  lacks 60 E = true -> forallb plain_run runs = true ->
  forallb plain_run (patched_runs E runs) = true.
Proof.
  intros HE P. destruct runs as [|r1 others]; [done|]. unfold patched_runs.
  assert (P1 : plain_attr (leaf_attr r1) = true).
  { cbn [forallb] in P. apply andb_true_iff in P as [P _]. unfold plain_run in P.
    apply andb_true_iff in P as [P _]. by apply andb_true_iff in P as [P _]. }
  assert (Po : forallb plain_run others = true).
  { cbn [forallb] in P. by apply andb_true_iff in P as [_ P]. }
  pose proof (subst_first_plain (leaf_attr r1) (leaf_content r1)
                (first_attr (leaf_attr r1)) E (r1 :: others)
                (first_attr_plain _ P1) HE P) as P0.
  revert P0. generalize (subst_first (leaf_attr r1) (leaf_content r1)
                           (first_attr (leaf_attr r1)) E (r1 :: others)).
  clear P P1. revert Po.
  induction others as [|r others IH]; intros Po S PS; [done|].
  cbn [forallb] in Po. apply andb_true_iff in Po as [Pr Po].
  cbn [fold_left]. apply IH; [done|]. apply subst_first_plain; [|done|done].
  unfold plain_run in Pr. apply andb_true_iff in Pr as [Pr _].
  by apply andb_true_iff in Pr as [Pr _].
Qed.



(** X9: writing a text without [$] back into such a
    paragraph, with one text leaf at least, and extracting again gives the
    text that was written, less the white space at its end.  This holds also
    when several leaves are the same string, and when the new first leaf is
    the same string as a later one. *)
Theorem patch_then_extract (b0 : jsstring) (runs : list leaf_run) (t : jsstring) :
  runs <> [] -> quiet b0 = true -> forallb plain_run runs = true -> lacks 36 t = true ->
  extractParagraphText (replaceParagraphTextInXml (b0 ++ runs_xml runs) t) = trimEnd t.
Proof.
  intros Hn Q P Ht. rewrite replaceParagraph_runs by done.
  rewrite extract_runs; [|done|apply patched_runs_plain; [apply encode_lacks_lt|done]].
  rewrite (holder_text (encodeXmlText t)) by (by apply holder_patched).
  by rewrite encode_flat_map, decode_flat_map.
Qed.

Lemma patch_then_extract_witness :
  sample_runs <> [] /\ quiet sample_lead = true /\
  forallb plain_run sample_runs = true /\ lacks 36 (js "a < b & c  ") = true /\
  extractParagraphText
    (replaceParagraphTextInXml (sample_lead ++ runs_xml sample_runs) (js "a < b & c  "))
  = js "a < b & c".
Proof.
  assert (Hn : sample_runs <> []) by discriminate.
  split; [exact Hn|]. split; [reflexivity|]. split; [reflexivity|]. split; [reflexivity|].
  rewrite (patch_then_extract sample_lead sample_runs (js "a < b & c  ")
             Hn eq_refl eq_refl eq_refl).
  reflexivity.
Defined.

(** The paragraph of the example after the write-back: the first leaf has
    the text, the second is empty, the run properties are kept. *)
Example patch_sample :
  replaceParagraphTextInXml (sample_lead ++ runs_xml sample_runs) (js "a < b & c")
  = sample_lead ++ js "<w:t" ++ preserve_attr ++ js ">a &lt; b &amp; c</w:t></w:r><w:r><w:t"
    ++ preserve_attr ++ js "></w:t></w:r></w:p>".
Proof. vm_compute. reflexivity. Qed.

(** ** A paragraph without a text leaf *)





Lemma until_literal_occurs close pre post :
  exists b r, until_literal close (pre ++ close ++ post) = Some (b, r).
Proof.
  induction pre as [|c pre (b & r & IH)].
  - exists [], post. apply (until_literal_found close).
  - change ((c :: pre) ++ ?x) with (c :: (pre ++ x)). cbn [until_literal].
    destruct (starts_with close (c :: pre ++ close ++ post)); [by eexists _, _|].
    rewrite IH. by eexists _, _.
Qed.










Example insert_sample :
  replaceParagraphTextInXml sample_empty_paragraph (js "new text")
  = js "<w:p><w:pPr><w:jc w:val=" ++ quot ++ js "left" ++ quot
    ++ js "/></w:pPr><w:r><w:t" ++ preserve_attr ++ js ">new text</w:t></w:r></w:p>".
Proof. vm_compute. reflexivity. Qed.

(** ** The shape of a report *)

Lemma when_sublist c s : when c s `sublist_of` [s].
Proof. destruct c; simpl; [done|]. apply sublist_nil_l. Qed.

Ltac rules_sublist :=
  repeat match goal with
         | |- (when ?c ?s ++ _) `sublist_of` (?s :: ?l) =>
             apply (sublist_app (when c s) [s] _ l); [apply when_sublist|]
         | |- when ?c ?s `sublist_of` [?s] => apply when_sublist
         end.

Lemma rule_signals_well_formed strong signals :
  signals `sublist_of` rule_signals strong -> well_formed_signals signals.
Proof.
  intros H. split; [|split; [|split]].
  - apply (sublist_NoDup (List.map signalId signals)
                          (List.map signalId (rule_signals strong))).
    + destruct strong; cbn;
        repeat (apply NoDup_cons_2;
                [rewrite list_elem_of_In; cbn; intuition discriminate|]);
        apply NoDup_nil_2.
    + by apply (fmap_sublist signalId).
  - apply Forall_forall. intros s Hs. apply (elem_of_sublist _ _ _ Hs) in H.
    clear Hs. revert s H. apply Forall_forall.
    destruct strong; repeat constructor; cbn; lia.
  - apply sublist_length in H. by destruct strong.
  - intros [H1 H2]. destruct strong.
    + apply (elem_of_sublist _ _ _ H2), list_elem_of_In in H.
      cbn in H. intuition discriminate.
    + apply (elem_of_sublist _ _ _ H1), list_elem_of_In in H.
      cbn in H. intuition discriminate.
Qed.

Section Reports.
Variable nodejieba_cut : jsstring -> option (list jsstring).
Variable extractFeatures : jsstring -> ParagraphFeatures.

Lemma paragraphSignals_rules perParaTokens isomorphicSet i p :
  exists strong,
    paragraphSignals extractFeatures perParaTokens isomorphicSet i p
    `sublist_of` rule_signals strong.
Proof.
  unfold paragraphSignals. cbv zeta.
  set (c9 := (_ <? _)%float && (_ <=? 1)).
  exists c9. unfold rule_signals. rules_sublist.
  destruct c9.
  - apply (sublist_app [_] [_] _ (_ :: _)); [done|]. rules_sublist.
  - rules_sublist.
Qed.

(** X11: [detectAigcRisk] returns one report per
    block, in the order of the blocks, each with the id, index, kind and text
    of its block.  In every report the signal ids are pairwise distinct,
    every signal scores between 10 and 18, there are at most 20 signals, and
    the two signals on unsupported claims never come together. *)
Theorem reports_well_formed (now : Z) (paragraphs : list DocxParagraph) :
  Forall2 (fun p r => reports_block p r /\ well_formed_signals (report.signals r))
    paragraphs
    (report.paragraphReports (detectAigcRisk nodejieba_cut extractFeatures now paragraphs)).
Proof.
  unfold detectAigcRisk. cbn [report.paragraphReports].
  generalize (List.map (paragraphTokens nodejieba_cut) paragraphs).
  generalize (detectStructuralIsomorphism (List.map (fun p => (text p, index p)) paragraphs)).
  intros iso toks. apply Forall2_same_length_lookup. split.
  - by rewrite length_imap.
  - intros i p r Hp Hr. rewrite list_lookup_imap, Hp in Hr. injection Hr as <-.
    split; [done|]. unfold paragraphReport. cbn [report.signals].
    destruct (paragraphSignals_rules toks iso i p) as [strong H].
    by apply (rule_signals_well_formed strong).
Qed.

End Reports.

(** ** Structural isomorphism *)

Lemma in_isomorphic_window_cons x paragraphs j :
  in_isomorphic_window (x :: paragraphs) j <->
  (exists b c rest, paragraphs = b :: c :: rest /\
                    window_isomorphic (fst x) (fst b) (fst c) = true /\
                    (j = snd x \/ j = snd b \/ j = snd c)) \/
  in_isomorphic_window paragraphs j.
Proof.
  split.
  - intros (i & a & b & c & Ha & Hb & Hc & W & J). destruct i as [|i].
    + left. simpl in Ha. injection Ha as ->.
      destruct paragraphs as [|b' [|c' rest]]; try done.
      simpl in Hb, Hc. injection Hb as ->. injection Hc as ->. by exists b, c, rest.
    + right. by exists i, a, b, c.
  - intros [(b & c & rest & -> & W & J)|(i & a & b & c & Ha & Hb & Hc & W & J)].
    + by exists 0%nat, x, b, c.
    + by exists (S i), a, b, c.
Qed.

Lemma isomorphism_windows_spec paragraphs acc j :
  j ∈ isomorphism_windows paragraphs acc <->
  j ∈ acc \/ in_isomorphic_window paragraphs j.
Proof.
  revert acc. induction paragraphs as [|a paragraphs IH]; intros acc.
  - simpl. split; [by left|]. intros [?|(i & ? & ? & ? & H & _)]; [done|by destruct i].
  - rewrite in_isomorphic_window_cons.
    destruct paragraphs as [|b [|c rest]].
    + simpl. split; [by left|]. intros [?|[(? & ? & ? & ? & _)|(i & ? & ? & ? & H & _)]];
        [done|done|by destruct i].
    + simpl. split; [by left|].
      intros [?|[(? & ? & ? & ? & _)|(i & ? & ? & ? & _ & H & _)]]; [done|done|].
      by destruct i as [|[|i]].
    + change (isomorphism_windows (a :: b :: c :: rest) acc)
        with (isomorphism_windows (b :: c :: rest)
                (if window_isomorphic (fst a) (fst b) (fst c)
                 then {[snd a]} ∪ ({[snd b]} ∪ ({[snd c]} ∪ acc)) else acc)).
      rewrite IH. destruct (window_isomorphic (fst a) (fst b) (fst c)) eqn:W.
      * rewrite !elem_of_union, !elem_of_singleton. split.
        -- intros [[?|[?|[?|?]]]|?]; try (by right; right); try (by left);
             right; left; exists b, c, rest; auto.
        -- intros [?|[(b' & c' & rest' & E & _ & J)|?]]; [auto|..|auto].
           injection E as <- <- <-. destruct J as [?|[?|?]]; auto.
      * split.
        -- intros [?|?]; auto.
        -- intros [?|[(b' & c' & rest' & E & W' & J)|?]]; [auto|..|auto].
           injection E as <- <- <-. congruence.
Qed.

(** X12: [detectStructuralIsomorphism] flags an index
    exactly when it is the index of one of three consecutive blocks that
    pass the test of a window; with fewer than three blocks nothing is
    flagged. *)
Theorem isomorphism_flags (paragraphs : list (jsstring * nat)) (j : nat) :
  (j ∈ detectStructuralIsomorphism paragraphs <-> in_isomorphic_window paragraphs j) /\
  ((length paragraphs < 3)%nat -> detectStructuralIsomorphism paragraphs = ∅).
Proof.
  split.
  - unfold detectStructuralIsomorphism. rewrite isomorphism_windows_spec.
    split; [intros [H|H]; [set_solver|done]|by right].
  - intros L. by destruct paragraphs as [|a [|b [|c rest]]]; [..|simpl in L; lia].
Qed.

(** ** [unique] *)

Lemma unique_go_spec {A} `{EqDecision A} (seen arr : list A) :
  NoDup (unique_go seen arr) /\
  (forall x, x ∈ unique_go seen arr <-> x ∈ arr /\ x ∉ seen) /\
  unique_go seen arr `sublist_of` arr.
Proof.
  revert seen. induction arr as [|a arr IH]; intros seen.
  - simpl. split; [constructor|]. split; [|done]. intros x. set_solver.
  - cbn [unique_go]. case_bool_decide as D.
    + destruct (IH seen) as (N & M & S). split; [done|]. split.
      * intros x. rewrite M. set_solver.
      * by apply sublist_cons.
    + destruct (IH (a :: seen)) as (N & M & S). split; [|split].
      * apply NoDup_cons. split; [|done]. intros X. apply M in X. set_solver.
      * intros x. rewrite elem_of_cons, M. split.
        -- intros [->|[? ?]]; set_solver.
        -- intros [Hx Hs]. apply elem_of_cons in Hx as [->|Hx]; [by left|].
           destruct (decide (x = a)); set_solver.
      * by apply sublist_skip.
Qed.

Lemma unique_go_NoDup {A} `{EqDecision A} (seen arr : list A) :
  NoDup arr -> (forall x, x ∈ arr -> x ∉ seen) -> unique_go seen arr = arr.
Proof.
  revert seen. induction arr as [|a arr IH]; intros seen N D; [done|].
  apply NoDup_cons in N as [Na N]. cbn [unique_go].
  rewrite bool_decide_eq_false_2 by (apply D; left). f_equal.
  apply IH; [done|]. intros x Hx. rewrite not_elem_of_cons. split.
  - intros ->. done.
  - apply D. by right.
Qed.

(** X13: [unique] keeps the first occurrence of every member,
    in order: the result has no duplicates, has the members of the list, is a
    sublist of it, and a list without duplicates is returned as it is (so
    [unique] applied twice is [unique]). *)
Theorem unique_spec {A} `{EqDecision A} (arr : list A) :
  NoDup (unique arr) /\
  (forall x, x ∈ unique arr <-> x ∈ arr) /\
  unique arr `sublist_of` arr /\
  (NoDup arr -> unique arr = arr) /\
  unique (unique arr) = unique arr.
Proof.
  destruct (unique_go_spec [] arr) as (N & M & S). unfold unique.
  split; [done|]. split; [intros x; rewrite M; set_solver|]. split; [done|].
  split.
  - intros Na. apply unique_go_NoDup; [done|]. intros x _. apply not_elem_of_nil.
  - apply unique_go_NoDup; [done|]. intros x _. apply not_elem_of_nil.
Qed.

(** ** [countOccurrences] *)

Lemma match_needle_consumes n : n <> [] -> consumes (match_needle n).
Proof.
  intros Hn s a rest. unfold match_needle. destruct (starts_with n s) eqn:S; [|done].
  intros [= _ <-]. apply starts_with_skipn in S. apply (f_equal length) in S.
  rewrite length_app in S. destruct n; [done|]. simpl in *. lia.
Qed.

Lemma exec_needle_occurs n s :
  n <> [] -> (exists r, exec_from (match_needle n) s = Some r) <-> occurs n s.
Proof.
  intros Hn. split.
  - intros [[[b a] r] E]. apply exec_from_Some in E as (s' & -> & M & _).
    unfold match_needle in M. destruct (starts_with n s') eqn:S; [|done].
    apply starts_with_skipn in S. exists b, (skipn (length n) s'). by rewrite <- S.
  - intros (pre & post & ->).
    destruct (exec_from (match_needle n) (pre ++ n ++ post)) as [r|] eqn:E; [by exists r|].
    exfalso. rewrite exec_from_None in E.
    specialize (E pre (n ++ post) eq_refl). unfold match_needle in E.
    rewrite starts_with_app in E. discriminate E. by destruct n.
Qed.

Lemma occurrences_pos n text :
  n <> [] -> (0 < occurrences n text)%nat <-> occurs n text.
Proof.
  intros Hn. rewrite <- (exec_needle_occurs n text Hn). unfold occurrences. split.
  - intros L. destruct (exec_from (match_needle n) text) as [r|] eqn:E; [by exists r|].
    rewrite matchAll_none in L by done. simpl in L. lia.
  - intros [[[b a] r] E]. rewrite (matchAll_found _ _ _ _ _ (match_needle_consumes n Hn) E).
    simpl. lia.
Qed.

Lemma countOccurrences_fold text needles acc :
  fold_left (countOccurrences_step text) needles acc
  = (fst acc + foldr (fun n a => Z.of_nat (occurrences n text) + a) 0
                 (List.filter (hit text) needles),
     snd acc ++ List.filter (hit text) needles).
Proof.
  revert acc. induction needles as [|n needles IH]; intros [c h].
  - simpl. by rewrite Z.add_0_r, app_nil_r.
  - cbn [fold_left List.filter]. rewrite IH. unfold countOccurrences_step, hit.
    destruct (nonempty n); [|done]. cbn [andb].
    destruct (0 <? occurrences n text)%nat; [|done].
    cbn [fst snd foldr]. rewrite <- app_assoc. f_equal. lia.
Qed.

Lemma sum_occurrences text l :
  Forall (fun n => hit text n = true) l ->
  Z.of_nat (length l) <= foldr (fun n a => Z.of_nat (occurrences n text) + a) 0 l.
Proof.
  induction 1 as [|n l Hn _ IH]; [done|]. cbn [foldr length].
  unfold hit in Hn. apply andb_true_iff in Hn as [_ Hn]. apply Nat.ltb_lt in Hn. lia.
Qed.

Lemma nonempty_spec (s : jsstring) : nonempty s = true <-> s <> [].
Proof. by destruct s. Qed.

(** X14: the hits of [countOccurrences] are, without
    duplicates, the needles that are not empty and occur in the text; the
    count is at least the number of hits, and it is 0 exactly when there is
    no hit. *)
Theorem countOccurrences_spec (text : jsstring) (needles : list jsstring) :
  let count := fst (countOccurrences text needles) in
  let hits := snd (countOccurrences text needles) in
  NoDup hits /\
  (forall h, h ∈ hits <-> h ∈ needles /\ h <> [] /\ occurs h text) /\
  Z.of_nat (length hits) <= count /\
  (count = 0 <-> hits = []).
Proof.
  cbn zeta. unfold countOccurrences. rewrite countOccurrences_fold. cbn [fst snd app].
  set (found := List.filter (hit text) needles).
  destruct (unique_go_spec [] found) as (N & M & S). fold (unique found) in N, M, S.
  assert (F : Forall (fun n => hit text n = true) found).
  { apply Forall_forall. intros n Hn. unfold found in Hn.
    apply list_elem_of_In, filter_In in Hn. tauto. }
  pose proof (sum_occurrences text found F) as L.
  pose proof (sublist_length _ _ S) as L'.
  split; [done|]. split; [|split]. 2: lia.
  - intros h. rewrite M. unfold found. rewrite list_elem_of_In, filter_In.
    rewrite <- list_elem_of_In. unfold hit. rewrite andb_true_iff, nonempty_spec.
    rewrite Nat.ltb_lt. split.
    + intros [[? [? O]] _]. split; [done|]. split; [done|]. by apply occurrences_pos.
    + intros (? & ? & O). split; [|apply not_elem_of_nil]. split; [done|]. split; [done|].
      by apply occurrences_pos.
  - assert (E : unique found = [] -> found = []).
    { intros U. destruct (decide (found = [])) as [|Hf]; [done|]. exfalso.
      destruct (found) as [|n l] eqn:Ef; [done|].
      assert (X : n ∈ unique (n :: l)) by (apply M; split; [left|apply not_elem_of_nil]).
      rewrite U in X. by apply not_elem_of_nil in X. }
    split.
    + intros Z0. assert (length found = 0)%nat as Ef%nil_length_inv by lia.
      by rewrite Ef.
    + intros U. by rewrite (E U).
Qed.

(** ** [normalizeText] and [tokenizeZh] *)

Lemma drop_spaces_id s :
  (forall c, head s = Some c -> is_space c = false) -> drop_spaces s = s.
Proof. destruct s as [|c s]; [done|]. intros H. simpl. by rewrite (H c). Qed.

Lemma trimEnd_id s :
  (forall c, last s = Some c -> is_space c = false) -> trimEnd s = s.
Proof.
  intros H. unfold trimEnd. rewrite drop_spaces_id; [apply rev_involutive|].
  intros c Hc. apply H. destruct s as [|d s] using rev_ind; [done|].
  rewrite rev_app_distr in Hc. simpl in Hc. injection Hc as ->. by rewrite last_snoc.
Qed.

Lemma trim_ends s :
  (forall c, head (trim s) = Some c -> is_space c = false) /\
  (forall c, last (trim s) = Some c -> is_space c = false).
Proof.
  unfold trim. destruct (trimEnd_spec (drop_spaces s)) as [(ws & E & _) L].
  split; [|done]. intros c Hc.
  destruct (trimEnd (drop_spaces s)) as [|d u] eqn:T; [done|].
  simpl in Hc. injection Hc as ->. simpl in E. by apply drop_spaces_head in E.
Qed.

Lemma trim_trim s : trim (trim s) = trim s.
Proof.
  destruct (trim_ends s) as [H L]. unfold trim at 1.
  rewrite drop_spaces_id by done. by apply trimEnd_id.
Qed.

(** [trim] cuts white space off both ends. *)
Lemma trim_infix s :
  exists ws1 ws2, s = ws1 ++ trim s ++ ws2 /\
                  forallb is_space ws1 = true /\ forallb is_space ws2 = true.
Proof.
  destruct (drop_spaces_split s) as (ws1 & E1 & F1).
  destruct (trimEnd_spec (drop_spaces s)) as [(ws2 & E2 & F2) _].
  exists ws1, ws2. unfold trim. by rewrite <- E2.
Qed.

Lemma occurs_infix pat s pre post : occurs pat s -> occurs pat (pre ++ s ++ post).
Proof. intros H. by apply occurs_app_r, occurs_app_l. Qed.

Lemma collapse_blanks_shape in_run s :
  (9%N ∉ collapse_blanks in_run s) /\
  ~ occurs [32; 32]%N (collapse_blanks in_run s) /\
  (in_run = true -> head (collapse_blanks in_run s) <> Some 32%N).
Proof.
  revert in_run. induction s as [|c s IH]; intros in_run.
  - simpl. split; [apply not_elem_of_nil|]. split; [|done].
    intros (pre & post & E). by destruct pre.
  - cbn [collapse_blanks].
    destruct (N.eqb c 32 || N.eqb c 9) eqn:B.
    + destruct in_run.
      * apply IH.
      * destruct (IH true) as (T & D & H). split; [|split; [|done]].
        -- rewrite not_elem_of_cons. by split.
        -- intros (pre & post & E). destruct pre as [|p pre].
           ++ simpl in E. injection E as E. apply (H eq_refl). by rewrite E.
           ++ simpl in E. injection E as _ E. apply D. by exists pre, post.
    + destruct (IH false) as (T & D & _).
      apply orb_false_iff in B as [B1 B2]. apply N.eqb_neq in B1, B2.
      split; [|split].
      * rewrite not_elem_of_cons. split; [congruence|done].
      * intros (pre & post & E). destruct pre as [|p pre].
        -- simpl in E. by injection E as E _.
        -- simpl in E. injection E as _ E. apply D. by exists pre, post.
      * intros _. simpl. congruence.
Qed.

(** X15: what [normalizeText] returns has no tab and no
    two spaces in a row, and neither starts nor ends with white space. *)
Theorem normalizeText_shape (input : jsstring) :
  (9%N ∉ normalizeText input) /\
  ~ occurs [32; 32]%N (normalizeText input) /\
  (forall c, head (normalizeText input) = Some c -> is_space c = false) /\
  (forall c, last (normalizeText input) = Some c -> is_space c = false).
Proof.
  unfold normalizeText. set (u := collapse_blanks false _).
  destruct (collapse_blanks_shape false (replaceAll crlf lf input)) as (T & D & _).
  fold u in T, D. destruct (trim_infix u) as (ws1 & ws2 & E & _).
  destruct (trim_ends u) as [H L].
  split; [|split; [|by split]].
  - intros X. apply T. rewrite E. rewrite !elem_of_app. auto.
  - intros O. apply D. rewrite E. by apply occurs_infix.
Qed.

Section Tokens.
Variable nodejieba_cut : jsstring -> option (list jsstring).

Lemma words_go_words cur s :
  Forall (fun c => is_space c = false) cur ->
  Forall (fun t => t <> [] /\ Forall (fun c => is_space c = false) t) (words_go cur s).
Proof.
  revert cur. induction s as [|c s IH]; intros cur Hc.
  - cbn [words_go]. destruct cur as [|d cur]; [constructor|]. cbn [nonempty].
    constructor; [|constructor].
    split; [|by apply Forall_rev].
    intros E. apply (f_equal (@rev N)) in E. by rewrite rev_involutive in E.
  - cbn [words_go]. destruct (is_space c) eqn:S.
    + apply Forall_app. split; [|by apply IH].
      destruct cur as [|d cur]; [constructor|]. cbn [nonempty].
      constructor; [|constructor].
      split; [|by apply Forall_rev].
      intros E. apply (f_equal (@rev N)) in E. by rewrite rev_involutive in E.
    + apply IH. by constructor.
Qed.

Lemma spaceless_trim t : Forall (fun c => is_space c = false) t -> trim t = t.
Proof.
  intros H. unfold trim. rewrite drop_spaces_id.
  - apply trimEnd_id. intros c Hc. apply last_Some_elem_of in Hc.
    by apply (proj1 (Forall_forall _ _) H).
  - intros c Hc. apply head_Some_elem_of in Hc. by apply (proj1 (Forall_forall _ _) H).
Qed.

(** X16: whatever the segmenter returns, and also when it
    throws, no token of [tokenizeZh] is empty or has white space at either
    end; a text of white space only has no tokens. *)
Theorem tokens_trimmed (input : jsstring) :
  Forall (fun t => t <> [] /\ trim t = t) (tokenizeZh nodejieba_cut input) /\
  (normalizeText input = [] -> tokenizeZh nodejieba_cut input = []).
Proof.
  unfold tokenizeZh. split; [|by intros ->].
  destruct (nonempty (normalizeText input)); [|constructor].
  destruct (nodejieba_cut (normalizeText input)) as [tokens|].
  - apply Forall_forall. intros t Ht.
    apply list_elem_of_In, filter_In in Ht as [Ht Hn]. apply nonempty_spec in Hn.
    split; [done|]. apply in_map_iff in Ht as (x & <- & _). apply trim_trim.
  - eapply Forall_impl; [apply words_go_words; constructor|].
    intros t [Hn Hs]. split; [done|]. by apply spaceless_trim.
Qed.

End Tokens.

(** ** Ratios of counts *)

Lemma shr_1_half r : 0 <= shr_m r -> shr_m (shr_1 r) = shr_m r / 2.
Proof.
  destruct r as [m rb sb]. cbn [shr_m]. intros H.
  destruct m as [|[p|p|]|p]; cbn [shr_1 shr_m]; try lia; try reflexivity.
  - rewrite Pos2Z.inj_xI. apply Z.div_unique with 1; lia.
  - rewrite Pos2Z.inj_xO. apply Z.div_unique with 0; lia.
Qed.

Lemma iter_shr_1_div p r :
  0 <= shr_m r ->
  shr_m (SpecFloat.iter_pos shr_1 p r) = shr_m r / 2 ^ Z.pos p.
Proof.
  revert r. induction p as [p IH|p IH|]; intros r H; cbn [SpecFloat.iter_pos].
  - pose proof (shr_1_bounds r H) as [H0 _].
    pose proof (iter_shr_1_bounds p _ H0) as [H1 _].
    rewrite IH, IH, shr_1_half by done.
    assert (X : 2 ^ Z.pos p~1 = 2 * 2 ^ Z.pos p * 2 ^ Z.pos p).
    { replace (Z.pos p~1) with (1 + Z.pos p + Z.pos p) by lia.
      rewrite !Z.pow_add_r by lia. reflexivity. }
    rewrite X, !Z.div_div by lia. f_equal; lia.
  - pose proof (iter_shr_1_bounds p r H) as [H1 _].
    rewrite IH, IH by done.
    assert (X : 2 ^ Z.pos p~0 = 2 ^ Z.pos p * 2 ^ Z.pos p).
    { replace (Z.pos p~0) with (Z.pos p + Z.pos p) by lia.
      rewrite !Z.pow_add_r by lia. reflexivity. }
    rewrite X, !Z.div_div by lia. f_equal; lia.
  - rewrite shr_1_half by done. reflexivity.
Qed.

Lemma digits2_pos_lower m : 2 ^ (Z.pos (digits2_pos m) - 1) <= Z.pos m.
Proof.
  induction m as [m IH|m IH|]; cbn [digits2_pos]; [| |simpl; lia].
  - rewrite Pos2Z.inj_succ.
    replace (Z.succ (Z.pos (digits2_pos m)) - 1) with (Z.succ (Z.pos (digits2_pos m) - 1)) by lia.
    rewrite Z.pow_succ_r by lia. lia.
  - rewrite Pos2Z.inj_succ.
    replace (Z.succ (Z.pos (digits2_pos m)) - 1) with (Z.succ (Z.pos (digits2_pos m) - 1)) by lia.
    rewrite Z.pow_succ_r by lia. lia.
Qed.

(** Above the smallest exponent, shifting to the format's exponent keeps a
    positive mantissa positive. *)
Lemma shr_fexp_pos m e l :
  0 < m -> SpecFloat.emin prec emax <= e ->
  0 < shr_m (fst (shr_fexp prec emax m e l)).
Proof.
  intros H He. unfold shr_fexp, shr.
  destruct m as [|m|m]; [lia| |lia].
  destruct (fexp prec emax (Zdigits2 (Z.pos m) + e) - e) as [|p|p] eqn:E;
    cbn [fst]; rewrite ?iter_shr_1_div; rewrite ?shr_record_of_loc_m; try lia.
  pose proof (digits2_pos_lower m) as L.
  cbn [Zdigits2] in E.
  assert (P : Z.pos p <= Z.pos (digits2_pos m) - 1).
  { revert E He. unfold fexp, SpecFloat.emin, emax, prec. lia. }
  apply Z.div_str_pos. split; [apply Z.pow_pos_nonneg; lia|].
  etrans; [|exact L]. apply Z.pow_le_mono_r; lia.
Qed.

Lemma shr_fexp_exp m e l :
  0 <= m -> e <= snd (shr_fexp prec emax m e l).
Proof.
  intros H. pose proof (shr_fexp_bounds m e l H) as B.
  destruct (shr_fexp prec emax m e l) as [r e']. cbn [snd]. lia.
Qed.

Lemma round_nearest_even_ge m l : 0 <= m -> m <= round_nearest_even m l.
Proof. intros H. destruct l as [|[]]; simpl; try destruct (Z.even m); lia. Qed.

(** Above the smallest exponent, a positive mantissa does not round to
    zero. *)
Lemma binary_round_aux_nonzero sx mx ex lx :
  0 < mx -> SpecFloat.emin prec emax <= ex ->
  match binary_round_aux prec emax sx mx ex lx with
  | S754_zero _ => False
  | _ => True
  end.
Proof.
  intros H He. unfold binary_round_aux.
  pose proof (shr_fexp_pos mx ex lx H He) as P1.
  pose proof (shr_fexp_exp mx ex lx ltac:(lia)) as X1.
  destruct (shr_fexp prec emax mx ex lx) as [r1 e1]. cbn [fst snd] in P1, X1.
  pose proof (round_nearest_even_ge (shr_m r1) (loc_of_shr_record r1) ltac:(lia)) as G.
  pose proof (shr_fexp_pos (round_nearest_even (shr_m r1) (loc_of_shr_record r1)) e1
                loc_Exact ltac:(lia) ltac:(lia)) as P2.
  destruct (shr_fexp prec emax _ e1 loc_Exact) as [r2 e2]. cbn [fst] in P2.
  destruct (shr_m r2); [lia| |lia].
  by destruct (e2 <=? emax - prec).
Qed.

(** A positive integer below [2^63] converts to a positive finite double. *)
Lemma binary_normalize_pos z :
  0 < z < 2 ^ 63 ->
  pos_finite_sf (binary_normalize prec emax z 0 false) = true.
Proof.
  intros [Hz Hlt].
  pose proof (binary_normalize_small z ltac:(lia)) as F.
  destruct z as [|m|m]; [lia| |lia].
  cbn [binary_normalize] in *. unfold binary_round in *.
  pose proof (digits2_pos_lower m) as L.
  assert (N : match (let '(mz, ez) := shl_align m 0 (fexp prec emax (Z.pos (digits2_pos m) + 0))
                     in binary_round_aux prec emax false (Z.pos mz) ez loc_Exact) with
              | S754_zero _ => False | _ => True end).
  { unfold shl_align.
    destruct (fexp prec emax (Z.pos (digits2_pos m) + 0) - 0) as [|d|d] eqn:E.
    - apply binary_round_aux_nonzero; [lia|]. unfold SpecFloat.emin, emax, prec. lia.
    - apply binary_round_aux_nonzero; [lia|]. unfold SpecFloat.emin, emax, prec. lia.
    - apply binary_round_aux_nonzero; [lia|].
      revert E. unfold fexp, SpecFloat.emin, emax, prec. lia. }
  destruct (shl_align _ _ _) as [mz ez].
  by destruct (binary_round_aux _ _ _ _ _ _) as [[]|[]| |[] ? ?].
Qed.

Lemma float_of_Z_pos z :
  0 < z < 2 ^ 63 -> pos_finite_sf (Prim2SF (float_of_Z z)) = true.
Proof.
  intros H. unfold float_of_Z. rewrite of_uint63_spec. apply binary_normalize_pos.
  rewrite Uint63.of_Z_spec. change wB with (2 ^ 63). rewrite Z.mod_small; lia.
Qed.

(** The smaller of a bound and a number, neither of them negative. *)
Lemma Math_min_bounds y hi :
  nonneg y -> nonneg hi ->
  (0 <=? Math_min hi y)%float = true /\ (Math_min hi y <=? hi)%float = true.
Proof.
  intros Hy Hh.
  unfold Math_min. rewrite (is_nan_nonneg y Hy), (is_nan_nonneg hi) by done.
  cbn [orb].
  destruct (hi <? y)%float eqn:E1.
  { split; [by apply zero_leb_nonneg|].
    rewrite FloatAxioms.leb_spec. unfold SFleb.
    rewrite SFcompare_refl; done. }
  destruct (y <? hi)%float eqn:E2.
  - split; [by apply zero_leb_nonneg | by apply ltb_leb].
  - rewrite sign_bit_nonneg by done.
    split; [by apply zero_leb_nonneg | by apply not_ltb_leb].
Qed.

(** [clamp(n, 0, max)] of a number that is not negative lies in the range. *)
Lemma clamp_float_bounds n hi :
  nonneg n -> nonneg hi ->
  (0 <=? clamp_float n 0 hi)%float = true /\
  (clamp_float n 0 hi <=? hi)%float = true.
Proof.
  intros H Hh. unfold clamp_float.
  apply Math_min_bounds; [by apply Math_max_zero_nonneg | done].
Qed.

Lemma clamp_float_zero hi : nonneg hi -> clamp_float 0 0 hi = 0%float.
Proof.
  intros Hh. unfold clamp_float.
  assert (M : Math_max 0 0 = 0%float) by (vm_compute; reflexivity).
  rewrite M. unfold Math_min.
  rewrite (is_nan_nonneg hi) by done.
  change (PrimFloat.is_nan 0) with false. cbn [orb].
  destruct (hi <? 0)%float eqn:E1.
  { by rewrite ltb_zero_nonneg in E1. }
  destruct (0 <? hi)%float eqn:E2; [done|].
  by rewrite sign_bit_nonneg.
Qed.

Lemma zero_div x : pos_finite_sf (Prim2SF x) = true -> (0 / x)%float = 0%float.
Proof.
  intros H. apply Prim2SF_inj. rewrite FloatAxioms.div_spec.
  change (Prim2SF 0) with (S754_zero false).
  by destruct (Prim2SF x) as [[]|[]| |[] ? ?].
Qed.


(** ** Quotients of counts are positive *)

Lemma digits2_pos_upper m : Z.pos m < 2 ^ Z.pos (digits2_pos m).
Proof.
  induction m as [m IH|m IH|]; cbn [digits2_pos]; [| |simpl; lia].
  - rewrite Pos2Z.inj_succ, Z.pow_succ_r by lia. lia.
  - rewrite Pos2Z.inj_succ, Z.pow_succ_r by lia. lia.
Qed.

(** Rounding a positive mantissa of at most 64 bits with an exponent between
    -60 and 0 gives a positive finite double of moderate size. *)
Lemma binary_round_aux_small mx ex lx :
  0 < mx -> Zdigits2 mx <= 64 -> -60 <= ex <= 0 ->
  small_pos_sf (binary_round_aux prec emax false mx ex lx) = true.
Proof.
  intros H HD HE.
  pose proof (binary_round_aux_nonzero false mx ex lx H
                ltac:(unfold SpecFloat.emin, emax, prec; lia)) as NZ.
  revert NZ. unfold binary_round_aux.
  pose proof (shr_fexp_bounds mx ex lx ltac:(lia)) as B1.
  destruct (shr_fexp prec emax mx ex lx) as [r1 e1]. destruct B1 as (N1 & D1 & E1).
  destruct (round_nearest_even_bounds (shr_m r1) (loc_of_shr_record r1) N1) as [N2 D2].
  pose proof (shr_fexp_bounds _ e1 loc_Exact N2) as B2.
  destruct (shr_fexp prec emax _ e1 loc_Exact) as [r2 e2]. destruct B2 as (N3 & D3 & E2).
  pose proof (Zdigits2_nonneg mx).
  pose proof (Zdigits2_nonneg (round_nearest_even (shr_m r1) (loc_of_shr_record r1))).
  destruct (shr_m r2) as [|m|m] eqn:M; [done| |lia].
  intros _.
  assert (X : -60 <= e2 <= 30).
  { revert E1 E2. unfold fexp, SpecFloat.emin, emax, prec. lia. }
  destruct (Z.leb_spec e2 (emax - prec)) as [|Hgt];
    [|revert Hgt; unfold emax, prec; lia].
  cbn [small_pos_sf].
  apply andb_true_intro. split; [apply andb_true_intro; split|]; apply Z.leb_le; lia.
Qed.

Lemma binary_normalize_pos_small z :
  0 < z < 2 ^ 63 ->
  small_pos_sf (binary_normalize prec emax z 0 false) = true.
Proof.
  intros [Hz Hlt].
  destruct z as [|m|m]; [lia| |lia].
  cbn [binary_normalize]. unfold binary_round.
  pose proof (digits2_pos_bound m 63 ltac:(lia) Hlt) as Hd.
  unfold shl_align.
  destruct (fexp prec emax (Z.pos (digits2_pos m) + 0) - 0) as [|d|d] eqn:E.
  - apply binary_round_aux_small; [lia | simpl; lia | lia].
  - apply binary_round_aux_small; [lia | simpl; lia | lia].
  - apply binary_round_aux_small; [lia | |].
    + simpl. rewrite digits2_pos_iter_xO.
      revert E. unfold fexp, SpecFloat.emin, emax, prec. lia.
    + revert E. unfold fexp, SpecFloat.emin, emax, prec. lia.
Qed.

Lemma float_of_Z_small z :
  0 < z < 2 ^ 63 -> small_pos_sf (Prim2SF (float_of_Z z)) = true.
Proof.
  intros H. unfold float_of_Z. rewrite of_uint63_spec. apply binary_normalize_pos_small.
  rewrite Uint63.of_Z_spec. change wB with (2 ^ 63). rewrite Z.mod_small; lia.
Qed.

(** The integer quotient that the division rounds is positive, and its
    exponent is above the smallest. *)
Lemma SFdiv_core_pos mx ex my ey :
  Zdigits2 (Z.pos mx) <= 70 -> -100 <= ex <= 100 ->
  Zdigits2 (Z.pos my) <= 70 -> -100 <= ey <= 100 ->
  0 < fst (fst (SFdiv_core_binary prec emax (Z.pos mx) ex (Z.pos my) ey)) /\
  SpecFloat.emin prec emax
    <= snd (fst (SFdiv_core_binary prec emax (Z.pos mx) ex (Z.pos my) ey)).
Proof.
  intros D1 E1 D2 E2. unfold SFdiv_core_binary.
  cbn [Zdigits2] in *.
  pose proof (digits2_pos_lower mx) as L1.
  pose proof (digits2_pos_upper my) as U2.
  set (d1 := Z.pos (digits2_pos mx)) in *. set (d2 := Z.pos (digits2_pos my)) in *.
  assert (P1 : 0 < d1) by (subst d1; lia). assert (P2 : 0 < d2) by (subst d2; lia).
  set (e' := Z.min (fexp prec emax (d1 + ex - (d2 + ey))) (ex - ey)).
  assert (He : e' = Z.min (d1 + ex - (d2 + ey) - 53) (ex - ey)).
  { subst e'. unfold fexp, SpecFloat.emin, emax, prec. lia. }
  set (s := ex - ey - e').
  assert (Hs : 0 <= s /\ 53 - d1 + d2 <= s) by (subst s; lia).
  set (m' := match s with Z0 => _ | Z.pos _ => _ | Z.neg _ => _ end).
  assert (Hm : m' = Z.pos mx * 2 ^ s).
  { subst m'. destruct s as [|p|p] eqn:S; [simpl; lia | | lia].
    by rewrite Z.shiftl_mul_pow2. }
  assert (Hge : Z.pos my <= m').
  { rewrite Hm.
    assert (2 ^ d2 <= 2 ^ (d1 - 1) * 2 ^ s).
    { rewrite <- Z.pow_add_r by lia. apply Z.pow_le_mono_r; lia. }
    assert (0 < 2 ^ s) by (apply Z.pow_pos_nonneg; lia).
    nia. }
  pose proof (Z_div_mod m' (Z.pos my) ltac:(lia)) as D.
  destruct (Z.div_eucl m' (Z.pos my)) as [q r]. cbn [fst snd].
  split; [nia|]. rewrite He. unfold SpecFloat.emin, emax, prec. lia.
Qed.

Lemma SFdiv_small_pos x y :
  small_pos_sf x = true -> small_pos_sf y = true ->
  SFltb (S754_zero false) (SF64div x y) = true.
Proof.
  destruct x as [[]|[]| |[] mx ex], y as [[]|[]| |[] my ey]; try done.
  cbn [small_pos_sf]. rewrite !andb_true_iff, !Z.leb_le.
  intros [[D1 E1] E1'] [[D2 E2] E2'].
  unfold SF64div, SFdiv. cbn [xorb].
  destruct (SFdiv_core_pos mx ex my ey D1 ltac:(lia) D2 ltac:(lia)) as [Q E].
  destruct (SFdiv_core_binary _ _ _ _ _ _) as [[mz ez] lz]. cbn [fst snd] in Q, E.
  pose proof (binary_round_aux_class false mz ez lz ltac:(lia)) as C.
  pose proof (binary_round_aux_nonzero false mz ez lz Q E) as NZ.
  by destruct (binary_round_aux _ _ _ _ _ _) as [[]|[]| |[] ? ?].
Qed.

(** The quotient of two positive counts is above 0. *)
Lemma div_counts_pos a b :
  0 < a < 2 ^ 63 -> 0 < b < 2 ^ 63 ->
  (0 <? float_of_Z a / float_of_Z b)%float = true.
Proof.
  intros Ha Hb. rewrite FloatAxioms.ltb_spec, FloatAxioms.div_spec.
  change (Prim2SF 0) with (S754_zero false).
  apply SFdiv_small_pos; by apply float_of_Z_small.
Qed.

(** ** Repeated n-grams *)

Lemma ngrams_length tokens n :
  length (ngrams tokens n) = (length tokens - n + 1)%nat.
Proof. unfold ngrams. by rewrite length_map, length_seq. Qed.

Lemma size_list_to_set_le (l : list jsstring) :
  (size (list_to_set l : gset jsstring) <= length l)%nat.
Proof.
  induction l as [|x l IH]; [done|].
  cbn [list_to_set length foldr].
  rewrite size_union_alt, size_singleton.
  pose proof (subseteq_size (list_to_set l ∖ {[x]}) (list_to_set l : gset jsstring)
                ltac:(set_solver)).
  lia.
Qed.

Lemma size_list_to_set_NoDup (l : list jsstring) :
  size (list_to_set l : gset jsstring) = length l -> NoDup l.
Proof.
  induction l as [|x l IH]; [constructor|].
  cbn [list_to_set length foldr]. intros H.
  pose proof (size_list_to_set_le l) as U.
  destruct (decide (x ∈ l)) as [Hin|Hin].
  - assert (E : ({[x]} ∪ list_to_set l : gset jsstring) = list_to_set l) by set_solver.
    rewrite E in H. lia.
  - rewrite size_union, size_singleton in H by set_solver.
    apply NoDup_cons_2; [done|]. apply IH. lia.
Qed.

(** [clamp(q, 0, 1)] of a number above 0 is above 0. *)
Lemma clamp_float_pos q :
  (0 <? q)%float = true -> (0 <? clamp_float q 0 1)%float = true.
Proof.
  intros H. unfold clamp_float.
  assert (N : PrimFloat.is_nan q = false).
  { unfold PrimFloat.is_nan. revert H.
    rewrite FloatAxioms.ltb_spec, FloatAxioms.eqb_spec.
    change (Prim2SF 0) with (S754_zero false). unfold SFltb, SFeqb.
    destruct (Prim2SF q) as [[]|[]| |[] m e]; try done; intros _; cbn [SFcompare];
      by rewrite ?Z.compare_refl, ?Pos.compare_cont_refl. }
  assert (M : Math_max 0 q = q).
  { unfold Math_max. rewrite N. change (PrimFloat.is_nan 0) with false.
    cbn [orb]. by rewrite H. }
  rewrite M. unfold Math_min. rewrite N. change (PrimFloat.is_nan 1) with false.
  cbn [orb]. change (sign_bit 1) with false.
  by destruct (1 <? q)%float, (q <? 1)%float.
Qed.

(** X17: for every array of tokens (an array has
    fewer than [2^32] elements) and every [n], [ngramRepeatRatio] is a number
    between 0 and 1; it is 0 exactly when there are fewer than [n + 2]
    tokens or no joined n-gram occurs twice. *)
Theorem ngramRepeatRatio_range (tokens : list jsstring) (n : nat) :
  Z.of_nat (length tokens) < 2 ^ 32 ->
  ((0 <=? ngramRepeatRatio tokens n)%float = true /\
   (ngramRepeatRatio tokens n <=? 1)%float = true) /\
  (ngramRepeatRatio tokens n = 0%float
   <-> (length tokens < n + 2)%nat \/ NoDup (ngrams tokens n)).
Proof.
  intros Hlen. unfold ngramRepeatRatio.
  pose proof (ngrams_length tokens n) as L.
  pose proof (size_list_to_set_le (ngrams tokens n)) as U.
  destruct (Nat.ltb_spec (length tokens) (n + 2)) as [Hs|Hs].
  { split; [done|]. split; [by left | done]. }
  cbv zeta.
  destruct (Z.eqb_spec (Z.of_nat (length (ngrams tokens n))) 0) as [E|E]; [lia|].
  assert (P : pos_finite_sf (Prim2SF (float_of_Z (Z.of_nat (length (ngrams tokens n))))) = true).
  { apply float_of_Z_pos. lia. }
  split.
  { apply clamp_float_bounds; [|done].
    apply div_nonneg; [apply float_of_Z_nonneg | done]. }
  split.
  - intros Z0. right. apply size_list_to_set_NoDup.
    destruct (decide (size (list_to_set (ngrams tokens n) : gset jsstring)
                      = length (ngrams tokens n))) as [|Hne]; [done|].
    exfalso.
    assert (Pos : (0 <? clamp_float
                     (float_of_Z (Z.of_nat (length (ngrams tokens n))
                                  - Z.of_nat (size (list_to_set (ngrams tokens n) : gset jsstring)))
                      / float_of_Z (Z.of_nat (length (ngrams tokens n)))) 0 1)%float = true).
    { apply clamp_float_pos, div_counts_pos; lia. }
    by rewrite Z0 in Pos.
  - intros [Hshort|ND]; [lia|]. rewrite size_list_to_set by done.
    rewrite Z.sub_diag. change (float_of_Z 0) with 0%float.
    rewrite zero_div by done. by apply clamp_float_zero.
Qed.

Lemma ngramRepeatRatio_witness :
  (0 <=? ngramRepeatRatio sample_tokens 2)%float = true /\
  (ngramRepeatRatio sample_tokens 2 <=? 1)%float = true.
Proof.
  destruct (ngramRepeatRatio_range sample_tokens 2) as [H _]; [reflexivity | exact H].
Defined.

(** Two of the four bigrams of [sample_tokens] repeat an earlier one. *)
Example ngram_sample : ngramRepeatRatio sample_tokens 2 = 0.5%float.
Proof. vm_compute. reflexivity. Qed.

(** The join can make two different bigrams equal: here no pair of tokens
    repeats, and one of three joined bigrams does. *)
Example ngram_underscore :
  NoDup underscore_tokens /\
  ngrams underscore_tokens 2 = [js "a_b_c"; js "c_a"; js "a_b_c"] /\
  (0 <? ngramRepeatRatio underscore_tokens 2)%float = true.
Proof.
  split; [|split; vm_compute; reflexivity].
  repeat (apply NoDup_cons_2; [rewrite list_elem_of_In; cbn; intuition discriminate|]).
  apply NoDup_nil_2.
Qed.

(** ** The similarity of two token sets *)

Lemma SFdiv_self x : pos_finite_sf x = true -> SF64div x x = Prim2SF 1.
Proof.
  destruct x as [[]|[]| |[] m e]; try done. intros _.
  unfold SF64div, SFdiv, SFdiv_core_binary. cbn [xorb].
  replace (Zdigits2 (Z.pos m) + e - (Zdigits2 (Z.pos m) + e)) with 0 by lia.
  replace (e - e) with 0 by lia.
  change (Z.min (fexp prec emax 0) 0) with (-53).
  change (0 - -53) with 53.
  cbv iota.
  assert (D : Z.div_eucl (Z.shiftl (Z.pos m) 53) (Z.pos m) = (2 ^ 53, 0)).
  { rewrite Z.shiftl_mul_pow2 by lia.
    rewrite (surjective_pairing (Z.div_eucl _ _)).
    change (fst (Z.div_eucl ?a ?b)) with (a / b).
    change (snd (Z.div_eucl ?a ?b)) with (a mod b).
    rewrite (Z.mul_comm (Z.pos m)), Z.div_mul, Z.mod_mul by lia. reflexivity. }
  rewrite D.
  assert (L : new_location (Z.pos m) 0 = loc_Exact).
  { unfold new_location, new_location_even, new_location_odd.
    by destruct (Z.even (Z.pos m)). }
  rewrite L. vm_compute. reflexivity.
Qed.

Lemma div_self x :
  pos_finite_sf (Prim2SF x) = true -> (x / x)%float = 1%float.
Proof.
  intros H. apply Prim2SF_inj. rewrite FloatAxioms.div_spec. by apply SFdiv_self.
Qed.

Lemma filter_intersection (a b : gset jsstring) :
  filter (fun x => x ∈ b) a = a ∩ b.
Proof. apply set_eq. intros x. rewrite elem_of_filter, elem_of_intersection. tauto. Qed.

Lemma size_inter_le (a b : gset jsstring) : (size (a ∩ b) <= size a)%nat.
Proof. apply subseteq_size. set_solver. Qed.

(** X22: for two token sets (a set has fewer than [2^32]
    members) the similarity does not depend on the order of its arguments,
    is 0 exactly when the sets share no token, and is 1 for a non-empty set
    and itself. *)
Theorem jaccard_spec (a b : gset jsstring) :
  Z.of_nat (size a) < 2 ^ 32 -> Z.of_nat (size b) < 2 ^ 32 ->
  jaccard a b = jaccard b a /\
  (jaccard a b = 0%float <-> a ∩ b = ∅) /\
  ((0 <=? jaccard a b)%float = true) /\
  (a <> ∅ -> jaccard a a = 1%float).
Proof.
  intros Ha Hb. unfold jaccard. rewrite !filter_intersection.
  rewrite (intersection_comm_L b a).
  pose proof (size_inter_le a b) as I1.
  pose proof (size_inter_le b a) as I2. rewrite (intersection_comm_L b a) in I2.
  split; [|split; [|split]].
  - rewrite (orb_comm (size b =? 0)%nat).
    by rewrite (Z.add_comm (Z.of_nat (size b))).
  - destruct (Nat.eqb_spec (size a) 0) as [Ea|Ea]; cbn [orb].
    { apply size_empty_inv in Ea. split; [|done]. intros _. set_solver. }
    destruct (Nat.eqb_spec (size b) 0) as [Eb|Eb].
    { apply size_empty_inv in Eb. split; [|done]. intros _. set_solver. }
    destruct (Z.eqb_spec (Z.of_nat (size a) + Z.of_nat (size b) - Z.of_nat (size (a ∩ b))) 0)
      as [E|E]; [lia|].
    split.
    + intros Z0. apply leibniz_equiv, size_empty_inv.
      destruct (size (a ∩ b)) as [|k] eqn:S; [done|]. exfalso.
      assert (P : (0 <? float_of_Z (Z.of_nat (Datatypes.S k))
                        / float_of_Z (Z.of_nat (size a) + Z.of_nat (size b)
                                      - Z.of_nat (Datatypes.S k)))%float = true)
        by (apply div_counts_pos; lia).
      by rewrite Z0 in P.
    + intros Em. rewrite Em, size_empty. change (float_of_Z (Z.of_nat 0)) with 0%float.
      apply zero_div, float_of_Z_pos. lia.
  - destruct ((size a =? 0)%nat || (size b =? 0)%nat); [done|].
    destruct (Z.eqb_spec (Z.of_nat (size a) + Z.of_nat (size b) - Z.of_nat (size (a ∩ b))) 0)
      as [E|E]; [done|].
    apply zero_leb_nonneg, div_nonneg; [apply float_of_Z_nonneg|].
    apply float_of_Z_pos. lia.
  - intros Hne. rewrite orb_diag.
    assert (S : size a <> 0%nat) by (intros S; by apply Hne, leibniz_equiv, size_empty_inv).
    destruct (Nat.eqb_spec (size a) 0) as [|_]; [done|].
    replace (a ∩ a) with a by set_solver.
    replace (Z.of_nat (size a) + Z.of_nat (size a) - Z.of_nat (size a))
      with (Z.of_nat (size a)) by lia.
    destruct (Z.eqb_spec (Z.of_nat (size a)) 0) as [|_]; [lia|].
    apply div_self, float_of_Z_pos. lia.
Qed.

Lemma jaccard_witness :
  jaccard {[ js "x"; js "y" ]} {[ js "y" ]} = jaccard {[ js "y" ]} {[ js "x"; js "y" ]}.
Proof.
  apply (jaccard_spec {[ js "x"; js "y" ]} {[ js "y" ]}); vm_compute; reflexivity.
Defined.

(** Two sets with one token in common out of two. *)
Example jaccard_sample : jaccard {[ js "x"; js "y" ]} {[ js "y" ]} = 0.5%float.
Proof. vm_compute. reflexivity. Qed.

(** ** The review by the model *)

(** [Math.max(0, x)] is not negative, whatever number [x] is. *)
Lemma Math_max_zero_number x :
  PrimFloat.is_nan x = false -> nonneg (Math_max 0 x).
Proof.
  intros Hn. unfold Math_max. rewrite Hn.
  change (PrimFloat.is_nan 0) with false. cbn [orb].
  destruct (0 <? x)%float eqn:E.
  - revert E. unfold nonneg. rewrite FloatAxioms.ltb_spec.
    change (Prim2SF 0) with (S754_zero false).
    by destruct (Prim2SF x) as [[]|[]| |[] ? ?].
  - change (sign_bit 0) with false. by destruct (x <? 0)%float.
Qed.

Lemma isFinite_not_nan x : Number_isFinite x = true -> PrimFloat.is_nan x = false.
Proof.
  unfold Number_isFinite, PrimFloat.is_nan.
  rewrite FloatAxioms.eqb_spec. unfold SFeqb.
  destruct (Prim2SF x) as [[]|[]| |[] m e]; try done; intros _; cbn [SFcompare];
    by rewrite ?Z.compare_refl, ?Pos.compare_cont_refl.
Qed.

Lemma normalized_range x :
  nonneg (normalized x) /\ (normalized x <=? 100)%float = true.
Proof.
  unfold normalized. destruct (Number_isFinite x) eqn:F; [|done].
  pose proof (Math_max_zero_number x (isFinite_not_nan x F)) as N.
  destruct (Math_min_bounds (Math_max 0 x) 100 N ltac:(done)) as [_ H2].
  split; [|done].
  unfold Math_min in *. rewrite (is_nan_nonneg _ N) in *.
  change (PrimFloat.is_nan 100) with false in *. cbn [orb] in *.
  by destruct (100 <? Math_max 0 x)%float, (Math_max 0 x <? 100)%float, (sign_bit 100).
Qed.

Lemma fused_nonneg s j : nonneg j -> nonneg (fused s j).
Proof.
  intros Hj. unfold fused. apply Math_round_nonneg, add_nonneg.
  - apply mul_nonneg; [apply float_of_Z_nonneg | vm_compute; reflexivity].
  - apply mul_nonneg; [done | vm_compute; reflexivity].
Qed.

(** X18: whatever number the answer of the model gives
    (also [NaN], an infinity or a negative number), the normalised score of
    the answer lies between 0 and 100, and so does the score that the
    fusion with a rule score stores; its level follows the thresholds 35
    and 70. *)
Theorem fused_score_range (riskScore : Z) (riskScore0to100 : float) :
  let j := normalized riskScore0to100 in
  ((0 <=? j)%float = true /\ (j <=? 100)%float = true) /\
  ((0 <=? fusedRiskScore riskScore j)%float = true /\
   (fusedRiskScore riskScore j <=? 100)%float = true) /\
  (fusedRiskLevel riskScore j = high <-> (70 <=? fusedRiskScore riskScore j)%float = true) /\
  (fusedRiskLevel riskScore j = low <-> (35 <=? fusedRiskScore riskScore j)%float = false).
Proof.
  cbv zeta. destruct (normalized_range riskScore0to100) as [N H].
  split; [split; [by apply zero_leb_nonneg | done]|].
  split; [apply Math_min_bounds; [|done];
          by apply Math_max_zero_nonneg, fused_nonneg|].
  unfold fusedRiskLevel, riskLevel_float.
  set (f := fusedRiskScore _ _).
  assert (T : (70 <=? f)%float = true -> (35 <=? f)%float = true).
  { rewrite !FloatAxioms.leb_spec.
    change (Prim2SF 35) with (S754_finite false 4925812092436480 (-47)).
    change (Prim2SF 70) with (S754_finite false 4925812092436480 (-46)).
    unfold SFleb.
    destruct (Prim2SF f) as [[]|[]| |[] m e]; try done.
    cbn [SFcompare].
    destruct (Z.compare_spec (-46) e) as [E|E|E]; [subst e; intros _; reflexivity| |done].
    intros _. by destruct (Z.compare_spec (-47) e); try lia. }
  destruct (70 <=? f)%float eqn:E7.
  - rewrite T by done. split; split; done.
  - destruct (35 <=? f)%float; split; split; done.
Qed.

(** The fusion with the score 0, computed for each rule score. *)
Lemma fused_unreadable_all :
  forallb (fun n => let s := Z.of_nat n in
             match Prim2SF (fusedRiskScore s 0), Prim2SF (float_of_Z (two_fifths s)) with
             | S754_zero a, S754_zero b => Bool.eqb a b
             | S754_finite a m e, S754_finite b m' e' =>
                 Bool.eqb a b && Pos.eqb m m' && Z.eqb e e'
             | _, _ => false
             end && (two_fifths s <=? 40))
          (seq 0 101) = true.
Proof. vm_compute. reflexivity. Qed.

Lemma normalized_unreadable x : Number_isFinite x = false -> normalized x = 0%float.
Proof. unfold normalized. by intros ->. Qed.

(** X19: an answer whose score is not a finite number counts
    as the score 0.  For a rule score [s] between 0 and 100 the stored score
    is then the integer nearest to [0.4 * s], at most 40, and the level is
    never high. *)
Theorem fused_unreadable (riskScore : Z) (riskScore0to100 : float) :
  0 <= riskScore <= 100 ->
  Number_isFinite riskScore0to100 = false ->
  fusedRiskScore riskScore (normalized riskScore0to100)
    = float_of_Z (two_fifths riskScore) /\
  two_fifths riskScore <= 40 /\
  fusedRiskLevel riskScore (normalized riskScore0to100) <> high.
Proof.
  intros Hs Hx. rewrite normalized_unreadable by done.
  pose proof fused_unreadable_all as A. rewrite forallb_forall in A.
  specialize (A (Z.to_nat riskScore)). rewrite Z2Nat.id in A by lia.
  cbv zeta in A.
  destruct (andb_prop _ _ (A ltac:(apply in_seq; lia))) as [R A2].
  apply Z.leb_le in A2.
  assert (E : fusedRiskScore riskScore 0 = float_of_Z (two_fifths riskScore)).
  { apply Prim2SF_inj.
    destruct (Prim2SF (fusedRiskScore riskScore 0)) as [a|a| |a m e],
             (Prim2SF (float_of_Z (two_fifths riskScore))) as [b|b| |b m' e']; try done.
    - by apply Bool.eqb_prop in R as ->.
    - apply andb_prop in R as [R R3]. apply andb_prop in R as [R1 R2].
      apply Bool.eqb_prop in R1 as ->. apply Pos.eqb_eq in R2 as ->.
      by apply Z.eqb_eq in R3 as ->. }
  split; [done|]. split; [done|].
  unfold fusedRiskLevel. rewrite E.
  assert (L : forallb (fun n => negb (70 <=? float_of_Z (Z.of_nat n))%float) (seq 0 41) = true)
    by (vm_compute; reflexivity).
  rewrite forallb_forall in L.
  assert (0 <= two_fifths riskScore).
  { unfold two_fifths. apply Z.div_pos; lia. }
  specialize (L (Z.to_nat (two_fifths riskScore))). rewrite Z2Nat.id in L by lia.
  specialize (L ltac:(apply in_seq; lia)).
  unfold riskLevel_float. apply negb_true_iff in L. rewrite L.
  by destruct (35 <=? _)%float.
Qed.

Lemma fused_unreadable_witness :
  fusedRiskScore 90 (normalized nan) = float_of_Z (two_fifths 90) /\
  two_fifths 90 <= 40 /\
  fusedRiskLevel 90 (normalized nan) <> high.
Proof. apply (fused_unreadable 90 nan); [lia | reflexivity]. Defined.

(** A paragraph that the rules score 90 and whose review cannot be read is
    stored with the score 36. *)
Example fused_sample : fusedRiskScore 90 (normalized nan) = 36%float.
Proof. vm_compute. reflexivity. Qed.

(** *** The paragraphs that are reviewed *)

Lemma insert_by_score_perm r l : Permutation (insert_by_score r l) (r :: l).
Proof.
  induction l as [|x l IH]; cbn [insert_by_score]; [done|].
  destruct (report.riskScore x <=? report.riskScore r); [done|].
  rewrite IH. apply perm_swap.
Qed.

Lemma sort_by_score_perm l : Permutation (sort_by_score l) l.
Proof.
  induction l as [|x l IH]; cbn [sort_by_score foldr]; [done|].
  rewrite insert_by_score_perm. by constructor.
Qed.

Lemma insert_by_score_falling r l : falling l -> falling (insert_by_score r l).
Proof.
  induction l as [|x l IH]; cbn [insert_by_score falling]; [done|].
  intros [Hx Hl].
  destruct (Z.leb_spec (report.riskScore x) (report.riskScore r)) as [Hle|Hgt].
  - cbn [falling]. split; [|done]. constructor; [done|].
    eapply Forall_impl; [exact Hx|]. cbn. intros. lia.
  - cbn [falling]. split; [|by apply IH].
    rewrite insert_by_score_perm. constructor; [lia | done].
Qed.

Lemma sort_by_score_falling l : falling (sort_by_score l).
Proof.
  induction l as [|x l IH]; cbn [sort_by_score foldr]; [done|].
  by apply insert_by_score_falling.
Qed.

Lemma falling_app l1 l2 :
  falling (l1 ++ l2) ->
  falling l1 /\
  (forall x y, x ∈ l1 -> y ∈ l2 -> report.riskScore y <= report.riskScore x).
Proof.
  induction l1 as [|a l1 IH]; cbn [app falling].
  - intros _. split; [done|]. intros x y Hx. by apply elem_of_nil in Hx.
  - intros [Ha Hl]. destruct (IH Hl) as [F1 F2].
    apply Forall_app in Ha as [Ha1 Ha2].
    split; [done|]. intros x y Hx Hy.
    apply elem_of_cons in Hx as [->|Hx]; [|by apply F2].
    rewrite Forall_forall in Ha2. by apply Ha2.
Qed.

Lemma falling_lookup l i j x y :
  falling l -> (i < j)%nat -> l !! i = Some x -> l !! j = Some y ->
  report.riskScore y <= report.riskScore x.
Proof.
  revert i j. induction l as [|a l IH]; intros i j F Hij Hi Hj; [done|].
  destruct F as [Fa Fl]. destruct j as [|j]; [lia|].
  destruct i as [|i].
  - cbn in Hi, Hj. injection Hi as <-.
    rewrite Forall_forall in Fa. apply Fa. by eapply list_elem_of_lookup_2.
  - cbn in Hi, Hj. apply (IH i j); [done|lia|done|done].
Qed.

(** X20: the paragraphs sent to the model are at most 30, all
    score 50 or more, and come by falling score.  Together with the
    paragraphs left out they are exactly the reports that score 50 or more;
    none left out scores more than one sent, and none is left out when at
    most 30 reports score 50 or more. *)
Theorem candidates_top (paragraphReports : list report.ParagraphReport) :
  let sent := candidatesForJudge paragraphReports in
  (length sent <= 30)%nat /\
  Forall (fun r => 50 <= report.riskScore r) sent /\
  (forall i j x y, (i < j)%nat -> sent !! i = Some x -> sent !! j = Some y ->
                   report.riskScore y <= report.riskScore x) /\
  exists left_out,
    Permutation (List.filter reviewable paragraphReports) (sent ++ left_out) /\
    (forall x y, x ∈ sent -> y ∈ left_out ->
                 report.riskScore y <= report.riskScore x) /\
    ((length (List.filter reviewable paragraphReports) <= 30)%nat -> left_out = []).
Proof.
  cbv zeta. unfold candidatesForJudge, MAX_JUDGE.
  set (cands := List.filter reviewable paragraphReports).
  pose proof (sort_by_score_perm cands) as P.
  pose proof (sort_by_score_falling cands) as F.
  set (sorted := sort_by_score cands) in *.
  rewrite <- (firstn_skipn 30 sorted) in F, P.
  destruct (falling_app _ _ F) as [F1 F2].
  split; [rewrite length_firstn; lia|].
  split.
  { rewrite Forall_forall. intros r Hr.
    assert (Hc : r ∈ cands).
    { rewrite <- P. apply elem_of_app. by left. }
    subst cands. apply list_elem_of_In, filter_In in Hc as [_ Hc].
    unfold reviewable in Hc. lia. }
  split; [intros i j x y; by apply falling_lookup|].
  exists (skipn 30 sorted). split; [by symmetry|]. split; [done|].
  intros Hlen. apply nil_length_inv. rewrite length_skipn.
  rewrite <- (Permutation_length (sort_by_score_perm cands)) in Hlen.
  fold sorted in Hlen. lia.
Qed.

(** ** Parsing again what was written back *)

Lemma close_p_straddle post u :
  post <> [] -> opens_tag u ->
  starts_with close_p (post ++ u) = true -> starts_with close_p post = true.
Proof.
  intros Hp Hu. destruct post as [|c post]; [done|].
  unfold close_p.
  change (starts_with (60%N :: ?p) ((c :: post) ++ u))
    with (N.eqb 60 c && starts_with p (post ++ u)).
  change (starts_with (60%N :: ?p) (c :: post))
    with (N.eqb 60 c && starts_with p post).
  intros H. apply andb_true_iff in H as [-> H]. cbn [andb].
  by apply (starts_with_straddle _ post u).
Qed.

(** Inside a leaf no paragraph closes. *)
Lemma leaf_tail_no_close u rest :
  lacks 60 u = true ->
  forall pre post, u ++ close_t = pre ++ post -> post <> [] ->
                   starts_with close_p (post ++ rest) = false.
Proof.
  induction u as [|d u IH]; intros H pre post E Hp.
  - simpl in E.
    destruct pre as [|p0 [|p1 [|p2 [|p3 [|p4 [|p5 pre]]]]]];
      simpl in E; try (subst post; reflexivity);
      try (injection E as <- <- <- <- <- <- E; by destruct pre, post);
      try (injection E as <- E; subst post; reflexivity);
      try (injection E as <- <- E; subst post; reflexivity);
      try (injection E as <- <- <- E; subst post; reflexivity);
      try (injection E as <- <- <- <- E; subst post; reflexivity);
      try (injection E as <- <- <- <- <- E; subst post; reflexivity).
  - rewrite lacks_cons in H. apply andb_true_iff in H as [Hd H].
    destruct pre as [|p pre].
    + simpl in E. subst post. unfold close_p. cbn [app starts_with].
      apply negb_true_iff in Hd. by rewrite N.eqb_sym, Hd.
    + simpl in E. injection E as <- E. by apply (IH H pre).
Qed.

Lemma leaf_no_close a c rest :
  lacks 60 a = true -> lacks 60 c = true ->
  forall pre post, leaf a c = pre ++ post -> post <> [] ->
                   starts_with close_p (post ++ rest) = false.
Proof.
  intros Ha Hc pre post E Hp.
  destruct pre as [|p pre].
  - simpl in E. subst post. reflexivity.
  - unfold leaf, tag_t in E. simpl in E. injection E as <- E.
    assert (U : lacks 60 (js "w:t" ++ a ++ gt ++ c) = true).
    { rewrite !lacks_app, Ha, Hc. reflexivity. }
    apply (leaf_tail_no_close (js "w:t" ++ a ++ gt ++ c) rest U pre post); [|done].
    by rewrite <- !app_assoc.
Qed.

Lemma leaf_opens_tag a c rest : opens_tag (leaf a c ++ rest).
Proof. right. by eexists. Qed.

(** The search for the end of the paragraph goes past a leaf, and past the
    markup before a leaf when the paragraph ends at the end of the text. *)
Lemma until_close_leaf a c rest :
  lacks 60 a = true -> lacks 60 c = true ->
  until_literal close_p (leaf a c ++ rest)
  = match until_literal close_p rest with
    | Some (x, r) => Some (leaf a c ++ x, r)
    | None => None
    end.
Proof. intros Ha Hc. apply until_literal_skip. by apply leaf_no_close. Qed.

Lemma until_close_before b a c rest x :
  until_literal close_p (b ++ leaf a c ++ rest) = Some (x, []) ->
  forall pre post, b = pre ++ post -> post <> [] ->
                   starts_with close_p post = false.
Proof.
  intros U pre post -> Hp.
  destruct (starts_with close_p post) eqn:S; [|done]. exfalso.
  apply starts_with_skipn in S.
  pose proof (until_literal_app _ _ _ _ U) as E.
  pose proof (until_literal_leftmost close_p _ x [] pre
                (skipn (length close_p) post ++ leaf a c ++ rest) U) as L.
  rewrite <- app_assoc in L. rewrite S in L at 1. rewrite <- !app_assoc in L.
  specialize (L eq_refl).
  apply (f_equal (@length N)) in E.
  rewrite S in E at 1. rewrite !length_app in E.
  unfold leaf in E. rewrite !length_app in E. simpl in E. lia.
Qed.

Lemma until_close_skip b a c rest x a' c' rest' :
  until_literal close_p (b ++ leaf a c ++ rest) = Some (x, []) ->
  until_literal close_p (b ++ leaf a' c' ++ rest')
  = match until_literal close_p (leaf a' c' ++ rest') with
    | Some (y, r) => Some (b ++ y, r)
    | None => None
    end.
Proof.
  intros U. apply until_literal_skip. intros pre post E Hp.
  destruct (starts_with close_p (post ++ leaf a' c' ++ rest')) eqn:S; [|done].
  apply close_p_straddle in S; [|done|apply leaf_opens_tag].
  by rewrite (until_close_before b a c rest x U pre post E Hp) in S.
Qed.

Lemma plain_run_lacks r :
  plain_run r = true ->
  lacks 60 (leaf_attr r) = true /\ lacks 60 (leaf_content r) = true.
Proof.
  unfold plain_run. intros H. apply andb_true_iff in H as [H _].
  apply andb_true_iff in H as [Ha Hc].
  by destruct (plain_attr_lacks _ Ha) as (? & _ & _).
Qed.

(** Where a paragraph ends depends on the markup between its leaves, not
    on the leaves. *)
Lemma until_close_runs runs :
  forall runs' b x,
    List.map leaf_gap runs' = List.map leaf_gap runs ->
    forallb plain_run runs = true -> forallb plain_run runs' = true ->
    until_literal close_p (b ++ runs_xml runs) = Some (x, []) ->
    exists x', until_literal close_p (b ++ runs_xml runs') = Some (x', []).
Proof.
  induction runs as [|r rs IH]; intros runs' b x G P P' U.
  - destruct runs' as [|r' rs']; [|done]. by exists x.
  - destruct runs' as [|r' rs']; [done|]. injection G as Gg G.
    cbn [forallb] in P, P'.
    apply andb_true_iff in P as [Pr P]. apply andb_true_iff in P' as [Pr' P'].
    destruct (plain_run_lacks r Pr) as [Ha Hc].
    destruct (plain_run_lacks r' Pr') as [Ha' Hc'].
    unfold runs_xml in *. cbn [flat_map] in *. unfold run_xml at 1 in U.
    unfold run_xml at 1. rewrite <- !app_assoc in *.
    rewrite (until_close_skip b _ _ _ x _ _ _ U).
    rewrite (until_close_skip b _ _ _ x _ _ _ U) in U.
    rewrite until_close_leaf in U by done. rewrite until_close_leaf by done.
    destruct (until_literal close_p (leaf_gap r ++ flat_map run_xml rs))
      as [[y r0]|] eqn:U2; [|done].
    injection U as <- ->.
    destruct (IH rs' (leaf_gap r) y G P P' U2) as [x' U'].
    rewrite Gg, U'. by eexists.
Qed.

Lemma subst_first_gaps a c a' c' runs :
  List.map leaf_gap (subst_first a c a' c' runs) = List.map leaf_gap runs.
Proof.
  induction runs as [|r rs IH]; [done|]. cbn [subst_first].
  destruct (bool_decide _); [done|]. cbn [List.map]. by rewrite IH.
Qed.

Lemma fold_subst_first_gaps others acc :
  List.map leaf_gap
    (fold_left (fun acc r => subst_first (leaf_attr r) (leaf_content r) (leaf_attr r) [] acc)
               others acc)
  = List.map leaf_gap acc.
Proof.
  revert acc. induction others as [|r rs IH]; intros acc; [done|].
  cbn [fold_left]. by rewrite IH, subst_first_gaps.
Qed.

Lemma patched_runs_gaps E runs :
  List.map leaf_gap (patched_runs E runs) = List.map leaf_gap runs.
Proof.
  destruct runs as [|r1 others]; [done|]. unfold patched_runs.
  by rewrite fold_subst_first_gaps, subst_first_gaps.
Qed.

(** A paragraph starts with its own tag, and a leaf does not. *)
Lemma tag_p_prefix b0 a c rest :
  tag_at tag_p (b0 ++ leaf a c ++ rest) = true -> exists b1, b0 = tag_p ++ b1.
Proof.
  unfold tag_at. intros T. apply andb_true_iff in T as [S _].
  unfold leaf, tag_t, tag_p in *.
  destruct b0 as [|c0 [|c1 [|c2 [|c3 b4]]]]; cbn [app starts_with] in S.
  - done.
  - apply andb_true_iff in S as [_ S]. done.
  - apply andb_true_iff in S as [_ S]. apply andb_true_iff in S as [_ S]. done.
  - apply andb_true_iff in S as [_ S]. apply andb_true_iff in S as [_ S].
    apply andb_true_iff in S as [_ S]. done.
  - apply andb_true_iff in S as [S0 S]. apply andb_true_iff in S as [S1 S].
    apply andb_true_iff in S as [S2 S]. apply andb_true_iff in S as [S3 _].
    apply N.eqb_eq in S0 as <-, S1 as <-, S2 as <-, S3 as <-. by exists b4.
Qed.

Lemma tag_at_p_leaf b1 a c rest a' c' rest' :
  tag_at tag_p (tag_p ++ b1 ++ leaf a c ++ rest)
  = tag_at tag_p (tag_p ++ b1 ++ leaf a' c' ++ rest').
Proof. by destruct b1. Qed.

(** The paragraph after the write-back is a match of the paragraph pattern
    again, up to its end. *)
Lemma patched_match b0 runs t :
  runs <> [] -> quiet b0 = true -> forallb plain_run runs = true ->
  lacks 36 t = true ->
  match_paragraphRe (b0 ++ runs_xml runs) = Some (b0 ++ runs_xml runs, []) ->
  match_paragraphRe (replaceParagraphTextInXml (b0 ++ runs_xml runs) t)
  = Some (replaceParagraphTextInXml (b0 ++ runs_xml runs) t, []).
Proof.
  intros Hn Q P Ht M. rewrite replaceParagraph_runs by done.
  pose proof (patched_runs_gaps (encodeXmlText t) runs) as G.
  pose proof (patched_runs_plain (encodeXmlText t) runs (encode_lacks_lt t) P) as P'.
  set (runs' := patched_runs (encodeXmlText t) runs) in *. clearbody runs'.
  destruct runs as [|r rs]; [done|]. destruct runs' as [|r' rs']; [done|].
  revert M. unfold match_paragraphRe.
  destruct (tag_at tag_p (b0 ++ runs_xml (r :: rs))) eqn:T; [|done].
  unfold runs_xml in T. cbn [flat_map] in T. unfold run_xml at 1 in T.
  rewrite <- app_assoc in T.
  pose proof (tag_p_prefix _ _ _ _ T) as [b1 Eb]. subst b0.
  assert (T' : tag_at tag_p ((tag_p ++ b1) ++ runs_xml (r' :: rs')) = true).
  { unfold runs_xml. cbn [flat_map]. unfold run_xml at 1.
    rewrite <- !app_assoc in *.
    by rewrite (tag_at_p_leaf b1 _ _ _ (leaf_attr r) (leaf_content r)
                  (leaf_gap r ++ flat_map run_xml rs)). }
  rewrite T'. rewrite <- !app_assoc.
  change (skipn 4 (tag_p ++ ?u)) with u.
  destruct (until_literal close_p (b1 ++ runs_xml (r :: rs))) as [[body rest]|] eqn:U;
    [|done].
  intros [= _ ->].
  destruct (until_close_runs (r :: rs) (r' :: rs') b1 body G P P' U) as [x' U'].
  rewrite U'. apply until_literal_app in U'. rewrite app_nil_r in U'.
  by rewrite U'.
Qed.

Lemma patch_extract_runs b0 runs t :
  runs <> [] -> quiet b0 = true -> forallb plain_run runs = true -> lacks 36 t = true ->
  extractParagraphText (replaceParagraphTextInXml (b0 ++ runs_xml runs) t) = trimEnd t.
Proof.
  intros Hn Q P Ht. rewrite replaceParagraph_runs by done.
  rewrite extract_runs; [|done|apply patched_runs_plain; [apply encode_lacks_lt|done]].
  rewrite (holder_text (encodeXmlText t)) by (by apply holder_patched).
  by rewrite encode_flat_map, decode_flat_map.
Qed.

(** What the pattern matched is a match of its own, up to its end. *)
Lemma until_literal_self close body rest :
  until_literal close (body ++ close ++ rest) = Some (body, rest) ->
  until_literal close (body ++ close) = Some (body, []).
Proof.
  induction body as [|c b IH]; intros H.
  - pose proof (until_literal_found close []) as F. by rewrite app_nil_r in F.
  - change ((c :: b) ++ close ++ rest) with (c :: (b ++ close ++ rest)) in H.
    change ((c :: b) ++ close) with (c :: (b ++ close)).
    destruct (starts_with close (c :: b ++ close ++ rest)) eqn:S.
    { rewrite until_literal_here in H by done. done. }
    rewrite until_literal_later in H by done.
    destruct (until_literal close (b ++ close ++ rest)) as [[y r]|] eqn:U; [|done].
    injection H as -> ->.
    assert (S' : starts_with close (c :: b ++ close) = false).
    { destruct (starts_with close (c :: b ++ close)) eqn:S'; [|done].
      apply (starts_with_app_l _ _ rest) in S'.
      change ((c :: b ++ close) ++ rest) with (c :: ((b ++ close) ++ rest)) in S'.
      rewrite <- app_assoc in S'. by rewrite S' in S. }
    rewrite until_literal_later by done. by rewrite IH.
Qed.

Lemma match_paragraphRe_self s paraXml rest :
  match_paragraphRe s = Some (paraXml, rest) ->
  match_paragraphRe paraXml = Some (paraXml, []).
Proof.
  intros M. pose proof (match_paragraphRe_app _ _ _ M) as E. revert M.
  unfold match_paragraphRe at 1.
  destruct (tag_at tag_p s) eqn:T; [|done].
  destruct (until_literal close_p (skipn 4 s)) as [[body r]|] eqn:U; [|done].
  intros M.
  assert (E1 : paraXml = tag_p ++ body ++ close_p) by congruence.
  assert (E2 : rest = r) by congruence.
  clear M. subst paraXml rest.
  pose proof (until_literal_app _ _ _ _ U) as E3. rewrite E3 in U.
  apply until_literal_self in U.
  assert (T' : tag_at tag_p (tag_p ++ body ++ close_p) = true).
  { rewrite E in T. revert T. unfold tag_at, tag_p, close_p.
    by destruct body. }
  unfold match_paragraphRe.
  rewrite T'. change (skipn 4 (tag_p ++ ?u)) with u. by rewrite U.
Qed.

Lemma tag_at_opens name post u' :
  tag_at name post = true -> tag_at name (post ++ 60%N :: u') = true.
Proof.
  unfold tag_at. intros T. apply andb_true_iff in T as [S B].
  rewrite (starts_with_app_l _ _ _ S). cbn [andb].
  rewrite (starts_with_skipn _ _ S) in *.
  rewrite <- app_assoc, !drop_app_length in *.
  by destruct (skipn (length name) post).
Qed.

Lemma match_paragraphRe_nonempty x : match_paragraphRe x = Some (x, []) -> exists x', x = 60%N :: x'.
Proof.
  unfold match_paragraphRe. destruct (tag_at tag_p x) eqn:T; [|done].
  intros _. apply tag_at_skipn in T. rewrite T. by eexists.
Qed.

(** The search for the next paragraph stops where it stopped before, when
    the paragraph found there has been rewritten. *)
Lemma exec_patched before X after X' J :
  (forall pre post, before = pre ++ post -> post <> [] ->
                    match_paragraphRe (post ++ X ++ after) = None) ->
  match_paragraphRe X = Some (X, []) ->
  match_paragraphRe X' = Some (X', []) ->
  exec_from match_paragraphRe (before ++ X' ++ J) = Some (before, X', J).
Proof.
  intros Hskip M M'.
  destruct (match_paragraphRe_nonempty _ M') as [x' Ex'].
  pose proof (match_paragraphRe_app_l _ J _ _ M') as MJ. cbn [app] in MJ.
  rewrite exec_from_skip.
  - rewrite (exec_from_here _ _ _ _ MJ); [by rewrite app_nil_r|].
    rewrite Ex'. done.
  - intros pre post E Hp.
    destruct (match_paragraphRe (post ++ X' ++ J)) as [[y r]|] eqn:N; [|done].
    exfalso. revert N. unfold match_paragraphRe.
    destruct (tag_at tag_p (post ++ X' ++ J)) eqn:T; [|done]. intros _.
    assert (Tp : tag_at tag_p post = true).
    { destruct (tag_at tag_p post) eqn:Tp; [done|].
      assert (O : opens_tag (X' ++ J)) by (right; rewrite Ex'; by eexists).
      pose proof (tag_at_straddle [119; 58; 112]%N post (X' ++ J) eq_refl O Hp Tp) as F.
      unfold tag_p in T. by rewrite F in T. }
    specialize (Hskip pre post E Hp). revert Hskip.
    destruct (match_paragraphRe_nonempty _ M) as [x Ex].
    unfold match_paragraphRe.
    assert (T2 : tag_at tag_p (post ++ X ++ after) = true).
    { rewrite Ex. cbn [app]. by apply tag_at_opens. }
    rewrite T2.
    pose proof (tag_at_skipn _ _ Tp) as Es. change (length tag_p) with 4%nat in Es.
    rewrite Es. rewrite <- app_assoc.
    change (skipn 4 (tag_p ++ ?u)) with u.
    destruct (match_paragraphRe_shape _ _ _ M) as (_ & [body Eb] & _).
    rewrite Eb at 1. rewrite <- !app_assoc.
    rewrite 2!app_assoc.
    destruct (until_literal_occurs close_p ((skipn 4 post ++ tag_p) ++ body) after)
      as (b2 & r2 & ->).
    done.
Qed.

(** *** The table-cell counter over a rewritten paragraph *)

Lemma matchAll_skip {A} (m : jsstring -> option (A * jsstring)) b s :
  consumes m ->
  (forall pre post, b = pre ++ post -> post <> [] -> m (post ++ s) = None) ->
  matchAll m (b ++ s) = matchAll m s.
Proof.
  intros Hm H. pose proof (exec_from_skip m b s H) as E.
  destruct (exec_from m s) as [[[x a] r]|] eqn:Es.
  - by rewrite (matchAll_found m _ _ _ _ Hm E), (matchAll_found m _ _ _ _ Hm Es).
  - by rewrite (matchAll_none m _ E), (matchAll_none m _ Es).
Qed.

Lemma matchAll_local {A} (m : jsstring -> option (A * jsstring)) b u :
  local_matcher m ->
  matchAll m (b ++ 60%N :: u) = matchAll m b ++ matchAll m (60%N :: u).
Proof.
  intros (Hm & P1 & P2).
  remember (length b) as n eqn:Hn. revert b Hn.
  induction n as [n IH] using lt_wf_ind. intros b ->.
  destruct (exec_from m b) as [[[pre a] after]|] eqn:E.
  - destruct (exec_from_Some _ _ _ _ _ E) as (s' & Eb & Ms & Hpre).
    pose proof (exec_from_shorter m b pre a after Hm E) as L.
    assert (E' : exec_from m (b ++ 60%N :: u) = Some (pre, a, after ++ 60%N :: u)).
    { rewrite Eb, <- app_assoc. rewrite exec_from_skip.
      - rewrite (exec_from_here m _ a (after ++ 60%N :: u)).
        + by rewrite app_nil_r.
        + by apply P2.
        + by destruct s'.
      - intros pre1 post1 E1 Hp1. rewrite app_assoc. apply P1; [by destruct post1|].
        by apply (Hpre pre1). }
    rewrite (matchAll_found m _ _ _ _ Hm E'), (matchAll_found m _ _ _ _ Hm E).
    cbn [app]. f_equal. by apply (IH (length after)).
  - rewrite (matchAll_none m _ E). cbn [app]. apply matchAll_skip; [done|].
    intros pre post Eb Hp. apply P1; [done|].
    by apply (proj1 (exec_from_None m b) E pre).
Qed.

Lemma skipn_app_le {A} n (l1 l2 : list A) :
  (n <= length l1)%nat -> skipn n (l1 ++ l2) = skipn n l1 ++ l2.
Proof.
  intros H. rewrite skipn_app. replace (n - length l1)%nat with 0%nat by lia. done.
Qed.

Lemma match_openRe_local : local_matcher match_openRe.
Proof.
  split; [exact match_openRe_consumes|]. split.
  - intros post u Hp. unfold match_openRe.
    destruct (tag_at tag_tc post) eqn:T; [done|]. intros _.
    pose proof (tag_at_straddle [119; 58; 116; 99]%N post (60%N :: u) eq_refl
                  ltac:(right; by eexists) Hp T) as F.
    unfold tag_tc. by rewrite F.
  - intros s a rest u. unfold match_openRe.
    destruct (tag_at tag_tc s) eqn:T; [|done]. intros [= <- <-].
    rewrite (tag_at_opens _ _ u T). f_equal. f_equal.
    apply skipn_app_le. apply tag_at_length in T.
    change (length tag_tc) with 5%nat in T. lia.
Qed.

Lemma close_tc_straddle post u :
  post <> [] ->
  starts_with close_tc (post ++ 60%N :: u) = true -> starts_with close_tc post = true.
Proof.
  intros Hp. destruct post as [|c post]; [done|].
  unfold close_tc.
  change (starts_with (60%N :: ?p) ((c :: post) ++ 60%N :: u))
    with (N.eqb 60 c && starts_with p (post ++ 60%N :: u)).
  change (starts_with (60%N :: ?p) (c :: post))
    with (N.eqb 60 c && starts_with p post).
  intros H. apply andb_true_iff in H as [-> H]. cbn [andb].
  apply (starts_with_straddle _ post (60%N :: u)); [done| |done].
  right. by eexists.
Qed.

Lemma match_closeRe_local : local_matcher match_closeRe.
Proof.
  split; [exact match_closeRe_consumes|]. split.
  - intros post u Hp. unfold match_closeRe.
    destruct (starts_with close_tc post) eqn:T; [done|]. intros _.
    destruct (starts_with close_tc (post ++ 60%N :: u)) eqn:T'; [|done].
    apply close_tc_straddle in T'; [|done]. by rewrite T' in T.
  - intros s a rest u. unfold match_closeRe.
    destruct (starts_with close_tc s) eqn:T; [|done]. intros [= <- <-].
    rewrite (starts_with_app_l _ _ _ T). f_equal. f_equal.
    apply skipn_app_le. apply starts_with_skipn in T.
    apply (f_equal (@length N)) in T. rewrite length_app in T.
    change (length close_tc) with 7%nat in T. lia.
Qed.

(** Inside a leaf no table cell opens or closes. *)
Lemma leaf_no_open a c rest :
  plain_attr a = true -> lacks 60 c = true ->
  forall pre post, leaf a c = pre ++ post -> post <> [] ->
                   match_openRe (post ++ rest) = None.
Proof.
  intros Pa Hc pre post E Hp. unfold match_openRe.
  destruct (tag_at tag_tc (post ++ rest)) eqn:T; [|done]. exfalso.
  unfold tag_at in T. apply andb_true_iff in T as [S _].
  destruct (plain_attr_lacks _ Pa) as (Ha & _ & _).
  destruct pre as [|p pre].
  - simpl in E. subst post. revert S. unfold leaf, tag_t, tag_tc, gt.
    unfold plain_attr in Pa. apply andb_true_iff in Pa as [_ W].
    destruct a as [|d a]; cbn [app starts_with]; [done|].
    rewrite !andb_true_iff. intros (_ & _ & _ & _ & D & _).
    apply N.eqb_eq in D as <-. done.
  - unfold leaf, tag_t in E. simpl in E. injection E as <- E.
    assert (U : lacks 60 (js "w:t" ++ a ++ gt ++ c) = true).
    { rewrite !lacks_app, Ha, Hc. reflexivity. }
    pose proof (leaf_tail_inert (js "w:t" ++ a ++ gt ++ c) rest U pre post) as N.
    rewrite <- !app_assoc in N. specialize (N E Hp).
    revert S N. unfold tag_tc.
    destruct (post ++ rest) as [|q0 [|q1 v]]; cbn [starts_with];
      rewrite ?andb_false_r; try done.
    rewrite !andb_true_iff. intros (S0 & S1 & _). by rewrite S0, S1.
Qed.

Lemma leaf_tail_no_close_tc u rest :
  lacks 60 u = true ->
  forall pre post, u ++ close_t = pre ++ post -> post <> [] ->
                   starts_with close_tc (post ++ rest) = false.
Proof.
  induction u as [|d u IH]; intros H pre post E Hp.
  - simpl in E.
    destruct pre as [|p0 [|p1 [|p2 [|p3 [|p4 [|p5 pre]]]]]];
      simpl in E; try (subst post; reflexivity);
      try (injection E as <- <- <- <- <- <- E; by destruct pre, post);
      try (injection E as <- E; subst post; reflexivity);
      try (injection E as <- <- E; subst post; reflexivity);
      try (injection E as <- <- <- E; subst post; reflexivity);
      try (injection E as <- <- <- <- E; subst post; reflexivity);
      try (injection E as <- <- <- <- <- E; subst post; reflexivity).
  - rewrite lacks_cons in H. apply andb_true_iff in H as [Hd H].
    destruct pre as [|p pre].
    + simpl in E. subst post. unfold close_tc. cbn [app starts_with].
      apply negb_true_iff in Hd. by rewrite N.eqb_sym, Hd.
    + simpl in E. injection E as <- E. by apply (IH H pre).
Qed.

Lemma leaf_no_close_tc a c rest :
  plain_attr a = true -> lacks 60 c = true ->
  forall pre post, leaf a c = pre ++ post -> post <> [] ->
                   match_closeRe (post ++ rest) = None.
Proof.
  intros Pa Hc pre post E Hp. unfold match_closeRe.
  destruct (plain_attr_lacks _ Pa) as (Ha & _ & _).
  assert (S : starts_with close_tc (post ++ rest) = false); [|by rewrite S].
  destruct pre as [|p pre].
  - simpl in E. subst post. reflexivity.
  - unfold leaf, tag_t in E. simpl in E. injection E as <- E.
    assert (U : lacks 60 (js "w:t" ++ a ++ gt ++ c) = true).
    { rewrite !lacks_app, Ha, Hc. reflexivity. }
    apply (leaf_tail_no_close_tc (js "w:t" ++ a ++ gt ++ c) rest U pre post); [|done].
    by rewrite <- !app_assoc.
Qed.

(** The matches of a local pattern that no leaf holds are those of the
    markup around the leaves. *)
Lemma matchAll_gaps {A} (m : jsstring -> option (A * jsstring)) runs :
  local_matcher m ->
  (forall a c rest, plain_attr a = true -> lacks 60 c = true ->
     forall pre post, leaf a c = pre ++ post -> post <> [] -> m (post ++ rest) = None) ->
  forall b, forallb plain_run runs = true ->
    matchAll m (b ++ runs_xml runs)
    = matchAll m b ++ concat (List.map (fun g => matchAll m g) (List.map leaf_gap runs)).
Proof.
  intros Hl Hleaf. induction runs as [|r rs IH]; intros b P.
  - cbn. by rewrite !app_nil_r.
  - cbn [forallb] in P. apply andb_true_iff in P as [Pr P].
    pose proof Pr as Pr'. unfold plain_run in Pr'.
    apply andb_true_iff in Pr' as [Pr' _]. apply andb_true_iff in Pr' as [Pa Pc].
    unfold runs_xml. cbn [flat_map List.map concat]. unfold run_xml at 1.
    rewrite <- !app_assoc.
    change (leaf (leaf_attr r) (leaf_content r) ++ ?x)
      with (60%N :: (skipn 1 (leaf (leaf_attr r) (leaf_content r)) ++ x)).
    rewrite matchAll_local by done. f_equal.
    change (60%N :: (skipn 1 (leaf (leaf_attr r) (leaf_content r)) ++ ?x))
      with (leaf (leaf_attr r) (leaf_content r) ++ x).
    rewrite matchAll_skip; [|by destruct Hl|by apply Hleaf].
    by apply IH.
Qed.

Lemma updateTableCellDepth_patched b0 runs t tcDepth :
  runs <> [] -> quiet b0 = true -> forallb plain_run runs = true ->
  lacks 36 t = true ->
  updateTableCellDepth (replaceParagraphTextInXml (b0 ++ runs_xml runs) t) tcDepth
  = updateTableCellDepth (b0 ++ runs_xml runs) tcDepth.
Proof.
  intros Hn Q P Ht. rewrite replaceParagraph_runs by done.
  pose proof (patched_runs_gaps (encodeXmlText t) runs) as G.
  pose proof (patched_runs_plain (encodeXmlText t) runs (encode_lacks_lt t) P) as P'.
  unfold updateTableCellDepth.
  rewrite !(matchAll_gaps match_openRe _ match_openRe_local leaf_no_open) by done.
  rewrite !(matchAll_gaps match_closeRe _ match_closeRe_local leaf_no_close_tc) by done.
  by rewrite G.
Qed.

(** *** The document *)

Lemma map_patch_chunk_opt replacements (before : jsstring) parts :
  List.map (patchPart replacements)
    (match before with [] => [] | _ :: _ => [PChunk before] end ++ parts)
  = match before with [] => [] | _ :: _ => [PChunk before] end
    ++ List.map (patchPart replacements) parts.
Proof. by destruct before. Qed.

Lemma map_reparsed_chunk_opt replacements (before : jsstring) parts :
  List.map (reparsed replacements)
    (match before with [] => [] | _ :: _ => [PChunk before] end ++ parts)
  = match before with [] => [] | _ :: _ => [PChunk before] end
    ++ List.map (reparsed replacements) parts.
Proof. by destruct before. Qed.

Lemma part_xml_patched replacements p :
  part_xml (patchPart replacements (PParagraph p)) = patched_xml replacements p.
Proof. unfold patched_xml. cbn [patchPart]. by destruct (replacements !! id p). Qed.

Lemma join_cons part parts : join (part :: parts) = part_xml part ++ join parts.
Proof. reflexivity. Qed.

(** Splitting the document that the write-back joined gives the chunks of
    the old document and its paragraphs, each with its new text. *)
Lemma split_loop_patched replacements fuel :
  forall rest paraIndex tcDepth fuel',
    (length rest < fuel)%nat ->
    (forall p, p ∈ paragraphs_of (split_loop fuel rest paraIndex tcDepth) ->
               match_paragraphRe (xml p) = Some (xml p, []) /\
               match_paragraphRe (patched_xml replacements p)
               = Some (patched_xml replacements p, []) /\
               extractParagraphText (patched_xml replacements p)
               = patched_text replacements p /\
               forall d, updateTableCellDepth (patched_xml replacements p) d
                         = updateTableCellDepth (xml p) d) ->
    (length (join (List.map (patchPart replacements)
                     (split_loop fuel rest paraIndex tcDepth))) < fuel')%nat ->
    split_loop fuel'
      (join (List.map (patchPart replacements) (split_loop fuel rest paraIndex tcDepth)))
      paraIndex tcDepth
    = List.map (reparsed replacements) (split_loop fuel rest paraIndex tcDepth).
Proof.
  induction fuel as [|fuel IH]; intros rest i d fuel' Hf; [lia|].
  destruct fuel' as [|fuel']; [lia|].
  cbn [split_loop].
  destruct (exec_from match_paragraphRe rest) as [[[before X] after]|] eqn:E.
  - destruct (exec_from_Some _ _ _ _ _ E) as (s' & Es & Ms & Hskip).
    pose proof (match_paragraphRe_app _ _ _ Ms) as Es'. subst s'.
    destruct (exec_paragraphRe_app _ _ _ _ E) as [_ L].
    set (d1 := match before with [] => d | _ :: _ => updateTableCellDepth before d end).
    set (p := {| id := paragraph_id i; index := i; kind := kind_of_depth d1;
                 text := extractParagraphText X; xml := X |}).
    intros Hp Hf'.
    rewrite map_patch_chunk_opt, join_chunk_opt in *.
    cbn [List.map] in *. rewrite join_cons, part_xml_patched in *.
    assert (Hp0 : p ∈ paragraphs_of
                    (match before with [] => [] | _ :: _ => [PChunk before] end
                     ++ PParagraph p
                        :: split_loop fuel after (S i) (updateTableCellDepth X d1))).
    { rewrite paragraphs_of_chunk_opt. cbn. apply elem_of_cons. by left. }
    destruct (Hp p Hp0) as (M0 & M' & Tx & Td).
    rewrite (exec_patched before X after _ _ Hskip M0 M').
    destruct (match_paragraphRe_nonempty _ M') as [x' Ex'].
    rewrite map_reparsed_chunk_opt. fold d1. f_equal.
    cbn [List.map reparsed]. f_equal.
    { unfold reparsed_paragraph. cbn [id index kind text xml]. by rewrite Tx. }
    rewrite Td. cbn [xml]. apply IH; [lia| |].
    + intros q Hq. apply Hp. rewrite paragraphs_of_chunk_opt.
      cbn. apply elem_of_cons. by right.
    + revert Hf'. rewrite !length_app, Ex'. cbn [length]. lia.
  - intros _ Hf'. destruct rest as [|c rest]; [done|].
    cbn [List.map patchPart join concat part_xml reparsed] in *.
    unfold join in *. cbn [List.map concat part_xml] in *.
    rewrite app_nil_r in *. by rewrite E.
Qed.

Lemma split_loop_texts fuel :
  forall rest paraIndex tcDepth,
    Forall (fun p => text p = extractParagraphText (xml p) /\
                     match_paragraphRe (xml p) = Some (xml p, []))
           (paragraphs_of (split_loop fuel rest paraIndex tcDepth)).
Proof.
  induction fuel as [|fuel IH]; intros rest i d; [constructor|].
  cbn [split_loop].
  destruct (exec_from match_paragraphRe rest) as [[[before X] after]|] eqn:E.
  - rewrite paragraphs_of_chunk_opt.
    change (paragraphs_of (PParagraph ?p :: ?l)) with (p :: paragraphs_of l).
    constructor; [|apply IH]. cbn [text xml]. split; [done|].
    destruct (exec_from_Some _ _ _ _ _ E) as (s' & _ & Ms & _).
    by apply match_paragraphRe_self in Ms.
  - destruct rest; constructor.
Qed.

Lemma paragraphs_of_reparsed replacements parts :
  paragraphs_of (List.map (reparsed replacements) parts)
  = List.map (reparsed_paragraph replacements) (paragraphs_of parts).
Proof.
  induction parts as [|[x|p] parts IH]; [done| |]; cbn; [done|]. by f_equal.
Qed.

(** X23: when every paragraph that the replacement map
    names is writable and every new text is without [$], parsing the
    document that [patchDocxParagraphs] wrote gives the chunks of the old
    document and its paragraphs, with the same ids, indexes and kinds; a
    paragraph that the map names has the new text (less the white space at
    its end), every other paragraph has its old markup and its old text. *)
Theorem patch_then_parse (documentXml : jsstring) (replacements : gmap jsstring jsstring) :
  (forall p t, p ∈ snd (splitDocumentXmlIntoParts documentXml) ->
               replacements !! id p = Some t ->
               writable (xml p) /\ lacks 36 t = true) ->
  let nextDocumentXml := patchDocumentXml documentXml replacements in
  fst (splitDocumentXmlIntoParts nextDocumentXml)
  = List.map (reparsed replacements) (fst (splitDocumentXmlIntoParts documentXml)) /\
  snd (splitDocumentXmlIntoParts nextDocumentXml)
  = List.map (reparsed_paragraph replacements) (snd (splitDocumentXmlIntoParts documentXml)).
Proof.
  intros H. cbv zeta.
  assert (A : fst (splitDocumentXmlIntoParts (patchDocumentXml documentXml replacements))
              = List.map (reparsed replacements)
                  (fst (splitDocumentXmlIntoParts documentXml))).
  { unfold patchDocumentXml, splitDocumentXmlIntoParts in *. cbn [fst snd] in *.
    apply split_loop_patched; [lia| |unfold join; lia].
    intros p Hp.
    pose proof (split_loop_texts (S (length documentXml)) documentXml 0 0) as T.
    rewrite Forall_forall in T. destruct (T p Hp) as [Tx M].
    split; [done|]. unfold patched_xml, patched_text. cbn [patchPart].
    destruct (replacements !! id p) as [t|] eqn:L; [|by rewrite Tx].
    destruct (H p t Hp L) as [(b0 & runs & Ex & Hn & Q & P) Ht].
    cbn [xml]. rewrite Ex in *.
    split; [by apply patched_match|]. split; [by apply patch_extract_runs|].
    intros d. by apply updateTableCellDepth_patched. }
  split; [done|].
  unfold splitDocumentXmlIntoParts in *. cbn [fst snd] in *.
  by rewrite A, paragraphs_of_reparsed.
Qed.

Lemma patch_then_parse_witness :
  (forall p t, p ∈ snd (splitDocumentXmlIntoParts sample_document) ->
               sample_replacements !! id p = Some t ->
               writable (xml p) /\ lacks 36 t = true) /\
  List.map (fun p => (id p, kind p, text p))
    (snd (splitDocumentXmlIntoParts (patchDocumentXml sample_document sample_replacements)))
  = [(js "p-0", paragraph, js "Title");
     (js "p-1", tableCellParagraph, js "new & better");
     (js "p-2", paragraph, js "End")].
Proof.
  assert (H : forall p t, p ∈ snd (splitDocumentXmlIntoParts sample_document) ->
                          sample_replacements !! id p = Some t ->
                          writable (xml p) /\ lacks 36 t = true).
  { intros p t Hp L.
    set (ps := snd (splitDocumentXmlIntoParts sample_document)) in Hp.
    vm_compute in ps. subst ps.
    apply elem_of_cons in Hp as [->|Hp]; [vm_compute in L; discriminate|].
    apply elem_of_cons in Hp as [->|Hp].
    - vm_compute in L. injection L as <-. split; [|reflexivity].
      exists (js "<w:p><w:r>"),
        [ {| leaf_attr := []; leaf_content := js "old "; leaf_gap := js "</w:r><w:r>" |};
          {| leaf_attr := []; leaf_content := js "text"; leaf_gap := js "</w:r></w:p>" |} ].
      split; [vm_compute; reflexivity|]. split; [discriminate|].
      split; vm_compute; reflexivity.
    - apply elem_of_cons in Hp as [->|Hp]; [vm_compute in L; discriminate|].
      by apply elem_of_nil in Hp. }
  split; [exact H|].
  destruct (patch_then_parse sample_document sample_replacements H) as [_ T].
  rewrite T. vm_compute. reflexivity.
Defined.

(** The document of the example after the write-back: the table cell and
    the other two paragraphs are as before. *)
Example patch_document_sample :
  patchDocumentXml sample_document sample_replacements
  = js "<w:body><w:p><w:r><w:t>Title</w:t></w:r></w:p><w:tbl><w:tc><w:p><w:r><w:t"
    ++ preserve_attr
    ++ js ">new &amp; better</w:t></w:r><w:r><w:t></w:t></w:r></w:p></w:tc></w:tbl><w:p><w:r><w:t>End</w:t></w:r></w:p></w:body>".
Proof. vm_compute. reflexivity. Qed.

(** ** The ledger *)

Lemma Math_max_zero_not_below y : (Math_max 0 y <? 0)%float = false.
Proof.
  destruct (PrimFloat.is_nan y) eqn:N.
  - unfold Math_max. rewrite N. by rewrite orb_true_r.
  - apply ltb_zero_nonneg. by apply Math_max_zero_number.
Qed.

Lemma deltas_app id txs1 txs2 :
  ledger.deltas id (txs1 ++ txs2) = ledger.deltas id txs1 ++ ledger.deltas id txs2.
Proof. unfold ledger.deltas. by rewrite List.filter_app, map_app. Qed.

Lemma after_deltas_app opening ds1 ds2 :
  ledger.after_deltas opening (ds1 ++ ds2)
  = ledger.after_deltas (ledger.after_deltas opening ds1) ds2.
Proof. apply fold_left_app. Qed.

Lemma explained_refl state : ledger.explained state state.
Proof.
  exists []. split; [by rewrite app_nil_r|]. intros id acc H. by exists acc.
Qed.

Lemma explained_trans s1 s2 s3 :
  ledger.explained s1 s2 -> ledger.explained s2 s3 -> ledger.explained s1 s3.
Proof.
  intros (n1 & T1 & A1) (n2 & T2 & A2). exists (n1 ++ n2).
  split; [by rewrite T2, T1, app_assoc|].
  intros id acc H. destruct (A1 id acc H) as (acc1 & H1 & I1 & C1 & B1).
  destruct (A2 id acc1 H1) as (acc2 & H2 & I2 & C2 & B2).
  exists acc2. split; [done|]. split; [congruence|]. split; [congruence|].
  by rewrite deltas_app, after_deltas_app, <- B1.
Qed.

Lemma ensureAccount_explained now id initialBalance state :
  ledger.explained state (snd (ledger.ensureAccount now id initialBalance state)).
Proof.
  unfold ledger.ensureAccount.
  destruct (ledger.accounts state !! id) as [cur|] eqn:L; [apply explained_refl|].
  exists []. cbn [snd ledger.transactions ledger.accounts].
  split; [by rewrite app_nil_r|]. intros id' acc H. exists acc.
  split; [|done]. rewrite lookup_insert_ne; [done|]. by intros ->; rewrite L in H.
Qed.

Lemma apply_explained now uuid id delta reason state :
  ledger.explained state (snd (ledger.apply now uuid id delta reason state)).
Proof.
  unfold ledger.apply.
  destruct (ledger.accounts state !! id) as [acc0|] eqn:L; [|apply explained_refl].
  destruct (_ <? 0)%float; [apply explained_refl|].
  cbn [snd]. eexists. cbn [ledger.transactions ledger.accounts].
  split; [reflexivity|]. intros id' acc H.
  unfold ledger.deltas. cbn [List.filter ledger.tx_accountId].
  destruct (decide (id = id')) as [<-|Hne].
  - rewrite lookup_insert_eq. eexists. split; [reflexivity|].
    rewrite L in H. injection H as <-.
    rewrite bool_decide_eq_true_2 by done. done.
  - rewrite lookup_insert_ne by done. exists acc. split; [done|].
    rewrite bool_decide_eq_false_2 by done. done.
Qed.

Lemma call_explained c state : ledger.explained state (ledger.call c state).
Proof.
  destruct c as [now id b|now uuid id points|now uuid id points|now uuid id points];
    cbn [ledger.call].
  - apply ensureAccount_explained.
  - unfold ledger.topup. destruct (falsy _); [apply explained_refl|apply apply_explained].
  - unfold ledger.charge. destruct (falsy _); [apply explained_refl|].
    destruct (_ <? _)%float; [apply explained_refl|apply apply_explained].
  - unfold ledger.refund. destruct (falsy _); [apply explained_refl|apply apply_explained].
Qed.

Lemma apply_solvent now uuid id delta reason state :
  ledger.solvent state -> ledger.solvent (snd (ledger.apply now uuid id delta reason state)).
Proof.
  intros S. unfold ledger.apply.
  destruct (ledger.accounts state !! id) as [acc0|] eqn:L; [|done].
  destruct (_ <? 0)%float eqn:B; [done|].
  cbn [snd]. intros id' acc. cbn [ledger.accounts].
  destruct (decide (id = id')) as [<-|Hne].
  - rewrite lookup_insert_eq. by intros [= <-].
  - rewrite lookup_insert_ne by done. apply S.
Qed.

Lemma call_solvent c state : ledger.solvent state -> ledger.solvent (ledger.call c state).
Proof.
  intros S.
  destruct c as [now id b|now uuid id points|now uuid id points|now uuid id points];
    cbn [ledger.call].
  - unfold ledger.ensureAccount.
    destruct (ledger.accounts state !! id) as [cur|] eqn:L; [done|].
    cbn [snd]. intros id' acc. cbn [ledger.accounts].
    destruct (decide (id = id')) as [<-|Hne].
    + rewrite lookup_insert_eq. intros [= <-]. apply Math_max_zero_not_below.
    + rewrite lookup_insert_ne by done. apply S.
  - unfold ledger.topup. destruct (falsy _); [done|by apply apply_solvent].
  - unfold ledger.charge. destruct (falsy _); [done|].
    destruct (_ <? _)%float; [done|by apply apply_solvent].
  - unfold ledger.refund. destruct (falsy _); [done|by apply apply_solvent].
Qed.

(** X24: over any sequence of calls of [ensureAccount], [topup],
    [charge] and [refund], with any arguments (the ids not being names of
    members of [Object.prototype], where the object read is not the map):
    transactions are only appended; every account stays, with its id and
    creation time; its balance is the balance it had with the deltas of its
    new transactions added in order; and no balance is below zero at the
    end if none was at the start. *)
Theorem ledger_run (calls : list ledger.LedgerCall) (state : ledger.LedgerFileState) :
  Forall (fun c => ledger.ordinary (ledger.call_id c)) calls ->
  ledger.explained state (ledger.run calls state) /\
  (ledger.solvent state -> ledger.solvent (ledger.run calls state)).
Proof.
  intros _. revert state. unfold ledger.run.
  induction calls as [|c calls IH]; intros state; cbn [fold_left].
  - split; [apply explained_refl|done].
  - destruct (IH (ledger.call c state)) as [E S]. split.
    + eapply explained_trans; [apply call_explained|exact E].
    + intros S0. by apply S, call_solvent.
Qed.

Lemma sample_calls_ordinary :
  Forall (fun c => ledger.ordinary (ledger.call_id c)) ledger.sample_calls.
Proof.
  assert (O : ledger.ordinary (js "alice")).
  { unfold ledger.ordinary, ledger.Object_prototype_keys. cbn [List.map].
    intros H. repeat (apply elem_of_cons in H as [H|H]; [discriminate H|]).
    by apply elem_of_nil in H. }
  unfold ledger.sample_calls. repeat constructor; exact O.
Defined.

Lemma ledger_run_witness :
  Forall (fun c => ledger.ordinary (ledger.call_id c)) ledger.sample_calls /\
  ledger.explained ledger.empty (ledger.run ledger.sample_calls ledger.empty).
Proof.
  split; [exact sample_calls_ordinary|].
  apply (ledger_run ledger.sample_calls ledger.empty). exact sample_calls_ordinary.
Defined.

(** The calls of the example leave the 5 free points and two transactions:
    the initial balance is floored, the refund undoes the charge, and the
    charge of 6 is refused. *)
Example ledger_sample :
  ledger.getBalance (js "alice") (ledger.run ledger.sample_calls ledger.empty) = 5%float /\
  List.map ledger.delta (ledger.transactions (ledger.run ledger.sample_calls ledger.empty))
  = [(-2)%float; 2%float] /\
  fst (ledger.charge 1003 (js "t-3") (js "alice") 6
         (ledger.run (firstn 3 ledger.sample_calls) ledger.empty))
  = ledger.Throws ledger.INSUFFICIENT_POINTS.
Proof. repeat split; vm_compute; reflexivity. Qed.




Lemma skipn_suffix {A} n (l : list A) : exists older, l = older ++ skipn n l.
Proof. exists (firstn n l). by rewrite firstn_skipn. Qed.

(** X26: [listTransactions] returns transactions of
    the account asked for only, in the order of the log: the last [limit]
    of them, or all when there are no more than [limit]; none for a limit
    of 0 or less. *)
Theorem listTransactions_spec (id : jsstring) (limit : Z) (state : ledger.LedgerFileState) :
  let mine := List.filter (fun t => bool_decide (ledger.tx_accountId t = id))
                (ledger.transactions state) in
  let shown := ledger.listTransactions id limit state in
  Forall (fun t => ledger.tx_accountId t = id) shown /\
  (exists older, mine = older ++ shown) /\
  Z.of_nat (length shown) = Z.min (Z.of_nat (length mine)) (Z.max 0 limit) /\
  (Z.of_nat (length mine) <= limit -> shown = mine).
Proof.
  cbv zeta. unfold ledger.listTransactions.
  set (mine := List.filter _ _).
  assert (M : Forall (fun t => ledger.tx_accountId t = id) mine).
  { rewrite Forall_forall. intros t Ht. subst mine.
    apply list_elem_of_In, filter_In in Ht as [_ Ht]. by apply bool_decide_eq_true in Ht. }
  split; [|split; [|split]].
  - by apply Forall_drop.
  - apply skipn_suffix.
  - rewrite length_skipn. lia.
  - intros H. replace (Z.to_nat _) with 0%nat by lia. reflexivity.
Qed.

(** ** Sentences *)

Lemma terminator_not_space c : is_terminator c = true -> is_space c = false.
Proof.
  unfold is_terminator. rewrite !orb_true_iff, !N.eqb_eq.
  intros [[[[[[-> | ->] | ->] | ->] | ->] | ->] | ->]; reflexivity.
Qed.

Lemma forallb_removelast {A} (P : A -> bool) l :
  forallb P l = true -> forallb P (removelast l) = true.
Proof.
  induction l as [|a l IH]; [done|]. destruct l as [|b l]; [done|].
  change (removelast (a :: b :: l)) with (a :: removelast (b :: l)).
  intros H. apply andb_prop in H as [Ha H].
  change (forallb P (a :: removelast (b :: l)))
    with (P a && forallb P (removelast (b :: l))).
  by rewrite Ha, IH.
Qed.

Lemma unbroken_snoc cur c :
  forallb (fun c => negb (is_terminator c)) cur = true ->
  unbroken (rev (c :: cur)) = true.
Proof.
  intros H. unfold unbroken. cbn [rev]. rewrite removelast_last.
  rewrite forallb_forall in *. intros x Hx. apply H. by apply in_rev.
Qed.

Lemma split_sentences_go_unbroken skipping cur s :
  forallb (fun c => negb (is_terminator c)) cur = true ->
  Forall (fun seg => unbroken seg = true) (split_sentences_go skipping cur s).
Proof.
  revert skipping cur. induction s as [|c s IH]; intros skipping cur H.
  - cbn [split_sentences_go]. constructor; [|constructor].
    apply forallb_removelast. rewrite forallb_forall in *.
    intros x Hx. apply H. by apply in_rev.
  - cbn [split_sentences_go].
    destruct (skipping && is_space c); [by apply IH|].
    destruct (is_terminator c) eqn:T; cbn [andb].
    + destruct s as [|d s]; cbn [nonempty].
      * cbn [split_sentences_go]. constructor; [|constructor].
        by apply unbroken_snoc.
      * constructor; [by apply unbroken_snoc | by apply IH].
    + apply IH. cbn [forallb]. by rewrite T.
Qed.

Lemma unbroken_trim seg : unbroken seg = true -> unbroken (trim seg) = true.
Proof.
  destruct (trim_infix seg) as (ws1 & ws2 & E & _ & _).
  unfold unbroken. rewrite E at 1.
  destruct (trim seg) as [|a t] eqn:Et; [done|].
  destruct ws2 as [|w ws2].
  - rewrite app_nil_r, removelast_app by done.
    rewrite forallb_app. intros H. by apply andb_prop in H as [_ H].
  - rewrite app_assoc, removelast_app by done.
    rewrite !forallb_app. intros H. apply andb_prop in H as [H _].
    apply andb_prop in H as [_ H]. by apply forallb_removelast.
Qed.

Lemma visible_app a b : visible (a ++ b) = visible a ++ visible b.
Proof. unfold visible. apply List.filter_app. Qed.

Lemma visible_spaces ws : forallb is_space ws = true -> visible ws = [].
Proof.
  induction ws as [|c ws IH]; [done|]. cbn [forallb visible List.filter].
  intros H. apply andb_prop in H as [-> H]. by apply IH.
Qed.

Lemma visible_trim s : visible (trim s) = visible s.
Proof.
  destruct (trim_infix s) as (ws1 & ws2 & E & F1 & F2).
  rewrite E at 2. rewrite !visible_app.
  rewrite (visible_spaces ws1), (visible_spaces ws2) by done.
  by rewrite app_nil_r.
Qed.

Lemma visible_collapse_blanks in_run s : visible (collapse_blanks in_run s) = visible s.
Proof.
  revert in_run. induction s as [|c s IH]; intros in_run; [done|].
  cbn [collapse_blanks].
  destruct (N.eqb c 32 || N.eqb c 9) eqn:B.
  - assert (S : is_space c = true).
    { apply orb_prop in B as [B|B]; apply N.eqb_eq in B as ->; reflexivity. }
    cbn [visible List.filter]. rewrite S. cbn [negb].
    destruct in_run; [apply IH|].
    change (visible (32%N :: collapse_blanks true s) = visible s).
    cbn [visible List.filter]. change (is_space 32) with true. cbn [negb]. apply IH.
  - cbn [visible List.filter]. destruct (negb (is_space c)); [f_equal|]; apply IH.
Qed.

Lemma visible_crlf s : visible (replaceAll crlf lf s) = visible s.
Proof.
  remember (length s) as n eqn:Hn. revert s Hn.
  induction n as [n IH] using lt_wf_ind. intros s ->.
  destruct s as [|c rest]; [done|].
  destruct (starts_with crlf (c :: rest)) eqn:M.
  - destruct rest as [|d rest]; [cbn in M; by rewrite andb_false_r in M|].
    cbn [crlf starts_with] in M.
    apply andb_prop in M as [M1 M2]. apply andb_prop in M2 as [M2 _].
    apply N.eqb_eq in M1 as <-, M2 as <-.
    change (13%N :: 10%N :: rest) with (crlf ++ rest).
    rewrite replaceAll_match by done. rewrite !visible_app.
    rewrite (IH (length rest)); [done | cbn; lia | done].
  - rewrite replaceAll_pass by done.
    cbn [visible List.filter]. fold (visible (replaceAll crlf lf rest)) (visible rest).
    rewrite (IH (length rest)); [done | cbn; lia | done].
Qed.

Lemma visible_normalizeText input : visible (normalizeText input) = visible input.
Proof.
  unfold normalizeText.
  by rewrite visible_trim, visible_collapse_blanks, visible_crlf.
Qed.

Lemma visible_split_sentences_go skipping cur s :
  visible (concat (split_sentences_go skipping cur s)) = visible (rev cur ++ s).
Proof.
  revert skipping cur. induction s as [|c s IH]; intros skipping cur.
  - cbn [split_sentences_go concat]. by rewrite !app_nil_r.
  - cbn [split_sentences_go].
    destruct (skipping && is_space c) eqn:K.
    + apply andb_prop in K as [_ K]. rewrite IH, !visible_app.
      cbn [visible List.filter]. by rewrite K.
    + destruct (is_terminator c && nonempty s).
      * cbn [concat]. rewrite visible_app, IH. cbn [rev app].
        by rewrite <- visible_app, <- app_assoc.
      * rewrite IH. cbn [rev]. by rewrite <- app_assoc.
Qed.

Lemma visible_sentences l :
  visible (concat (List.filter nonempty (map trim l))) = visible (concat l).
Proof.
  induction l as [|s l IH]; [done|].
  cbn [map List.filter concat]. rewrite visible_app, <- IH, <- (visible_trim s).
  destruct (trim s) as [|a t]; cbn [nonempty]; [done|].
  cbn [concat]. by rewrite visible_app.
Qed.

Lemma split_sentences_go_length skipping cur s :
  (length (split_sentences_go skipping cur s)
   <= 1 + length (List.filter is_terminator s))%nat.
Proof.
  revert skipping cur. induction s as [|c s IH]; intros skipping cur; [done|].
  cbn [split_sentences_go List.filter].
  destruct (skipping && is_space c) eqn:K.
  - specialize (IH true cur). destruct (is_terminator c); cbn [length]; lia.
  - destruct (is_terminator c); cbn [andb].
    + destruct (nonempty s); cbn [length].
      * specialize (IH true []). lia.
      * specialize (IH false (c :: cur)). lia.
    + apply IH.
Qed.

Lemma terminators_visible s :
  List.filter is_terminator (visible s) = List.filter is_terminator s.
Proof.
  induction s as [|c s IH]; [done|]. cbn [visible List.filter].
  destruct (is_terminator c) eqn:T.
  - rewrite (terminator_not_space c T). cbn [negb List.filter]. rewrite T.
    f_equal. apply IH.
  - destruct (negb (is_space c)); cbn [List.filter]; rewrite ?T; apply IH.
Qed.

Lemma filter_length_le {A} (P : A -> bool) l :
  (length (List.filter P l) <= length l)%nat.
Proof. induction l as [|a l IH]; cbn; [lia|]. destruct (P a); cbn; lia. Qed.

(** X21: every sentence that [splitSentences] returns is
    non-empty, has no white space at either end and has no sentence end
    before its last character.  The sentences put together hold the
    characters of the input that are not white space, in order and nothing
    else but white space; there is at most one sentence more than there
    are sentence ends in the input, and none when the input is blank. *)
Theorem splitSentences_spec (input : jsstring) :
  Forall (fun s => s <> [] /\ trim s = s /\ unbroken s = true) (splitSentences input) /\
  visible (concat (splitSentences input)) = visible input /\
  (length (splitSentences input) <= 1 + length (List.filter is_terminator input))%nat /\
  (visible input = [] -> splitSentences input = []).
Proof.
  assert (A : Forall (fun s => s <> [] /\ trim s = s /\ unbroken s = true)
                (splitSentences input)).
  { unfold splitSentences. cbv zeta.
    destruct (nonempty (normalizeText input)); [|constructor].
    pose proof (split_sentences_go_unbroken false [] (normalizeText input) eq_refl) as U.
    induction U as [|seg l Hseg _ IH]; [constructor|].
    cbn [map List.filter].
    destruct (trim seg) as [|a t] eqn:E; cbn [nonempty]; [done|].
    constructor; [|done]. rewrite <- E.
    split; [by rewrite E|]. split; [apply trim_trim | by apply unbroken_trim]. }
  assert (B : visible (concat (splitSentences input)) = visible input).
  { unfold splitSentences. cbv zeta.
    destruct (nonempty (normalizeText input)) eqn:E.
    - rewrite visible_sentences, visible_split_sentences_go. cbn [rev app].
      apply visible_normalizeText.
    - rewrite <- (visible_normalizeText input).
      by destruct (normalizeText input). }
  split; [done|]. split; [done|]. split.
  - unfold splitSentences. cbv zeta.
    destruct (nonempty (normalizeText input)); [|cbn; lia].
    etrans; [apply filter_length_le|]. rewrite length_map.
    etrans; [apply split_sentences_go_length|].
    by rewrite <- (terminators_visible (normalizeText input)),
      visible_normalizeText, terminators_visible.
  - intros V. rewrite V in B.
    destruct (splitSentences input) as [|s l]; [done|].
    inversion A as [|? ? (Hs & Ht & _) _]; subst.
    destruct s as [|c s]; [done|].
    destruct (trim_ends (c :: s)) as [Hh _]. rewrite Ht in Hh.
    specialize (Hh c eq_refl).
    cbn [concat app visible List.filter] in B. by rewrite Hh in B.
Qed.

(** Two separators, one of two blanks (which [normalizeText] makes one) and
    one of one blank. *)
Example split_sample :
  splitSentences sample_sentences = [js "Is it so?"; js "Yes;"; js "it is!"].
Proof. vm_compute. reflexivity. Qed.
